(** * ctxcat: the path resolution and filtering pipeline

    A shallow embedding of [internal/processor/processor.go] (with the
    sorting step of [internal/cmd/root.go]) and the properties of its
    precedence chain, directory walk, gitignore resolver and result set.

    Layout:
    - [filepath]: the lexical path functions of Go's [path/filepath] on a
      Unix system ([Clean], [Join], [Dir], [Rel], [Abs]);
    - [node]: the file system as a tree of files, directories and
      symbolic links, with permission bits and listings sorted by name;
    - [Env]: what the program gets from outside (the glob and gitignore
      libraries, the file system, the working directory, and the order
      in which a [range] over a map yields its keys);
    - section [Processor]: the code of [processor.go] in a
      state-and-failure monad whose state holds the matcher cache, the
      result map, a log of system calls and diagnostics and the number
      of maps ranged over;
    - [formatter.go], the template of [internal/config], [input.go], the
      output loop of [cmd/root.go] and the archive of [npm/install.js];
    - [Demo] and [Quiet]: small concrete environments;
    - the theorems. *)

From Stdlib Require Import Strings.String Strings.Ascii Strings.Byte List Bool Arith Lia.
From Stdlib Require OrderedTypeEx.
From stdpp Require Import base option list strings gmap sorting.

Local Open Scope string_scope.
Local Open Scope list_scope.

Set Warnings "-clear-no-such-hyp".

(* ------------------------------------------------------------------ *)
(** ** Go's [strings] and [path/filepath], Unix flavour *)
(* ------------------------------------------------------------------ *)

(** [strings.Split(s, sep)] for a one-byte separator: always at least one
    piece. *)
Fixpoint split_on (sep : ascii) (s : string) : list string :=
  match s with
  | EmptyString => [EmptyString]
  | String c s' =>
      if Ascii.eqb c sep then EmptyString :: split_on sep s'
      else match split_on sep s' with
           | x :: xs => String c x :: xs
           | [] => [String c EmptyString]
           end
  end.

(** [strings.Contains(s, sub)]. *)
Fixpoint Contains (s sub : string) : bool :=
  String.prefix sub s ||
  match s with
  | EmptyString => false
  | String _ s' => Contains s' sub
  end.

(** The bytes of a list of elements, one separator after each. *)
Fixpoint weight (cs : list string) : nat :=
  match cs with
  | [] => 0
  | c :: cs' => S (String.length c) + weight cs'
  end.

(** *** More of Go's [strings] *)

(** [strings.HasSuffix(s, suffix)]. *)
Definition HasSuffix (s suffix : string) : bool :=
  Nat.leb (String.length suffix) (String.length s) &&
  String.eqb
    (String.substring (String.length s - String.length suffix) (String.length suffix) s)
    suffix.

(** [strings.TrimSuffix(s, suffix)]. *)
Definition TrimSuffix (s suffix : string) : string :=
  if HasSuffix s suffix
  then String.substring 0 (String.length s - String.length suffix) s
  else s.

(** The first pair, in argument order, whose old string starts [s]. *)
Fixpoint lookup_old (oldnew : list (string * string)) (s : string)
  : option (string * string) :=
  match oldnew with
  | [] => None
  | (old, new) :: oldnew' =>
      if String.prefix old s then Some (old, new) else lookup_old oldnew' s
  end.

(** The scan of [Replacer.Replace] over [s], for old strings that are
    not empty: at each byte the old strings are compared in argument
    order; a match writes the new string and goes on after the old one
    ([skip] counts the bytes of it that are left), so that what is
    written is not looked at again. *)
Fixpoint Replace_from (oldnew : list (string * string)) (skip : nat) (s : string)
  : string :=
  match s with
  | EmptyString => EmptyString
  | String c s' =>
      match skip with
      | S skip' => Replace_from oldnew skip' s'
      | 0 =>
          match lookup_old oldnew s with
          | Some (old, new) => new +:+ Replace_from oldnew (String.length old - 1) s'
          | None => String c (Replace_from oldnew 0 s')
          end
      end
  end.

(** [strings.NewReplacer(oldnew...).Replace(s)]. *)
Definition Replace (oldnew : list (string * string)) (s : string) : string :=
  Replace_from oldnew 0 s.

(** The bytes that [strings.TrimSpace] takes for white space without
    decoding. *)
Definition asciiSpace (c : ascii) : bool :=
  let n := nat_of_ascii c in
  (Nat.leb 9 n && Nat.leb n 13) || Nat.eqb n 32.

Definition byte_is (n : nat) (c : ascii) : bool := Nat.eqb (nat_of_ascii c) n.

(** The UTF-8 forms of the white space of [unicode.IsSpace] above
    U+007F: U+0085 and U+00A0 in two bytes; U+1680, U+2000 to U+200A,
    U+2028, U+2029, U+202F, U+205F and U+3000 in three. *)
Definition space2 (b1 b2 : ascii) : bool :=
  byte_is 194 b1 && (byte_is 133 b2 || byte_is 160 b2).

Definition space3 (b1 b2 b3 : ascii) : bool :=
  (byte_is 225 b1 && byte_is 154 b2 && byte_is 128 b3) ||
  (byte_is 226 b1 && byte_is 128 b2 &&
   ((Nat.leb 128 (nat_of_ascii b3) && Nat.leb (nat_of_ascii b3) 138) ||
    byte_is 168 b3 || byte_is 169 b3 || byte_is 175 b3)) ||
  (byte_is 226 b1 && byte_is 129 b2 && byte_is 159 b3) ||
  (byte_is 227 b1 && byte_is 128 b2 && byte_is 128 b3).

(** The width of the white space rune that starts [l]; 0 when something
    else does. *)
Definition space_first (l : list ascii) : nat :=
  match l with
  | b1 :: l1 =>
      if asciiSpace b1 then 1
      else match l1 with
           | b2 :: l2 =>
               if space2 b1 b2 then 2
               else match l2 with
                    | b3 :: _ => if space3 b1 b2 b3 then 3 else 0
                    | [] => 0
                    end
           | [] => 0
           end
  | [] => 0
  end.

(** The same for the rune that ends a string, on its bytes from the last
    to the first. *)
Definition space_last (r : list ascii) : nat :=
  match r with
  | b1 :: r1 =>
      if asciiSpace b1 then 1
      else match r1 with
           | b2 :: r2 =>
               if space2 b2 b1 then 2
               else match r2 with
                    | b3 :: _ => if space3 b3 b2 b1 then 3 else 0
                    | [] => 0
                    end
           | [] => 0
           end
  | [] => 0
  end.

(** The loop of [TrimLeftFunc] and [TrimRightFunc]: runes are dropped
    while they are white space; [fuel] bounds the iterations. *)
Fixpoint trim_loop (width : list ascii -> nat) (fuel : nat) (l : list ascii)
  : list ascii :=
  match fuel with
  | 0 => l
  | S fuel' =>
      match width l with
      | 0 => l
      | w => trim_loop width fuel' (skipn w l)
      end
  end.

Definition TrimLeft (l : list ascii) : list ascii :=
  trim_loop space_first (length l) l.

Definition TrimRight (l : list ascii) : list ascii :=
  rev (trim_loop space_last (length l) (rev l)).

(** [strings.TrimSpace(s)]. *)
Definition TrimSpace (s : string) : string :=
  string_of_list_ascii (TrimRight (TrimLeft (list_ascii_of_string s))).

(** The byte [c] occurs in [s]. *)
Fixpoint has_byte (c : ascii) (s : string) : bool :=
  match s with
  | EmptyString => false
  | String c' s' => Ascii.eqb c' c || has_byte c s'
  end.

(** The strings of a list, one after the other. *)
Definition concat_all (l : list string) : string :=
  fold_right String.append "" l.

(** The last byte of a string. *)
Fixpoint last_byte (s : string) : option ascii :=
  match s with
  | EmptyString => None
  | String c EmptyString => Some c
  | String _ s' => last_byte s'
  end.

Module filepath.

Definition Separator : ascii := "/"%char.

Definition IsAbs (p : string) : bool :=
  match p with
  | String c _ => Ascii.eqb c Separator
  | EmptyString => false
  end.

(** The element-wise work of [Clean]: empty and [.] elements vanish, a
    [..] removes the element before it, is dropped at the root, and is
    kept at the front of a relative path.  [stack] is the cleaned prefix,
    last element first. *)
Fixpoint clean_comps (rooted : bool) (stack cs : list string) : list string :=
  match cs with
  | [] => rev stack
  | c :: cs' =>
      if String.eqb c "" || String.eqb c "." then clean_comps rooted stack cs'
      else if String.eqb c ".." then
        match stack with
        | top :: stack' =>
            if String.eqb top ".." then clean_comps rooted (c :: stack) cs'
            else clean_comps rooted stack' cs'
        | [] =>
            if rooted then clean_comps rooted [] cs'
            else clean_comps rooted [c] cs'
        end
      else clean_comps rooted (c :: stack) cs'
  end.

Definition render (rooted : bool) (cs : list string) : string :=
  if rooted then String Separator (String.concat "/" cs)
  else match cs with
       | [] => "."
       | _ => String.concat "/" cs
       end.

(** The elements of a path after cleaning. *)
Definition comps (p : string) : list string :=
  clean_comps (IsAbs p) [] (split_on Separator p).

Definition Clean (p : string) : string := render (IsAbs p) (comps p).

(** [Join(a, b)]: empty elements are ignored, the rest is joined with the
    separator and cleaned. *)
Definition Join (a b : string) : string :=
  if String.eqb a "" then (if String.eqb b "" then "" else Clean b)
  else if String.eqb b "" then Clean a
  else Clean (a +:+ "/" +:+ b).

(** [Dir(p)]: everything up to the last separator, cleaned. *)
Definition Dir (p : string) : string :=
  render (IsAbs p) (clean_comps (IsAbs p) [] (removelast (split_on Separator p))).

Fixpoint strip_common (b t : list string) : list string * list string :=
  match b, t with
  | x :: b', y :: t' => if String.eqb x y then strip_common b' t' else (b, t)
  | _, _ => (b, t)
  end.

(** [Rel(base, targ)]: fails when exactly one of the two is rooted, or
    when the part of [base] that is left after the common prefix starts
    with [..]. *)
Definition Rel (base targ : string) : option string :=
  if negb (Bool.eqb (IsAbs base) (IsAbs targ)) then None
  else
    let '(b, t) := strip_common (comps base) (comps targ) in
    match b with
    | x :: _ => if String.eqb x ".." then None
                else Some (render false (map (fun _ => "..") b ++ t))
    | [] => Some (render false t)
    end.

(** [Abs(p)]: a rooted path is cleaned, another one is joined to the
    working directory; fails when the working directory is unknown. *)
Definition Abs (wd : option string) (p : string) : option string :=
  if IsAbs p then Some (Clean p)
  else match wd with
       | Some d => Some (Join d p)
       | None => None
       end.

(** On Unix the separator already is the slash. *)
Definition ToSlash (p : string) : string := p.

(** The loop of [Ext], from the last byte down: [before] holds the bytes
    not yet seen, the last one first, [after] the ones seen. *)
Fixpoint Ext_loop (before : list ascii) (after : string) : string :=
  match before with
  | [] => ""
  | c :: before' =>
      if Ascii.eqb c Separator then ""
      else if Ascii.eqb c "." then String c after
      else Ext_loop before' (String c after)
  end.

(** [Ext(path)]: the suffix beginning at the final dot in the final
    element of path; empty if there is no dot. *)
Definition Ext (path : string) : string :=
  Ext_loop (rev (list_ascii_of_string path)) "".

(** The trailing separators of [Base], on the reversed bytes. *)
Fixpoint strip_seps (before : list ascii) : list ascii :=
  match before with
  | c :: before' =>
      if Ascii.eqb c Separator then strip_seps before' else before
  | [] => []
  end.

(** The loop of [Base] that finds the last element. *)
Fixpoint last_element (before : list ascii) (after : string) : string :=
  match before with
  | [] => after
  | c :: before' =>
      if Ascii.eqb c Separator then after
      else last_element before' (String c after)
  end.

(** [Base(path)]: the last element of path, without trailing
    separators; [.] for the empty path, a single separator for a path of
    separators. *)
Definition Base (path : string) : string :=
  if String.eqb path "" then "."
  else
    let path' := last_element (strip_seps (rev (list_ascii_of_string path))) "" in
    if String.eqb path' "" then String Separator "" else path'.

(** [Join(elem...)] for any number of elements: the elements from the
    first one that is not empty, joined with the separator and cleaned;
    empty when there is none. *)
Fixpoint JoinElems (elem : list string) : string :=
  match elem with
  | [] => ""
  | e :: elem' =>
      if String.eqb e "" then JoinElems elem'
      else Clean (String.concat "/" elem)
  end.

End filepath.

(* ------------------------------------------------------------------ *)
(** ** The file system *)
(* ------------------------------------------------------------------ *)

(** What a path can name, as [os.Lstat] sees it: a regular file with
    its bytes; a directory with its entries as [os.ReadDir] returns
    them, sorted by name; a symbolic link with what following it
    reaches, [None] for a link that leads nowhere.  [perm = false] is a
    file that cannot be opened, or a directory that can be neither
    listed nor traversed. *)
#[warnings="-register-all"]
Inductive node : Type :=
| File (perm : bool) (content : list byte)
| Dir (perm : bool) (entries : list (string * node))
| Link (target : option node).

(** [fs.FileInfo.IsDir] and [fs.DirEntry.IsDir]: a symbolic link is not
    a directory, whatever it leads to. *)
Definition IsDir (n : node) : bool :=
  match n with
  | Dir _ _ => true
  | _ => false
  end.

(** What the system calls that follow symbolic links find at a node. *)
Fixpoint follow (n : node) : option node :=
  match n with
  | Link target =>
      match target with
      | Some t => follow t
      | None => None
      end
  | _ => Some n
  end.

(** Structural induction with the hypothesis for every entry of a
    directory and for the target of a link. *)
Fixpoint node_induction (P : node -> Prop)
    (HFile : forall perm content, P (File perm content))
    (HDir : forall perm entries,
        Forall (fun e => P (snd e)) entries -> P (Dir perm entries))
    (HLink : forall target,
        match target with Some t => P t | None => True end -> P (Link target))
    (d : node) : P d :=
  match d with
  | File perm content => HFile perm content
  | Dir perm entries =>
      HDir perm entries
        ((fix all (dirs : list (string * node)) : Forall (fun e => P (snd e)) dirs :=
            match dirs with
            | [] => @List.Forall_nil _ _
            | e :: dirs' =>
                @List.Forall_cons _ _ e dirs'
                  (node_induction P HFile HDir HLink (snd e)) (all dirs')
            end) entries)
  | Link target =>
      HLink target
        (match target with
         | Some t => node_induction P HFile HDir HLink t
         | None => I
         end)
  end.

(** [os.ReadDir] returns the entries sorted by file name, byte by byte:
    the names of a listing ascend strictly. *)
Fixpoint sorted_names (names : list string) : bool :=
  match names with
  | a :: (b :: _) as rest => String.ltb a b && sorted_names rest
  | _ => true
  end.

(** Every listing of a tree is in the order of [os.ReadDir]. *)
Fixpoint listing_ok (n : node) : bool :=
  match n with
  | File _ _ => true
  | Dir _ entries =>
      sorted_names (map fst entries) &&
      (fix all (dirs : list (string * node)) : bool :=
         match dirs with
         | [] => true
         | e :: dirs' => listing_ok (snd e) && all dirs'
         end) entries
  | Link target =>
      match target with
      | Some t => listing_ok t
      | None => true
      end
  end.

Fixpoint find_entry (name : string) (es : list (string * node)) : option node :=
  match es with
  | [] => None
  | (n, x) :: es' => if String.eqb n name then Some x else find_entry name es'
  end.

(** Name resolution from a node along path elements: a symbolic link
    on the way is followed, the last element is not. *)
Fixpoint lookup_node (n : node) (cs : list string) : option node :=
  match cs with
  | [] => Some n
  | c :: cs' =>
      match follow n with
      | Some (Dir true es) =>
          match find_entry c es with
          | Some n' => lookup_node n' cs'
          | None => None
          end
      | _ => None
      end
  end.

(** [file.Read(buffer)] with a buffer of [n] bytes on a freshly opened
    node: the first [n] bytes of a file (none, with [io.EOF], when it is
    empty); an error on a directory. *)
Definition Read (n : nat) (f : node) : option (list byte) :=
  match f with
  | File _ content => Some (firstn n content)
  | _ => None
  end.

(* ------------------------------------------------------------------ *)
(** ** The environment *)
(* ------------------------------------------------------------------ *)

(** What the processor takes from outside: the [doublestar] glob library,
    the [go-gitignore] matcher, the file system and the working
    directory. *)
Class Env : Type := {
  (** a compiled [ignore.GitIgnore] *)
  Matcher : Type;
  (** [ignore.CompileIgnoreLines(lines...)] *)
  CompileIgnoreLines : list string -> Matcher;
  (** [GitIgnore.MatchesPath(path)] *)
  MatchesPath : Matcher -> string -> bool;
  (** [doublestar.PathMatch(pattern, name)]; [None] is [ErrBadPattern] *)
  PathMatch : string -> string -> option bool;
  (** [doublestar.FilepathGlob(pattern)]; [None] is [ErrBadPattern] *)
  FilepathGlob : string -> option (list string);
  (** the root directory of the file system *)
  fs : node;
  fs_sorted : listing_ok fs = true;
  (** the elements of the working directory, [None] when [os.Getwd]
      fails *)
  cwd : option (list string);
  (** the order in which the [n]-th [range] over a map of the run visits
      the keys: Go leaves it open, and it can be another one each
      time *)
  range_order : nat -> gset string -> list string;
  range_order_perm : forall n keys, range_order n keys ≡ₚ elements keys
}.

(** [Config] holds the configuration for the file processor. *)
Record Config : Type := {
  NoRecursive : bool;
  NoGitignore : bool;
  IgnoreFiles : list string;
  ExcludeGlobs : list string;
  NoBinaryCheck : bool
}.

(** The four checks of the precedence chain. *)
Inductive stage : Type :=
| StageExclude
| StageCustomIgnore
| StageGitignore
| StageBinary.

(** The three diagnostics [processor.go] prints on [os.Stderr]. *)
Inductive warning : Type :=
| WarnIgnoreFile (file : string)
| WarnGlob (pattern : string)
| WarnWalk (path : string).

(** What the log records, in the order it happens: the calls the filter
    makes for a stage of the chain ([p.isExcluded],
    [p.customIgnoreMatcher.MatchesPath], [p.isGitignored] and
    [isBinary]), the system calls, the diagnostics. *)
Inductive event : Type :=
| EvCheck (st : stage) (path : string)
| EvStat (path : string)
| EvLstat (path : string)
| EvOpen (path : string)
| EvReadDir (path : string) (ok : bool)
| EvLoadIgnore (path : string)
| EvWarn (w : warning).

(** What a [fs.WalkDirFunc] returns besides [nil]. *)
Inductive walk_error : Type :=
| SkipDir
| SkipAll
| OsError (path : string).

Definition is_SkipDir (e : walk_error) : bool :=
  match e with
  | SkipDir => true
  | _ => false
  end.

Definition is_skip (e : walk_error) : bool :=
  match e with
  | SkipDir | SkipAll => true
  | OsError _ => false
  end.

Definition nul : byte := x00.

Definition LF : ascii := ascii_of_nat 10.
Definition CR : ascii := ascii_of_nat 13.

(** A [bufio.Scanner] line drops one trailing carriage return. *)
Fixpoint drop_cr (s : string) : string :=
  match s with
  | EmptyString => EmptyString
  | String c EmptyString => if Ascii.eqb c CR then EmptyString else s
  | String c s' => String c (drop_cr s')
  end.

(** [bufio.MaxScanTokenSize]: the size the buffer of a scanner grows
    to. *)
Definition MaxScanTokenSize : N := 64 * 1024.

(** The loop [for scanner.Scan()] over the lines that are left: a line
    that does not fit into the buffer, with its newline when it has
    one, ends the scan with [ErrTooLong], and the lines after it are
    lost. *)
Fixpoint scan_tokens (pieces : list string) : list string :=
  match pieces with
  | [] => []
  | line :: pieces' =>
      if N.ltb (N.of_nat (String.length line)) MaxScanTokenSize
      then drop_cr line :: scan_tokens pieces'
      else []
  end.

(** The tokens of a [bufio.Scanner] with the default split function: the
    lines, without a last empty one, up to the first that is too
    long. *)
Definition scan_lines (s : string) : list string :=
  let pieces := split_on LF s in
  scan_tokens
    (match last pieces with
     | Some EmptyString => removelast pieces
     | _ => pieces
     end).

(** What [scanner.Scan] and [scanner.Text] yield on an opened node: the
    lines of a file; nothing for a directory, where the first read
    fails. *)
Definition Scanner_lines (f : node) : list string :=
  match f with
  | File _ content => scan_lines (string_of_list_byte content)
  | _ => []
  end.

Section Processor.
Context `{Env}.

(** *** System calls *)

(** [os.Getwd]: a rooted path. *)
Definition Getwd : option string :=
  match cwd with
  | Some elems => Some (filepath.render true elems)
  | None => None
  end.

(** [os.Lstat]: the node a path names; a symbolic link at its end is
    not followed, the links on the way are.  The path is looked up by
    its cleaned elements, which is what the kernel finds unless a [..]
    element comes after a symbolic link. *)
Definition os_Lstat (p : string) : option node :=
  match filepath.Abs Getwd p with
  | Some a => lookup_node fs (filepath.comps a)
  | None => None
  end.

(** What a path leads to, symbolic links followed: a file or a
    directory. *)
Definition resolve (p : string) : option node :=
  match os_Lstat p with
  | Some n => follow n
  | None => None
  end.

(** [os.Stat]. *)
Definition os_Stat (p : string) : option node := resolve p.

(** [os.Open]. *)
Definition os_Open (p : string) : option node :=
  match resolve p with
  | Some (File true c) => Some (File true c)
  | Some (Dir true es) => Some (Dir true es)
  | _ => None
  end.

(** [os.ReadFile]. *)
Definition os_ReadFile (p : string) : option (list byte) :=
  match os_Open p with
  | Some (File _ c) => Some c
  | _ => None
  end.

(** [ignore.CompileIgnoreFile(fpath)]: the file's lines, split at the
    newline, compiled. *)
Definition CompileIgnoreFile (fpath : string) : option Matcher :=
  match os_ReadFile fpath with
  | Some bs => Some (CompileIgnoreLines (split_on LF (string_of_list_byte bs)))
  | None => None
  end.

(** *** The processor's state and monad *)

(** The mutable data of a run: the [ignoreMatcherCache] of the
    [FileProcessor] ([Some None] is a cached [nil] matcher), the
    [finalFiles] map of [ProcessPaths], the log, and the number of
    [range] statements over a map that the run has executed. *)
Record state : Type := mkState {
  ignoreMatcherCache : gmap string (option Matcher);
  finalFiles : gset string;
  log : list event;
  ranged : nat
}.

Definition initial : state :=
  {| ignoreMatcherCache := ∅; finalFiles := ∅; log := []; ranged := 0 |}.

(** A computation reads and writes the state; [None] is a computation
    that never returns. *)
Definition M (A : Type) : Type := state -> option (A * state).

Definition ret {A} (a : A) : M A := fun s => Some (a, s).

Definition bind {A B} (m : M A) (k : A -> M B) : M B :=
  fun s => match m s with
           | Some (a, s') => k a s'
           | None => None
           end.

Definition loops {A} : M A := fun _ => None.

Definition emit (e : event) : M unit :=
  fun s => Some (tt, {| ignoreMatcherCache := ignoreMatcherCache s;
                        finalFiles := finalFiles s;
                        log := log s ++ [e];
                        ranged := ranged s |}).

Definition cache_get (dir : string) : M (option (option Matcher)) :=
  fun s => Some (ignoreMatcherCache s !! dir, s).

Definition cache_put (dir : string) (m : option Matcher) : M unit :=
  fun s => Some (tt, {| ignoreMatcherCache := <[dir := m]> (ignoreMatcherCache s);
                        finalFiles := finalFiles s;
                        log := log s;
                        ranged := ranged s |}).

Definition cache_new : M unit :=
  fun s => Some (tt, {| ignoreMatcherCache := ∅;
                        finalFiles := finalFiles s;
                        log := log s;
                        ranged := ranged s |}).

Definition final_new : M unit :=
  fun s => Some (tt, {| ignoreMatcherCache := ignoreMatcherCache s;
                        finalFiles := ∅;
                        log := log s;
                        ranged := ranged s |}).

Definition final_add (path : string) : M unit :=
  fun s => Some (tt, {| ignoreMatcherCache := ignoreMatcherCache s;
                        finalFiles := {[ path ]} ∪ finalFiles s;
                        log := log s;
                        ranged := ranged s |}).

Definition final_get : M (gset string) :=
  fun s => Some (finalFiles s, s).

(** The keys of a map in the order in which a [range] statement visits
    them. *)
Definition range_keys (keys : gset string) : M (list string) :=
  fun s => Some (range_order (ranged s) keys,
                 {| ignoreMatcherCache := ignoreMatcherCache s;
                    finalFiles := finalFiles s;
                    log := log s;
                    ranged := S (ranged s) |}).

End Processor.

Notation "'let*' x := m 'in' k" := (bind m (fun x => k))
  (at level 10, x name, m at level 100, k at level 200).
Notation "m >>> k" := (bind m (fun _ => k))
  (at level 100, k at level 200, right associativity).

(* ------------------------------------------------------------------ *)
(** ** [processor.go] *)
(* ------------------------------------------------------------------ *)

Section Code.
Context `{Env}.

(** [FileProcessor] walks paths and filters files based on
    configuration.  Its cache is the [ignoreMatcherCache] of the state;
    [customIgnoreMatcher] is [None] for a [nil] pointer. *)
Record FileProcessor : Type := {
  config : Config;
  customIgnoreMatcher : option Matcher
}.

(** The loop of [New] over [config.IgnoreFiles]. *)
Fixpoint load_patterns (files allPatterns : list string) : M (list string) :=
  match files with
  | [] => ret allPatterns
  | file :: files' =>
      emit (EvLoadIgnore file) >>>
      match os_Open file with
      | None =>
          emit (EvWarn (WarnIgnoreFile file)) >>>
          load_patterns files' allPatterns
      | Some f =>
          load_patterns files' (allPatterns ++ Scanner_lines f)
      end
  end.

(** [New] creates a new [FileProcessor]. *)
Definition New (config : Config) : M FileProcessor :=
  cache_new >>>
  let* matcher :=
    (if Nat.ltb 0 (length (IgnoreFiles config)) then
       let* allPatterns := load_patterns (IgnoreFiles config) [] in
       if Nat.ltb 0 (length allPatterns)
       then ret (Some (CompileIgnoreLines allPatterns))
       else ret None
     else ret None) in
  ret {| config := config; customIgnoreMatcher := matcher |}.

(** [getGitignoreMatcher] finds or compiles a .gitignore file for a given
    directory.  The result is the matcher; the boolean of the source is
    [true] exactly when it is [Some]. *)
Definition getGitignoreMatcher (dir : string) : M (option Matcher) :=
  let* cached := cache_get dir in
  match cached with
  | Some matcher => ret matcher
  | None =>
      let gitignorePath := filepath.Join dir ".gitignore" in
      emit (EvLoadIgnore gitignorePath) >>>
      match CompileIgnoreFile gitignorePath with
      | None => cache_put dir None >>> ret None
      | Some matcher => cache_put dir (Some matcher) >>> ret (Some matcher)
      end
  end.

(** The [for] loop of [isGitignored].  Each unfolding is one iteration;
    the [continue] after a failed [Rel] starts the next iteration with the
    same [currentDir].  [fuel] bounds the iterations. *)
Fixpoint ascend (fuel : nat) (absPath currentDir : string) : M bool :=
  match fuel with
  | 0 => loops
  | S fuel' =>
      let next :=
        let parentDir := filepath.Dir currentDir in
        if String.eqb parentDir currentDir then ret false
        else ascend fuel' absPath parentDir in
      let* m := getGitignoreMatcher currentDir in
      match m with
      | Some matcher =>
          match filepath.Rel currentDir absPath with
          | None => ascend fuel' absPath currentDir
          | Some relativePath =>
              if MatchesPath matcher (filepath.ToSlash relativePath)
              then ret true
              else next
          end
      | None => next
      end
  end.

(** [isGitignored] checks a path against the hierarchy of .gitignore
    files.  The loop gets one iteration per byte of [absPath], and one
    more. *)
Definition isGitignored (p : FileProcessor) (path : string) : M bool :=
  if NoGitignore (config p) then ret false
  else
    match filepath.Abs Getwd path with
    | None => ret false
    | Some absPath =>
        emit (EvStat absPath) >>>
        let currentDir :=
          match os_Stat absPath with
          | Some info =>
              if negb (IsDir info) then filepath.Dir absPath else absPath
          | None => absPath
          end in
        ascend (S (String.length absPath)) absPath currentDir
    end.

(** [isExcluded] checks if a path matches any of the --exclude glob
    patterns. *)
Definition isExcluded (p : FileProcessor) (path : string) : bool :=
  existsb
    (fun pattern =>
       match PathMatch (filepath.ToSlash pattern) (filepath.ToSlash path) with
       | Some true => true
       | _ => false
       end)
    (ExcludeGlobs (config p)).

(** [isBinary] checks for null bytes in the first chunk of a file. *)
Definition isBinary (path : string) : M bool :=
  emit (EvOpen path) >>>
  match os_Open path with
  | None => ret false
  | Some file =>
      match Read 1024 file with
      | None => ret false
      | Some buffer => ret (existsb (Byte.eqb nul) buffer)
      end
  end.

(** [shouldSkipDir] checks if a directory should be skipped during the
    walk.  This is a subset of [shouldInclude], without the binary
    check. *)
Definition shouldSkipDir (p : FileProcessor) (path : string) : M bool :=
  (* Precedence 1: --exclude flag *)
  emit (EvCheck StageExclude path) >>>
  if isExcluded p path then ret true
  else
    (* Precedence 2: --ignore-file files *)
    let* custom :=
      match customIgnoreMatcher p with
      | Some matcher =>
          emit (EvCheck StageCustomIgnore path) >>>
          let relPath :=
            match filepath.Rel "." path with
            | Some r => r
            | None => path
            end in
          ret (MatchesPath matcher (filepath.ToSlash relPath))
      | None => ret false
      end in
    if custom then ret true
    else
      (* Precedence 3: .gitignore files *)
      emit (EvCheck StageGitignore path) >>>
      let* ignored := isGitignored p path in
      if ignored then ret true else ret false.

(** [shouldInclude] applies all filtering logic in the correct order of
    precedence for a file. *)
Definition shouldInclude (p : FileProcessor) (path : string) : M bool :=
  let* skip := shouldSkipDir p path in
  if skip then ret false
  else
    (* Precedence 4: Binary file check *)
    let* binary :=
      if negb (NoBinaryCheck (config p))
      then emit (EvCheck StageBinary path) >>> isBinary path
      else ret false in
    if binary then ret false else ret true.

(** *** [filepath.WalkDir] *)

Section Walk.
(** The [fs.WalkDirFunc]: the path, whether the entry is a directory,
    the error handed in; [None] is [nil]. *)
Variable fn : string -> bool -> option walk_error -> M (option walk_error).

(** The loop of [walkDir] over the entries [dirs] of [path]; [walk] is
    [walkDir] itself. *)
Fixpoint walkEntries (walk : string -> node -> M (option walk_error))
    (path : string) (dirs : list (string * node)) : M (option walk_error) :=
  match dirs with
  | [] => ret None
  | (name, d1) :: dirs' =>
      let path1 := filepath.Join path name in
      let* err := walk path1 d1 in
      match err with
      | Some e => if is_SkipDir e then ret None (* break *) else ret (Some e)
      | None => walkEntries walk path dirs'
      end
  end.

(** [walkDir] recursively descends [path], calling [fn]. *)
Fixpoint walkDir (path : string) (d : node) : M (option walk_error) :=
  let* err := fn path (IsDir d) None in
  match err, d with
  | Some e, _ =>
      if is_SkipDir e && IsDir d then ret None (* successfully skipped directory *)
      else ret (Some e)
  | None, File _ _ | None, Link _ => ret None
  | None, Dir perm entries =>
      emit (EvReadDir path perm) >>>
      if perm then walkEntries walkDir path entries
      else
        (* second call, to report the ReadDir error; no entry was read,
           so the loop over them has nothing to do *)
        let* err := fn path true (Some (OsError path)) in
        match err with
        | Some e => if is_SkipDir e then ret None else ret (Some e)
        | None => ret None
        end
  end.

(** [WalkDir] walks the file tree rooted at [root].  It does not
    follow symbolic links: a root that is one is handed to the function
    as it is. *)
Definition WalkDir (root : string) : M (option walk_error) :=
  emit (EvLstat root) >>>
  let* err :=
    match os_Lstat root with
    | None => fn root false (Some (OsError root))
    | Some info => walkDir root info
    end in
  match err with
  | Some e => if is_skip e then ret None else ret (Some e)
  | None => ret None
  end.

End Walk.

(** The function literal that [ProcessPaths] hands to [WalkDir] for the
    candidate [path]. *)
Definition walkFn (p : FileProcessor) (path : string)
    (currentPath : string) (d_IsDir : bool) (err : option walk_error)
  : M (option walk_error) :=
  match err with
  | Some e => ret (Some e)
  | None =>
      if d_IsDir then
        (* To improve performance, skip directories that are ignored. *)
        let* skip :=
          if negb (String.eqb currentPath path)
          then shouldSkipDir p currentPath
          else ret false in
        if skip then ret (Some SkipDir) else ret None
      else
        let* inc := shouldInclude p currentPath in
        (if inc then final_add currentPath else ret tt) >>>
        ret None
  end.

(** The first loop of [ProcessPaths]: glob expansion into the
    [expandedPaths] map. *)
Fixpoint expand (paths : list string) (expandedPaths : gset string)
  : M (gset string) :=
  match paths with
  | [] => ret expandedPaths
  | path :: paths' =>
      match FilepathGlob path with
      | None =>
          emit (EvWarn (WarnGlob path)) >>>
          expand paths' expandedPaths
      | Some matches =>
          expand paths' (list_to_set matches ∪ expandedPaths)
      end
  end.

(** The body of the second loop of [ProcessPaths], for one expanded
    path. *)
Definition processCandidate (p : FileProcessor) (path : string) : M unit :=
  emit (EvStat path) >>>
  match os_Stat path with
  | None => ret tt
  | Some info =>
      if negb (IsDir info) then
        let* inc := shouldInclude p path in
        if inc then final_add path else ret tt
      else
        let isRecursivePattern := Contains path "**" in
        (if NoRecursive (config p) && negb isRecursivePattern
         then ret tt (* the branch is empty in the source *)
         else ret tt) >>>
        let* walkErr := WalkDir (walkFn p path) path in
        match walkErr with
        | Some _ => emit (EvWarn (WarnWalk path))
        | None => ret tt
        end
  end.

Fixpoint forEach {A} (f : A -> M unit) (l : list A) : M unit :=
  match l with
  | [] => ret tt
  | x :: l' => f x >>> forEach f l'
  end.

(** [ProcessPaths] takes a list of initial paths/globs and returns a
    filtered list of files.  The two maps are ranged over in an order
    that is not fixed; the returned error is always [nil] in the source
    and is left out. *)
Definition ProcessPaths (p : FileProcessor) (paths : list string)
  : M (list string) :=
  let* expandedPaths := expand paths ∅ in
  final_new >>>
  let* candidates := range_keys expandedPaths in
  forEach (processCandidate p) candidates >>>
  let* finalFiles := final_get in
  range_keys finalFiles.

(** *** [cmd/root.go], steps 2 to 4 *)

(** [sort.Strings]: ascending, byte by byte. *)
Definition string_le (a b : string) : Prop := String.leb a b = true.

Global Instance string_le_dec a b : Decision (string_le a b).
Proof. unfold string_le. apply _. Defined.

Global Instance string_le_total : Total string_le.
Proof. intros a b. unfold string_le. apply String.leb_total. Qed.

Definition sort_Strings (l : list string) : list string :=
  merge_sort string_le l.

(** The resolver of a run: configure the processor, process the paths,
    sort the files. *)
Definition resolvePaths (cfg : Config) (paths : list string) : M (list string) :=
  let* proc := New cfg in
  let* files := ProcessPaths proc paths in
  ret (sort_Strings files).

(* ------------------------------------------------------------------ *)
(** ** What the code computes, without the state *)
(* ------------------------------------------------------------------ *)

(** A cache that agrees with the file system: every directory it holds
    maps to what compiling that directory's .gitignore gives. *)
Definition matcher_at (dir : string) : option Matcher :=
  CompileIgnoreFile (filepath.Join dir ".gitignore").

Definition cache_ok (s : state) : Prop :=
  forall dir v, ignoreMatcherCache s !! dir = Some v -> v = matcher_at dir.

(** The events that do not depend on the cache. *)
Definition observable (e : event) : bool :=
  match e with
  | EvLoadIgnore _ => false
  | _ => true
  end.

(** [refines m a files tr]: from every state with a good cache, [m]
    returns [a], keeps the cache good, adds [files] to [finalFiles] and
    logs [tr], with cache loads in between. *)
Definition refines {A} (m : M A) (a : A) (files : list string) (tr : list event) : Prop :=
  forall s, cache_ok s ->
    exists s' evs,
      m s = Some (a, s') /\ cache_ok s' /\
      finalFiles s' = list_to_set files ∪ finalFiles s /\
      log s' = log s ++ evs /\
      filter (fun e => observable e = true) evs = tr.

(** The ruleset of [dir], when it has one, matches [absPath] made
    relative to [dir]. *)
Definition rules_match (absPath dir : string) : bool :=
  match matcher_at dir, filepath.Rel dir absPath with
  | Some m, Some r => MatchesPath m (filepath.ToSlash r)
  | _, _ => false
  end.

(** The directories the ascent visits from [dir] when nothing matches. *)
Fixpoint ancestors (fuel : nat) (dir : string) : list string :=
  match fuel with
  | 0 => []
  | S fuel' =>
      dir :: (if String.eqb (filepath.Dir dir) dir then []
              else ancestors fuel' (filepath.Dir dir))
  end.

(** Where the ascent starts. *)
Definition start_dir (absPath : string) : string :=
  match os_Stat absPath with
  | Some info => if negb (IsDir info) then filepath.Dir absPath else absPath
  | None => absPath
  end.

Definition gitignored (p : FileProcessor) (path : string) : bool :=
  if NoGitignore (config p) then false
  else match filepath.Abs Getwd path with
       | None => false
       | Some a => existsb (rules_match a) (ancestors (S (String.length a)) (start_dir a))
       end.

Definition gitignored_trace (p : FileProcessor) (path : string) : list event :=
  if NoGitignore (config p) then []
  else match filepath.Abs Getwd path with
       | None => []
       | Some a => [EvStat a]
       end.

(** The path the custom matcher is asked about. *)
Definition custom_rel (path : string) : string :=
  match filepath.Rel "." path with
  | Some r => r
  | None => path
  end.

Definition custom_ignored (p : FileProcessor) (path : string) : bool :=
  match customIgnoreMatcher p with
  | Some m => MatchesPath m (filepath.ToSlash (custom_rel path))
  | None => false
  end.

Definition skip_spec (p : FileProcessor) (path : string) : bool :=
  isExcluded p path || custom_ignored p path || gitignored p path.

Definition skip_trace (p : FileProcessor) (path : string) : list event :=
  EvCheck StageExclude path ::
  if isExcluded p path then []
  else
    (match customIgnoreMatcher p with
     | Some _ => [EvCheck StageCustomIgnore path]
     | None => []
     end) ++
    if custom_ignored p path then []
    else EvCheck StageGitignore path :: gitignored_trace p path.

Definition binary_file (path : string) : bool :=
  match os_Open path with
  | Some file =>
      match Read 1024 file with
      | Some buffer => existsb (Byte.eqb nul) buffer
      | None => false
      end
  | None => false
  end.

Definition binary_spec (p : FileProcessor) (path : string) : bool :=
  negb (NoBinaryCheck (config p)) && binary_file path.

Definition include_spec (p : FileProcessor) (path : string) : bool :=
  negb (skip_spec p path) && negb (binary_spec p path).

Definition include_trace (p : FileProcessor) (path : string) : list event :=
  skip_trace p path ++
  if skip_spec p path then []
  else if NoBinaryCheck (config p) then []
  else [EvCheck StageBinary path; EvOpen path].

(** What a walk leaves behind: the files it adds, the events it logs,
    the error it ends with. *)
Record outcome : Type := {
  out_files : list string;
  out_trace : list event;
  out_err : option walk_error
}.

Fixpoint entries_spec (walk : string -> node -> outcome)
    (path : string) (dirs : list (string * node)) : outcome :=
  match dirs with
  | [] => {| out_files := []; out_trace := []; out_err := None |}
  | (name, d1) :: dirs' =>
      let o1 := walk (filepath.Join path name) d1 in
      match out_err o1 with
      | Some e =>
          {| out_files := out_files o1; out_trace := out_trace o1;
             out_err := if is_SkipDir e then None else Some e |}
      | None =>
          let o2 := entries_spec walk path dirs' in
          {| out_files := out_files o1 ++ out_files o2;
             out_trace := out_trace o1 ++ out_trace o2;
             out_err := out_err o2 |}
      end
  end.

(** [walkDir (walkFn p top) path d], without the state. *)
Fixpoint walk_spec (p : FileProcessor) (top path : string) (d : node) : outcome :=
  match d with
  | File _ _ | Link _ =>
      {| out_files := if include_spec p path then [path] else [];
         out_trace := include_trace p path;
         out_err := None |}
  | Dir perm entries =>
      let below := negb (String.eqb path top) in
      if below && skip_spec p path then
        {| out_files := []; out_trace := skip_trace p path; out_err := None |}
      else
        let pre := (if below then skip_trace p path else []) ++ [EvReadDir path perm] in
        if perm then
          let o := entries_spec (walk_spec p top) path entries in
          {| out_files := out_files o; out_trace := pre ++ out_trace o;
             out_err := out_err o |}
        else
          {| out_files := []; out_trace := pre; out_err := Some (OsError path) |}
  end.

(** [WalkDir (walkFn p path) path] after its [os.Lstat], without the
    state. *)
Definition root_spec (p : FileProcessor) (path : string) : outcome :=
  match os_Lstat path with
  | Some d => walk_spec p path path d
  | None => {| out_files := []; out_trace := []; out_err := Some (OsError path) |}
  end.

(** [processCandidate p path], without the state. *)
Definition candidate_spec (p : FileProcessor) (path : string) : outcome :=
  match os_Stat path with
  | None => {| out_files := []; out_trace := [EvStat path]; out_err := None |}
  | Some info =>
      if negb (IsDir info) then
        {| out_files := if include_spec p path then [path] else [];
           out_trace := EvStat path :: include_trace p path;
           out_err := None |}
      else
        let o := root_spec p path in
        {| out_files := out_files o;
           out_trace := [EvStat path; EvLstat path] ++ out_trace o ++
                        match out_err o with
                        | Some _ => [EvWarn (WarnWalk path)]
                        | None => []
                        end;
           out_err := out_err o |}
  end.

(** The expanded paths of the inputs, and the warnings for bad patterns. *)
Definition expand_spec (paths : list string) : gset string :=
  list_to_set (flat_map (fun path => default [] (FilepathGlob path)) paths).

Definition expand_trace (paths : list string) : list event :=
  flat_map (fun path => match FilepathGlob path with
                        | None => [EvWarn (WarnGlob path)]
                        | Some _ => []
                        end) paths.

(** The set of files of a run: what each expanded path contributes. *)
Definition resolved (p : FileProcessor) (paths : list string) : gset string :=
  list_to_set
    (flat_map (fun c => out_files (candidate_spec p c)) (elements (expand_spec paths))).

(** The observable log of [ProcessPaths] when it ranges over the
    expanded paths in the order [order]. *)
Definition run_trace (p : FileProcessor) (paths order : list string) : list event :=
  expand_trace paths ++
  flat_map (fun c => out_trace (candidate_spec p c)) order.

(** The observable log of [New]: a warning for each ignore file that
    cannot be read. *)
Definition New_trace (config : Config) : list event :=
  flat_map (fun file => match os_Open file with
                        | Some _ => []
                        | None => [EvWarn (WarnIgnoreFile file)]
                        end) (IgnoreFiles config).

(** The patterns [New] collects from the ignore files it can read. *)
Definition custom_patterns (files : list string) : list string :=
  flat_map (fun file => match os_Open file with
                        | Some f => Scanner_lines f
                        | None => []
                        end) files.

Definition New_spec (config : Config) : FileProcessor :=
  {| config := config;
     customIgnoreMatcher :=
       match custom_patterns (IgnoreFiles config) with
       | [] => None
       | ps => Some (CompileIgnoreLines ps)
       end |}.

(** A configuration with another value of [NoRecursive]. *)
Definition with_NoRecursive (b : bool) (config : Config) : Config :=
  {| NoRecursive := b;
     NoGitignore := NoGitignore config;
     IgnoreFiles := IgnoreFiles config;
     ExcludeGlobs := ExcludeGlobs config;
     NoBinaryCheck := NoBinaryCheck config |}.

(** Two processors that agree on everything but [NoRecursive]. *)
Definition same_filter (p1 p2 : FileProcessor) : Prop :=
  NoGitignore (config p1) = NoGitignore (config p2) /\
  ExcludeGlobs (config p1) = ExcludeGlobs (config p2) /\
  NoBinaryCheck (config p1) = NoBinaryCheck (config p2) /\
  customIgnoreMatcher p1 = customIgnoreMatcher p2.

(** *** The ancestor chain in the words of the specification *)

(** [on_chain start d]: [d] is reached from [start] by going to the
    parent directory, zero or more times. *)
Inductive on_chain (start : string) : string -> Prop :=
| chain_start : on_chain start start
| chain_parent d : on_chain start d -> filepath.Dir d <> d ->
    on_chain start (filepath.Dir d).

(** *** The precedence chain in the words of the specification *)

Definition chain : list stage :=
  [StageExclude; StageCustomIgnore; StageGitignore; StageBinary].

(** Whether a stage has anything to evaluate. *)
Definition stage_enabled (p : FileProcessor) (st : stage) : bool :=
  match st with
  | StageExclude => true
  | StageCustomIgnore => match customIgnoreMatcher p with Some _ => true | None => false end
  | StageGitignore => true
  | StageBinary => negb (NoBinaryCheck (config p))
  end.

(** Whether a stage excludes the path. *)
Definition stage_matches (p : FileProcessor) (path : string) (st : stage) : bool :=
  match st with
  | StageExclude => isExcluded p path
  | StageCustomIgnore => custom_ignored p path
  | StageGitignore => gitignored p path
  | StageBinary => binary_spec p path
  end.

(** The stages evaluated on a path: in order, up to the first that
    matches. *)
Fixpoint evaluated (p : FileProcessor) (path : string) (stages : list stage) : list stage :=
  match stages with
  | [] => []
  | st :: rest =>
      if stage_enabled p st then
        st :: (if stage_matches p path st then [] else evaluated p path rest)
      else evaluated p path rest
  end.

(** The checks a log records. *)
Definition checks_of (evs : list event) : list stage :=
  flat_map (fun e => match e with EvCheck st _ => [st] | _ => [] end) evs.

(** What it is for a stage to exclude a path, in the words of the
    specification: a glob of the configuration matches it; the custom
    matcher, when there is one, matches it made relative to the working
    directory; with gitignore support, the ruleset of a directory on the
    way up from the path matches it made relative to that directory;
    with the binary check, the file can be opened and read and has a
    zero byte in its first 1024 bytes. *)
Definition stage_excludes (p : FileProcessor) (path : string) (st : stage) : Prop :=
  match st with
  | StageExclude =>
      exists pattern,
        In pattern (ExcludeGlobs (config p)) /\
        PathMatch (filepath.ToSlash pattern) (filepath.ToSlash path) = Some true
  | StageCustomIgnore =>
      exists m,
        customIgnoreMatcher p = Some m /\
        MatchesPath m (filepath.ToSlash
                         (match filepath.Rel "." path with
                          | Some r => r
                          | None => path
                          end)) = true
  | StageGitignore =>
      NoGitignore (config p) = false /\
      exists a dir m r,
        filepath.Abs Getwd path = Some a /\
        on_chain (start_dir a) dir /\
        matcher_at dir = Some m /\
        filepath.Rel dir a = Some r /\
        MatchesPath m (filepath.ToSlash r) = true
  | StageBinary =>
      NoBinaryCheck (config p) = false /\
      exists file buffer,
        os_Open path = Some file /\ Read 1024 file = Some buffer /\ In nul buffer
  end.

(** The marks of the checks that stages 1 to 3 leave in the log. *)
Definition skip_marks (p : FileProcessor) (path : string) : list event :=
  map (fun st => EvCheck st path)
    (evaluated p path [StageExclude; StageCustomIgnore; StageGitignore]).

(** The system calls of stage 3 on [path]: the [os.Stat] of its absolute
    path, and the load of the .gitignore of a directory on the way up
    from where the ascent starts. *)
Definition git_call (path : string) (e : event) : Prop :=
  exists a,
    filepath.Abs Getwd path = Some a /\
    (e = EvStat a \/
     exists dir, on_chain (start_dir a) dir /\
                 e = EvLoadIgnore (filepath.Join dir ".gitignore")).

(** The open of stage 4, when the stage is reached and enabled. *)
Definition binary_calls (p : FileProcessor) (path : string) : list event :=
  if negb (skip_spec p path) && negb (NoBinaryCheck (config p))
  then [EvCheck StageBinary path; EvOpen path]
  else [].

(** *** The tree under a candidate *)

Fixpoint entries_paths (paths_of : string -> node -> list string)
    (path : string) (dirs : list (string * node)) : list string :=
  match dirs with
  | [] => []
  | (name, d1) :: dirs' =>
      paths_of (filepath.Join path name) d1 ++ entries_paths paths_of path dirs'
  end.

(** The paths [walkDir] gives to the nodes of a tree, the root first. *)
Fixpoint tree_paths (path : string) (d : node) : list string :=
  path ::
  match d with
  | Dir _ entries => entries_paths tree_paths path entries
  | _ => []
  end.

(** The paths a log reads: the directories listed and the files opened
    for their content. *)
Definition reads_of (evs : list event) : list string :=
  flat_map (fun e => match e with
                     | EvReadDir path _ => [path]
                     | EvOpen path => [path]
                     | _ => []
                     end) evs.

(** The paths about which a log asks the filter. *)
Definition tested_of (evs : list event) : list string :=
  flat_map (fun e => match e with
                     | EvCheck _ path => [path]
                     | _ => []
                     end) evs.

(** Every load of a .gitignore in the log belongs to a stage-3 test
    that the log records: it is the file of a directory on the way up
    from where the ascent for the tested path starts. *)
Definition loads_explained (evs : list event) : Prop :=
  forall g, In (EvLoadIgnore g) evs ->
    exists t a dir,
      In (EvCheck StageGitignore t) evs /\
      filepath.Abs Getwd t = Some a /\
      on_chain (start_dir a) dir /\
      g = filepath.Join dir ".gitignore".

Definition explains (s s' : state) : Prop :=
  exists evs, log s' = log s ++ evs /\ loads_explained evs.

(** The paths a walk touches: the files it adds and the paths it reads. *)
Definition touched (o : outcome) : list string :=
  out_files o ++ reads_of (out_trace o).

(** The directories a log failed to list. *)
Definition failed_reads (evs : list event) : list string :=
  flat_map (fun e => match e with
                     | EvReadDir path false => [path]
                     | _ => []
                     end) evs.

(** The diagnostics of a log. *)
Definition warnings_of (evs : list event) : list warning :=
  flat_map (fun e => match e with
                     | EvWarn w => [w]
                     | _ => []
                     end) evs.

(** A log without a failed listing and without a diagnostic. *)
Definition clean_trace (evs : list event) : Prop :=
  failed_reads evs = [] /\ warnings_of evs = [].

(** A log that is clean up to its last event, the failed listing of
    [dir]. *)
Definition aborted_trace (evs : list event) (dir : string) : Prop :=
  exists pre, evs = pre ++ [EvReadDir dir false] /\ clean_trace pre.

(** How a walk ends: without an error and with a clean log, or with the
    error of a directory it could not list, whose failed listing is the
    last event of a log that is clean before it. *)
Definition walk_shape (o : outcome) : Prop :=
  match out_err o with
  | None => clean_trace (out_trace o)
  | Some e => exists dir, e = OsError dir /\ aborted_trace (out_trace o) dir
  end.

(** [descends path d path' d']: the node [d'] at [path'] lies below the
    node [d] at [path], at any depth of one or more. *)
Inductive descends : string -> node -> string -> node -> Prop :=
| descends_entry path perm entries name d1 :
    In (name, d1) entries ->
    descends path (Dir perm entries) (filepath.Join path name) d1
| descends_deeper path perm entries name d1 path' d' :
    In (name, d1) entries ->
    descends (filepath.Join path name) d1 path' d' ->
    descends path (Dir perm entries) path' d'.

End Code.

(* ------------------------------------------------------------------ *)
(** ** The formatter, the template, the inputs and the output *)
(* ------------------------------------------------------------------ *)

(** *** [internal/processor/formatter.go] *)

Section FormatterCode.
Context `{Env}.

(** [Formatter] applies a template to a file's content and metadata. *)
Record Formatter : Type := {
  template : string
}.

(** [NewFormatter] creates a new formatter with a given template; its
    error is always [nil]. *)
Definition NewFormatter (template : string) : Formatter :=
  {| template := template |}.

(** The arguments of [strings.NewReplacer] in [Format]. *)
Definition placeholders (content path : string) : list (string * string) :=
  (* Get relative path for output consistency *)
  let relPath :=
    match filepath.Rel "." path with
    | Some r => r
    | None => path (* Fallback to original path *)
    end in
  let relPath := filepath.ToSlash relPath in
  let absPath :=
    match filepath.Abs Getwd path with
    | Some a => a
    | None => path (* Fallback to original path *)
    end in
  let absPath := filepath.ToSlash absPath in
  let base := filepath.Base relPath in
  let ext := filepath.Ext base in
  let filename := TrimSuffix base ext in
  let ext :=
    match ext with
    | String _ ext' => ext' (* Remove the leading dot *)
    | EmptyString => ext
    end in
  [ ("{content}", content);
    ("{path}", relPath);
    ("{abspath}", absPath);
    ("{basename}", base);
    ("{filename}", filename);
    ("{extension}", ext) ].

(** [Format] reads a file and applies the loaded template; [None] is
    the error of [os.ReadFile]. *)
Definition Format (f : Formatter) (path : string) : option string :=
  match os_ReadFile path with
  | None => None
  | Some contentBytes =>
      let content := string_of_list_byte contentBytes in
      Some (Replace (placeholders content path) (template f))
  end.

End FormatterCode.

(** *** [internal/config]: the template to use *)

Definition nl : string := String LF EmptyString.

(** [DefaultTemplate] is used when no other template is found. *)
Definition DefaultTemplate : string :=
  "=== File Start: {path} ===" +:+ nl +:+
  "```{extension}" +:+ nl +:+
  "{content}" +:+ nl +:+
  "```" +:+ nl +:+
  "=== File End: {path} ===" +:+ nl +:+ nl.

Definition templateFileName : string := ".contextgrep.template.txt".

Section ConfigCode.
Context `{Env}.
(** [os.UserHomeDir]; [None] when it fails. *)
Variable UserHomeDir : option string.

(** [LoadTemplate] finds and returns the template string to use based on
    precedence: command-line flag > local file > home dir file >
    default.  Its error is always [nil]. *)
Definition LoadTemplate (cliTemplate : string) : string :=
  if negb (String.eqb cliTemplate "") then cliTemplate
  else
    (* Check current working directory *)
    let local :=
      match Getwd with
      | Some cwd => os_ReadFile (filepath.Join cwd templateFileName)
      | None => None
      end in
    match local with
    | Some content => string_of_list_byte content
    | None =>
        (* Check home directory *)
        match UserHomeDir with
        | Some homeDir =>
            match os_ReadFile (filepath.Join homeDir templateFileName) with
            | Some content => string_of_list_byte content
            | None =>
                (* Check .config directory in home *)
                match os_ReadFile
                        (filepath.JoinElems [homeDir; ".config"; "contextgrep"; "template.txt"])
                with
                | Some content => string_of_list_byte content
                | None => DefaultTemplate
                end
            end
        | None => DefaultTemplate
        end
    end.

End ConfigCode.

(** *** [internal/walker/input.go] *)

(** The standard input of the process: closed, so that [os.Stdin.Stat]
    fails; a terminal (a character device); or anything else, with the
    lines its [bufio.Scanner] yields and whether [scanner.Err] is set
    at the end. *)
Inductive Stdin : Type :=
| StdinClosed
| StdinTerminal
| StdinPiped (lines : list string) (scanErr : bool).

(** How a call ends: with a value, with an error, or in a panic. *)
Inductive result (A : Type) : Type :=
| Returns (a : A)
| Fails
| Panics.
Arguments Returns {A} a.
Arguments Fails {A}.
Arguments Panics {A}.

(** The loop over the lines of the scanner. *)
Fixpoint scan_paths (lines paths : list string) : list string :=
  match lines with
  | [] => paths
  | text :: lines' =>
      let line := TrimSpace text in
      if negb (String.eqb line "") then scan_paths lines' (paths ++ [line])
      else scan_paths lines' paths
  end.

(** [GetInputPaths] returns a list of paths from command line arguments
    or stdin.  The error of [os.Stdin.Stat] is dropped, and [stat] is
    [nil] when there is one: [stat.Mode()] panics. *)
Definition GetInputPaths (stdin : Stdin) (args : list string)
  : result (list string) :=
  if Nat.ltb 0 (length args) then Returns args
  else
    (* If no args, read from stdin *)
    match stdin with
    | StdinClosed => Panics
    | StdinPiped lines scanErr =>
        let paths := scan_paths lines [] in
        if scanErr then Fails else Returns paths
    | StdinTerminal =>
        (* No args and no pipe, default to current directory *)
        Returns ["."]
    end.

(** *** [internal/cmd/root.go], step 7: format and write each file *)

(** The [bufio.Writer] of the output: the strings it has taken without
    an error, one after the other, and the error that sticks to it once
    a write has failed.  Of a string that it refuses a part may have
    reached the output; [taken] leaves it out. *)
Record Writer : Type := {
  taken : string;
  stuck : bool
}.

Section OutputCode.
Context `{Env}.
(** Whether the writer, having taken [taken], takes [chunk] without an
    error. *)
Variable accepts : string -> string -> bool.

(** [writer.WriteString(s)] and [writer.WriteRune(r)]: the new writer,
    and [true] for a [nil] error. *)
Definition WriteString (w : Writer) (s : string) : Writer * bool :=
  if stuck w then (w, false)
  else if accepts (taken w) s
       then ({| taken := taken w +:+ s; stuck := false |}, true)
       else ({| taken := taken w; stuck := true |}, false).

(** The loop [for i, file := range files] of [RunE]: the writer at the
    end, the files reported on [os.Stderr] with [Error processing file],
    and whether the loop returned the error [failed to write to
    output].  [i < len(files)-1] is [rest] not being empty. *)
Fixpoint writeFiles (formatter : Formatter) (files : list string) (writer : Writer)
  : Writer * list string * bool :=
  match files with
  | [] => (writer, [], false)
  | file :: rest =>
      match Format formatter file with
      | None =>
          (* Log error to stderr and continue with other files *)
          let '(writer', reported, err) := writeFiles formatter rest writer in
          (writer', file :: reported, err)
      | Some formattedOutput =>
          let '(writer1, ok) := WriteString writer formattedOutput in
          if negb ok then (writer1, [], true)
          else
            (* Add a newline between files if the template doesn't end
               with one and it's not the last file. *)
            let writer2 :=
              if Nat.ltb 0 (String.length formattedOutput) &&
                 negb (match last_byte formattedOutput with
                       | Some c => Ascii.eqb c LF
                       | None => false
                       end) &&
                 Nat.ltb 0 (length rest)
              then fst (WriteString writer1 nl)
              else writer1 in
            writeFiles formatter rest writer2
      end
  end.

End OutputCode.

(** The outputs of the files that [Format] can read, and the files it
    cannot. *)
Definition formatted `{Env} (formatter : Formatter) (files : list string)
  : list string :=
  flat_map (fun file => match Format formatter file with
                        | Some out => [out]
                        | None => []
                        end) files.

Definition unreadable `{Env} (files : list string) : list string :=
  flat_map (fun file => match os_ReadFile file with
                        | Some _ => []
                        | None => [file]
                        end) files.

(** *** Templates as segments *)

(** The six placeholders of [Format]. *)
Inductive placeholder : Type :=
| PhContent
| PhPath
| PhAbsPath
| PhBasename
| PhFilename
| PhExtension.

Definition key (ph : placeholder) : string :=
  match ph with
  | PhContent => "{content}"
  | PhPath => "{path}"
  | PhAbsPath => "{abspath}"
  | PhBasename => "{basename}"
  | PhFilename => "{filename}"
  | PhExtension => "{extension}"
  end.

(** A template cut into literal text and placeholders. *)
Inductive segment : Type :=
| Lit (text : string)
| Hole (ph : placeholder).

Definition segment_text (sg : segment) : string :=
  match sg with
  | Lit text => text
  | Hole ph => key ph
  end.

Definition template_text (segs : list segment) : string :=
  concat_all (map segment_text segs).

(** The value a list of pairs gives to a placeholder. *)
Fixpoint value_of (oldnew : list (string * string)) (k : string) : string :=
  match oldnew with
  | [] => k
  | (old, new) :: oldnew' => if String.eqb old k then new else value_of oldnew' k
  end.

Definition fill (oldnew : list (string * string)) (sg : segment) : string :=
  match sg with
  | Lit text => text
  | Hole ph => value_of oldnew (key ph)
  end.

(** *** [npm/install.js]: the archive to download *)

(** The values that reading a property of an object literal of strings
    gives: a string of the literal, what the object inherits under a
    name of [Object.prototype] (a function, or the prototype itself
    for [__proto__]), or [undefined]. *)
Inductive js_value : Type :=
| JsString (s : string)
| JsInherited (name : string)
| JsUndefined.

(** The names every object literal inherits from [Object.prototype]. *)
Definition Object_prototype : list string :=
  [ "constructor"; "__defineGetter__"; "__defineSetter__"; "hasOwnProperty";
    "__lookupGetter__"; "__lookupSetter__"; "isPrototypeOf";
    "propertyIsEnumerable"; "toString"; "valueOf"; "__proto__"; "toLocaleString" ].

Definition inherited (key : string) : bool :=
  existsb (String.eqb key) Object_prototype.

(** [obj[key]] for an object literal with the own properties [own]: an
    own property first, then the prototype. *)
Definition js_get (own : gmap string string) (key : string) : js_value :=
  match own !! key with
  | Some v => JsString v
  | None => if inherited key then JsInherited key else JsUndefined
  end.

(** What [!v] negates: the empty string and [undefined] are falsy,
    functions and objects are truthy. *)
Definition truthy (v : js_value) : bool :=
  match v with
  | JsString s => negb (String.eqb s "")
  | JsInherited _ => true
  | JsUndefined => false
  end.

(** The object literals of [getPlatformMapping], keyed by the values of
    [process.platform] and [process.arch]. *)
Definition platformMap : gmap string string :=
  <["darwin" := "Darwin"]> (<["linux" := "Linux"]> (<["win32" := "Windows"]> ∅)).

Definition archMap : gmap string string :=
  <["x64" := "x86_64"]> (<["arm64" := "arm64"]> (<["ia32" := "i386"]> ∅)).

(** [getPlatformMapping()], for the platform and the architecture of the
    process; [None] is the [Error] it throws when one of the two
    lookups gives a falsy value. *)
Definition getPlatformMapping (platform arch : string) : option (js_value * js_value) :=
  if negb (truthy (js_get platformMap platform)) || negb (truthy (js_get archMap arch))
  then None
  else Some (js_get platformMap platform, js_get archMap arch).

(** The [fileName] and the [url] of [downloadAndExtract], for a mapping
    of two strings. *)
Definition fileName (os arch : string) : string :=
  let isWindows := String.eqb os "Windows" in
  let extension := if isWindows then "zip" else "tar.gz" in
  "ctxcat_" +:+ os +:+ "_" +:+ arch +:+ "." +:+ extension.

Definition url (version fileName : string) : string :=
  "https://github.com/Jawkx/ctxcat/releases/download/v" +:+ version +:+ "/" +:+ fileName.

Section CoverageDefs.
Context `{Env}.

(** The paths [walkDir] gives to the nodes of a tree that are not
    directories: the regular files and the symbolic links. *)
Fixpoint file_paths (path : string) (d : node) : list string :=
  match d with
  | Dir _ entries => entries_paths file_paths path entries
  | _ => [path]
  end.

(** The paths a walk from [top] keeps when every directory can be
    listed: the regular files and the symbolic links that pass the
    filter, in the order of the listings, outside the directories below
    [top] that stages 1 to 3 exclude. *)
Fixpoint kept (p : FileProcessor) (top path : string) (d : node) : list string :=
  match d with
  | Dir _ entries =>
      if negb (String.eqb path top) && skip_spec p path then []
      else entries_paths (kept p top) path entries
  | _ => if include_spec p path then [path] else []
  end.

(** [keeps R m]: whenever [m] returns, the states before and after are
    related by [R]. *)
Definition keeps (R : state -> state -> Prop) {A} (m : M A) : Prop :=
  forall s a s', m s = Some (a, s') -> R s s'.

(** The .gitignore files a log loads. *)
Definition loads (evs : list event) : list string :=
  flat_map (fun e => match e with
                     | EvLoadIgnore g => [g]
                     | _ => []
                     end) evs.

(** From [s] to [s'], the cache got the directories [dirs], each a new
    one, and the .gitignore files loaded are theirs, one load each. *)
Definition loaded_once (s s' : state) : Prop :=
  exists dirs evs,
    NoDup dirs /\
    (forall d, d ∈ dirs -> ignoreMatcherCache s !! d = None) /\
    dom (ignoreMatcherCache s') = dom (ignoreMatcherCache s) ∪ list_to_set dirs /\
    log s' = log s ++ evs /\
    loads evs = map (fun d => filepath.Join d ".gitignore") dirs.

(** From [s] to [s'], the cache is untouched and nothing is loaded. *)
Definition nothing_loaded (s s' : state) : Prop :=
  ignoreMatcherCache s' = ignoreMatcherCache s /\
  exists evs, log s' = log s ++ evs /\ loads evs = [].

End CoverageDefs.

(** No dot and no separator. *)
Definition plain (c : ascii) : Prop := c <> "."%char /\ c <> filepath.Separator.

(** Every old string starts with a brace. *)
Definition braced (oldnew : list (string * string)) : Prop :=
  List.Forall (fun on => exists k, fst on = String "{" k) oldnew.

(** No old string is empty or has the byte [c]. *)
Definition without (c : ascii) (oldnew : list (string * string)) : Prop :=
  List.Forall (fun on => fst on <> "" /\ has_byte c (fst on) = false) oldnew.

Section StricterDefs.
Context `{Env}.

(** [p'] excludes what [p] excludes: a path that stages 1 to 3 exclude
    for [p] they exclude for [p'], and a path that passes the filter of
    [p'] passes that of [p]. *)
Definition stricter (p' p : FileProcessor) : Prop :=
  forall path,
    (skip_spec p path = true -> skip_spec p' path = true) /\
    (include_spec p' path = true -> include_spec p path = true).


End StricterDefs.

(** A name in a cleaned path: not empty, not [.] or [..], without a
    separator. *)
Definition name_element (c : string) : Prop :=
  c <> "" /\ c <> "." /\ c <> ".." /\ has_byte filepath.Separator c = false.

(** The stack of [clean_comps] while it cleans, last element first:
    names on top of the [..] elements that start a relative path. *)
Inductive stack_ok (rooted : bool) : list string -> Prop :=
| stack_nil : stack_ok rooted []
| stack_dotdot stack :
    rooted = false -> List.Forall (eq "..") stack -> stack_ok rooted (".." :: stack)
| stack_name c stack :
    name_element c -> stack_ok rooted stack -> stack_ok rooted (c :: stack).

(** The elements of a cleaned path. *)
Definition cleaned (rooted : bool) (cs : list string) : Prop :=
  stack_ok rooted (rev cs).

(* ------------------------------------------------------------------ *)
(** ** A concrete environment *)
(* ------------------------------------------------------------------ *)

Module Demo.

(** A glob without metacharacters matches the one name it spells. *)
Definition demo_PathMatch (pattern name : string) : option bool :=
  Some (String.eqb pattern name).

(** An ignore line that is a plain name matches every path that has an
    element of that name; blank lines and comments match nothing. *)
Definition demo_line_matches (path line : string) : bool :=
  negb (String.eqb line "") && negb (String.prefix "#" line) &&
  existsb (String.eqb line) (split_on filepath.Separator path).

Definition demo_MatchesPath (lines : list string) (path : string) : bool :=
  existsb (demo_line_matches path) lines.

Definition text (s : string) : list byte := list_byte_of_string s.

(** The tree under [/work], the working directory.  In [lk] there are
    a link that leads nowhere and a link to a directory. *)
Definition demo_work : node :=
  Dir true
    [ ("lk", Dir true
        [ ("broken", Link None);
          ("linkdir", Link (Some (Dir true [ ("in.txt", File true (text "in")) ])));
          ("real.txt", File true (text "real")) ]);
      ("nr", Dir true
        [ ("sub", Dir true
            [ ("deep", Dir true [ ("low.txt", File true (text "low")) ]);
              ("mid.txt", File true (text "mid")) ]);
          ("top.txt", File true (text "top")) ]);
      ("patterns.ignore", File true (text "a.txt"));
      ("proj", Dir true
        [ (".gitignore", File true (text "dist"));
          ("a.txt", File true (text "hello"));
          ("bin.dat", File true [x62; x00; x63]);
          ("dist", Dir true
            [ (".gitignore", File true (text "*.map"));
              ("bundle.js", File true (text "js")) ]);
          ("locked", Dir false [ ("secret.txt", File true (text "s")) ]);
          ("z.txt", File true (text "zed")) ]);
      ("rd", Dir true
        [ ("ok.txt", File true (text "ok"));
          ("sealed.txt", File false [x73; x00; x74]);
          ("z.txt", File true (text "zed")) ]) ].

Definition demo_fs : node := Dir true [ ("work", demo_work) ].

Definition demo_cwd : option (list string) := Some ["work"].

(** What a path names in [demo_fs], from the working directory. *)
Definition demo_lstat (path : string) : option node :=
  match filepath.Abs (Some "/work") path with
  | Some a => lookup_node demo_fs (filepath.comps a)
  | None => None
  end.

(** A pattern [dir/*] expands to the entries of [dir]; a path without
    metacharacters expands to itself when it exists. *)
Definition demo_FilepathGlob (pattern : string) : option (list string) :=
  if HasSuffix pattern "/*" then
    let dir := TrimSuffix pattern "/*" in
    match demo_lstat dir with
    | Some n =>
        match follow n with
        | Some (Dir true entries) =>
            Some (map (fun e => filepath.Join dir (fst e)) entries)
        | _ => Some []
        end
    | None => Some []
    end
  else
    match demo_lstat pattern with
    | Some _ => Some [pattern]
    | None => Some []
    end.

(** The keys in ascending order at one [range], in descending order at
    the next. *)
Definition demo_range_order (n : nat) (keys : gset string) : list string :=
  if Nat.even n then elements keys else rev (elements keys).

Lemma demo_range_order_perm n keys : demo_range_order n keys ≡ₚ elements keys.
Proof.
  unfold demo_range_order. destruct (Nat.even n); [reflexivity |].
  symmetry. apply Permutation_rev.
Qed.

Definition demo_env : Env := {|
  Matcher := list string;
  CompileIgnoreLines := fun lines => lines;
  MatchesPath := demo_MatchesPath;
  PathMatch := demo_PathMatch;
  FilepathGlob := demo_FilepathGlob;
  fs := demo_fs;
  fs_sorted := eq_refl;
  cwd := demo_cwd;
  range_order := demo_range_order;
  range_order_perm := demo_range_order_perm
|}.

Definition cfg_default : Config := {|
  NoRecursive := false;
  NoGitignore := false;
  IgnoreFiles := [];
  ExcludeGlobs := [];
  NoBinaryCheck := false
|}.

Definition cfg_no_recursive : Config := {|
  NoRecursive := true;
  NoGitignore := false;
  IgnoreFiles := [];
  ExcludeGlobs := [];
  NoBinaryCheck := false
|}.

Definition cfg_exclude_locked : Config := {|
  NoRecursive := false;
  NoGitignore := false;
  IgnoreFiles := [];
  ExcludeGlobs := ["proj/locked"];
  NoBinaryCheck := false
|}.

Definition cfg_custom_ignore : Config := {|
  NoRecursive := false;
  NoGitignore := false;
  IgnoreFiles := ["patterns.ignore"];
  ExcludeGlobs := [];
  NoBinaryCheck := false
|}.

Definition cfg_no_gitignore : Config := {|
  NoRecursive := false;
  NoGitignore := true;
  IgnoreFiles := [];
  ExcludeGlobs := [];
  NoBinaryCheck := false
|}.

(** Every stage has something to exclude under [proj]: the glob
    [proj/z.txt], the line [a.txt] of the ignore file, the .gitignore
    of [proj] with the line [dist], and the zero byte of
    [proj/bin.dat]. *)
Definition cfg_all_stages : Config := {|
  NoRecursive := false;
  NoGitignore := false;
  IgnoreFiles := ["patterns.ignore"];
  ExcludeGlobs := ["proj/z.txt"];
  NoBinaryCheck := false
|}.

(** The processors [New] makes of them. *)
Definition proc_default : FileProcessor := @New_spec demo_env cfg_default.
Definition proc_all_stages : FileProcessor := @New_spec demo_env cfg_all_stages.
Definition proc_no_gitignore : FileProcessor := @New_spec demo_env cfg_no_gitignore.
Definition proc_custom_ignore : FileProcessor := @New_spec demo_env cfg_custom_ignore.
Definition proc_exclude_locked : FileProcessor := @New_spec demo_env cfg_exclude_locked.

(** The subtrees at [proj] and at [nr]. *)
Definition demo_proj : node :=
  match @os_Lstat demo_env "proj" with
  | Some d => d
  | None => File false []
  end.

Definition demo_nr : node :=
  match @os_Lstat demo_env "nr" with
  | Some d => d
  | None => File false []
  end.

Definition demo_sub : list (string * node) :=
  [ ("deep", Dir true [ ("low.txt", File true (text "low")) ]);
    ("mid.txt", File true (text "mid")) ].

(** The sorted files of a run from the initial state, and its log. *)
Definition run (cfg : Config) (paths : list string)
  : option (list string * list event) :=
  match @resolvePaths demo_env cfg paths (@initial demo_env) with
  | Some (files, s) => Some (files, @log demo_env s)
  | None => None
  end.

End Demo.

(** A working directory with an empty template file. *)
Module Quiet.

Definition quiet_fs : node :=
  Dir true
    [ ("work", Dir true
        [ (".contextgrep.template.txt", File true []);
          ("a.txt", File true (Demo.text "hello"));
          ("b.txt", File false (Demo.text "sealed")) ]) ].

Definition quiet_env : Env := {|
  Matcher := list string;
  CompileIgnoreLines := fun lines => lines;
  MatchesPath := Demo.demo_MatchesPath;
  PathMatch := Demo.demo_PathMatch;
  FilepathGlob := fun _ => Some [];
  fs := quiet_fs;
  fs_sorted := eq_refl;
  cwd := Some ["work"];
  range_order := fun _ keys => elements keys;
  range_order_perm := fun _ keys => Permutation_refl (elements keys)
|}.

End Quiet.

(** A writer that takes everything, and one with room for [n] bytes. *)
Definition takes_all (taken chunk : string) : bool := true.


(** The writer before its first write. *)
Definition fresh_writer : Writer := {| taken := ""; stuck := false |}.

(** Two more configurations for [Demo]: the directory [nr/sub]
    excluded, and [proj/locked] excluded without the binary check. *)
Definition cfg_exclude_sub : Config := {|
  NoRecursive := false;
  NoGitignore := false;
  IgnoreFiles := [];
  ExcludeGlobs := ["nr/sub"];
  NoBinaryCheck := false
|}.


(* ------------------------------------------------------------------ *)
(** ** Paths: the ascent to the root is finite *)
(* ------------------------------------------------------------------ *)

Section PathFacts.
Import filepath.

Lemma weight_app cs1 cs2 : weight (cs1 ++ cs2) = weight cs1 + weight cs2.
Proof. induction cs1 as [|c cs1 IH]; simpl; [reflexivity | rewrite IH; lia]. Qed.

Lemma weight_rev cs : weight (rev cs) = weight cs.
Proof.
  induction cs as [|c cs IH]; simpl; [reflexivity |].
  rewrite weight_app, IH. simpl. lia.
Qed.

Lemma split_on_nonempty sep s : split_on sep s <> [].
Proof.
  destruct s as [|c s]; simpl; [discriminate |].
  destruct (Ascii.eqb c sep); [discriminate |].
  destruct (split_on sep s); discriminate.
Qed.

Lemma split_on_weight sep s : weight (split_on sep s) = S (String.length s).
Proof.
  induction s as [|c s IH]; simpl; [reflexivity |].
  destruct (Ascii.eqb c sep); simpl; [rewrite IH; reflexivity |].
  destruct (split_on sep s) as [|x xs] eqn:E.
  - exfalso. eapply split_on_nonempty; eauto.
  - simpl in *. lia.
Qed.

Lemma weight_removelast cs : cs <> [] -> weight (removelast cs) < weight cs.
Proof.
  induction cs as [|c cs IH]; intros Hne; [congruence |].
  destruct cs as [|c' cs']; simpl in *; [lia |].
  assert (c' :: cs' <> []) as Hne' by discriminate.
  specialize (IH Hne'). simpl in IH. lia.
Qed.

Lemma clean_comps_weight rooted stack cs :
  weight (clean_comps rooted stack cs) <= weight stack + weight cs.
Proof.
  revert stack. induction cs as [|c cs IH]; intros stack; simpl.
  - rewrite weight_rev. lia.
  - destruct (String.eqb c "" || String.eqb c ".").
    + specialize (IH stack). lia.
    + destruct (String.eqb c "..").
      * destruct stack as [|top stack'].
        -- destruct rooted; [specialize (IH []) | specialize (IH [c])]; simpl in *; lia.
        -- destruct (String.eqb top "..");
             [specialize (IH (c :: top :: stack')) | specialize (IH stack')];
             simpl in *; lia.
      * specialize (IH (c :: stack)). simpl in *. lia.
Qed.

Lemma string_length_app (a b : string) :
  String.length (a +:+ b) = String.length a + String.length b.
Proof. induction a as [|c a IH]; simpl; [reflexivity | rewrite IH; reflexivity]. Qed.

Lemma concat_slash_length cs :
  cs <> [] -> S (String.length (String.concat "/" cs)) = weight cs.
Proof.
  induction cs as [|c cs IH]; intros Hne; [congruence |].
  destruct cs as [|c' cs'].
  - simpl. lia.
  - assert (c' :: cs' <> []) as Hne' by discriminate.
    specialize (IH Hne').
    change (String.concat "/" (c :: c' :: cs'))
      with (c +:+ "/" +:+ String.concat "/" (c' :: cs')).
    rewrite !string_length_app. simpl in *. lia.
Qed.

Lemma render_rooted_length cs :
  String.length (render true cs) = Nat.max 1 (weight cs).
Proof.
  destruct cs as [|c cs]; [reflexivity |].
  unfold render. cbn [String.length].
  rewrite concat_slash_length by discriminate. simpl. lia.
Qed.

Lemma IsAbs_inv p : IsAbs p = true -> exists p', p = String Separator p'.
Proof.
  destruct p as [|c p']; simpl; [discriminate |].
  intros Hc. apply Ascii.eqb_eq in Hc. subst. eauto.
Qed.

Lemma Dir_rooted p : IsAbs p = true -> IsAbs (Dir p) = true.
Proof. intros Hp. unfold Dir. rewrite Hp. reflexivity. Qed.

(** The parent of a rooted path is the path itself or is shorter. *)
Lemma Dir_shrinks p :
  IsAbs p = true -> Dir p = p \/ String.length (Dir p) < String.length p.
Proof.
  intros Hp. destruct (IsAbs_inv p Hp) as [p' ->].
  unfold Dir. rewrite Hp.
  pose proof (split_on_weight Separator (String Separator p')) as Hw.
  pose proof (split_on_nonempty Separator p') as Hne.
  cbn [split_on] in *. rewrite Ascii.eqb_refl in *.
  destruct (split_on Separator p') as [|x xs] eqn:E; [congruence |].
  change (removelast ("" :: x :: xs)) with ("" :: removelast (x :: xs)).
  cbn [clean_comps String.eqb orb].
  pose proof (weight_removelast (x :: xs) Hne) as Hlt.
  pose proof (clean_comps_weight true [] (removelast (x :: xs))) as Hle.
  rewrite render_rooted_length.
  cbn [weight String.length] in *.
  destruct (clean_comps true [] (removelast (x :: xs))) as [|y ys] eqn:Ec.
  - destruct p' as [|c p'']; [left; reflexivity | right; simpl; lia].
  - right. simpl in *. lia.
Qed.

(** The only rooted path that is its own parent is the root. *)
Lemma Dir_fixpoint p : IsAbs p = true -> Dir p = p -> p = "/".
Proof.
  intros Hp Hfix. destruct (IsAbs_inv p Hp) as [p' ->].
  revert Hfix. unfold Dir. rewrite Hp.
  pose proof (split_on_weight Separator (String Separator p')) as Hw.
  pose proof (split_on_nonempty Separator p') as Hne.
  cbn [split_on] in *. rewrite Ascii.eqb_refl in *.
  destruct (split_on Separator p') as [|x xs] eqn:E; [congruence |].
  change (removelast ("" :: x :: xs)) with ("" :: removelast (x :: xs)).
  cbn [clean_comps String.eqb orb].
  pose proof (weight_removelast (x :: xs) Hne) as Hlt.
  pose proof (clean_comps_weight true [] (removelast (x :: xs))) as Hle.
  intros Hfix.
  assert (String.length (render true (clean_comps true [] (removelast (x :: xs))))
          = String.length (String Separator p')) as Hlen by (rewrite Hfix; reflexivity).
  rewrite render_rooted_length in Hlen.
  cbn [weight String.length] in *.
  destruct (clean_comps true [] (removelast (x :: xs))) as [|y ys] eqn:Ec.
  - destruct p' as [|c p'']; [reflexivity | simpl in Hlen; lia].
  - simpl in *. lia.
Qed.

Lemma clean_comps_no_dotdot stack cs :
  Forall (fun c => c <> "..") stack ->
  Forall (fun c => c <> "..") (clean_comps true stack cs).
Proof.
  revert stack. induction cs as [|c cs IH]; intros stack Hst; simpl.
  - apply Forall_rev. exact Hst.
  - destruct (String.eqb c "" || String.eqb c "."); [auto |].
    destruct (String.eqb_spec c "..") as [->|Hc].
    + destruct stack as [|top stack']; [auto |].
      destruct (String.eqb_spec top "..") as [->|Ht].
      * exfalso. inversion Hst; congruence.
      * apply IH. inversion Hst; assumption.
    + apply IH. constructor; assumption.
Qed.

Lemma strip_common_Forall (P : string -> Prop) b t :
  Forall P b -> Forall P (fst (strip_common b t)).
Proof.
  revert t. induction b as [|x b IH]; intros t Hb; [destruct t; exact Hb |].
  destruct t as [|y t]; [exact Hb |]. simpl.
  destruct (String.eqb x y); [apply IH; inversion Hb; assumption | exact Hb].
Qed.

(** [Rel] succeeds between rooted paths. *)
Lemma Rel_rooted base targ :
  IsAbs base = true -> IsAbs targ = true -> exists r, Rel base targ = Some r.
Proof.
  intros Hb Ht. unfold Rel. rewrite Hb, Ht. simpl.
  assert (Forall (fun c => c <> "..") (comps base)) as Hc.
  { unfold comps. rewrite Hb. apply clean_comps_no_dotdot. constructor. }
  pose proof (strip_common_Forall _ (comps base) (comps targ) Hc) as HF.
  destruct (strip_common (comps base) (comps targ)) as [b t]. simpl in HF.
  destruct b as [|x b]; [eauto |].
  destruct (String.eqb_spec x "..") as [->|Hx]; [|eauto].
  exfalso. inversion HF; congruence.
Qed.

Lemma Clean_rooted p : IsAbs p = true -> IsAbs (Clean p) = true.
Proof. intros Hp. unfold Clean. rewrite Hp. reflexivity. Qed.

Lemma IsAbs_append p q : IsAbs p = true -> IsAbs (p +:+ q) = true.
Proof. destruct p; simpl; [discriminate | auto]. Qed.

Lemma Join_rooted a b : IsAbs a = true -> IsAbs (Join a b) = true.
Proof.
  intros Ha. unfold Join.
  destruct (String.eqb_spec a "") as [->|Hne]; [discriminate |].
  destruct (String.eqb b ""); apply Clean_rooted; [assumption |].
  apply IsAbs_append. assumption.
Qed.

Lemma Abs_rooted wd p a :
  (forall d, wd = Some d -> IsAbs d = true) -> Abs wd p = Some a -> IsAbs a = true.
Proof.
  intros Hwd. unfold Abs. destruct (IsAbs p) eqn:Hp.
  - intros [= <-]. apply Clean_rooted. assumption.
  - destruct wd as [d|]; [|discriminate].
    intros [= <-]. apply Join_rooted. auto.
Qed.

(** A relative path is its own cleaned form relative to the working
    directory; a rooted one cannot be made relative to it. *)
Lemma Rel_dot_relative path : IsAbs path = false -> Rel "." path = Some (Clean path).
Proof.
  intros Hp. unfold Rel, Clean. rewrite Hp. simpl.
  destruct (comps path); reflexivity.
Qed.

Lemma Rel_dot_rooted path : IsAbs path = true -> Rel "." path = None.
Proof. intros Hp. unfold Rel. rewrite Hp. reflexivity. Qed.

End PathFacts.

(* ------------------------------------------------------------------ *)
(** ** The code refines its stateless description *)
(* ------------------------------------------------------------------ *)

Section Sorting.

(** [string_le] is the order of the bytes: a proper prefix comes first,
    otherwise the first byte that differs decides. *)
Lemma string_le_lexicographic a b :
  string_le a b <-> a = b \/ OrderedTypeEx.String_as_OT.lt a b.
Proof.
  unfold string_le, String.leb.
  pose proof (OrderedTypeEx.String_as_OT.cmp_eq a b) as Heq.
  pose proof (OrderedTypeEx.String_as_OT.cmp_lt a b) as Hlt.
  unfold OrderedTypeEx.String_as_OT.cmp in *.
  destruct (String.compare a b).
  - split; [intros _; left; apply Heq; reflexivity | reflexivity].
  - split; [intros _; right; apply Hlt; reflexivity | reflexivity].
  - split; [discriminate |].
    intros [Hab | Hab]; [apply Heq in Hab | apply Hlt in Hab]; discriminate.
Qed.

Global Instance string_le_trans : Transitive string_le.
Proof.
  intros a b c. rewrite !string_le_lexicographic.
  intros [-> | Hab] [-> | Hbc]; auto.
  right. eapply OrderedTypeEx.String_as_OT.lt_trans; eassumption.
Qed.

Global Instance string_le_antisym : AntiSymm (=) string_le.
Proof. intros a b. unfold string_le. apply String.leb_antisym. Qed.

Lemma In_sort_Strings f l : In f (sort_Strings l) <-> In f l.
Proof.
  unfold sort_Strings. rewrite <- !list_elem_of_In.
  rewrite (merge_sort_Permutation string_le l). reflexivity.
Qed.

(** Sorting gives the same list in whatever order the result map is
    ranged over. *)
Lemma sort_Strings_order l1 l2 : l1 ≡ₚ l2 -> sort_Strings l1 = sort_Strings l2.
Proof.
  intros Hperm. unfold sort_Strings.
  apply (Sorted_unique string_le); try apply Sorted_merge_sort; try apply _.
  rewrite !merge_sort_Permutation. exact Hperm.
Qed.

End Sorting.

Section FileSystemFacts.
Context `{Env}.

(** Following links ends at a file or a directory. *)
Lemma follow_not_link n : forall m target, follow n = Some m -> m <> Link target.
Proof.
  induction n as [perm content | perm entries _ | target IH] using node_induction;
    intros m target'; cbn [follow].
  - intros [= <-]. discriminate.
  - intros [= <-]. discriminate.
  - destruct target as [t|]; [apply IH | discriminate].
Qed.

Lemma os_Stat_not_link path target : os_Stat path <> Some (Link target).
Proof.
  unfold os_Stat, resolve. destruct (os_Lstat path) as [n|]; [|discriminate].
  intros Hf. exact (follow_not_link n _ target Hf eq_refl).
Qed.

(** What [os.Stat] finds, [os.Lstat] leads to. *)
Lemma os_Stat_Lstat path info :
  os_Stat path = Some info -> exists d, os_Lstat path = Some d /\ follow d = Some info.
Proof.
  unfold os_Stat, resolve. destruct (os_Lstat path) as [n|]; [eauto | discriminate].
Qed.

(** A directory for [os.Lstat] is the same directory for [os.Stat]. *)
Lemma os_Lstat_dir path d :
  os_Lstat path = Some d -> IsDir d = true -> os_Stat path = Some d.
Proof.
  unfold os_Stat, resolve. intros -> Hdir. destruct d; try discriminate. reflexivity.
Qed.

End FileSystemFacts.

Section Refinement.
Context `{Env}.

Lemma cache_ok_initial : cache_ok initial.
Proof. intros dir v Hl. simpl in Hl. rewrite lookup_empty in Hl. discriminate. Qed.

Lemma refines_ret {A} (a : A) : refines (ret a) a [] [].
Proof.
  intros s Hok. exists s, []. split_and!; auto.
  - simpl. set_solver.
  - rewrite app_nil_r. reflexivity.
Qed.

Lemma refines_bind {A B} (m : M A) (k : A -> M B) a b f1 t1 f2 t2 :
  refines m a f1 t1 -> refines (k a) b f2 t2 ->
  refines (bind m k) b (f1 ++ f2) (t1 ++ t2).
Proof.
  intros Hm Hk s Hok.
  destruct (Hm s Hok) as (s1 & evs1 & Hrun1 & Hok1 & Hf1 & Hl1 & Ht1).
  destruct (Hk s1 Hok1) as (s2 & evs2 & Hrun2 & Hok2 & Hf2 & Hl2 & Ht2).
  exists s2, (evs1 ++ evs2). unfold bind. rewrite Hrun1. split_and!; auto.
  - rewrite Hf2, Hf1, list_to_set_app_L. set_solver.
  - rewrite Hl2, Hl1, app_assoc. reflexivity.
  - rewrite filter_app, Ht1, Ht2. reflexivity.
Qed.

Lemma refines_emit e : observable e = true -> refines (emit e) tt [] [e].
Proof.
  intros He s Hok. eexists _, [e]. unfold emit. split_and!; auto.
  - simpl. set_solver.
  - rewrite filter_cons_True by assumption. reflexivity.
Qed.

Lemma refines_emit_load path : refines (emit (EvLoadIgnore path)) tt [] [].
Proof.
  intros s Hok. eexists _, [EvLoadIgnore path]. unfold emit. split_and!; auto.
  simpl. set_solver.
Qed.

Lemma refines_final_add path : refines (final_add path) tt [path] [].
Proof.
  intros s Hok. eexists _, []. unfold final_add. split_and!; auto.
  - simpl. set_solver.
  - simpl. rewrite app_nil_r. reflexivity.
Qed.

Lemma refines_cache_put dir :
  refines (cache_put dir (matcher_at dir)) tt [] [].
Proof.
  intros s Hok. eexists _, []. unfold cache_put. split_and!; auto.
  - intros d v. simpl. rewrite lookup_insert. case_decide.
    + intros [= <-]. subst. reflexivity.
    + apply Hok.
  - simpl. set_solver.
  - simpl. rewrite app_nil_r. reflexivity.
Qed.

Lemma refines_step {A B} (m : M A) (k : A -> M B) a b f1 t1 f t f2 t2 :
  refines m a f1 t1 -> f = f1 ++ f2 -> t = t1 ++ t2 ->
  refines (k a) b f2 t2 -> refines (bind m k) b f t.
Proof. intros Hm -> -> Hk. eapply refines_bind; eassumption. Qed.

End Refinement.

(** One step of a computation: [tac] handles its first action, the rest
    of the description is left for what follows. *)
Ltac rstep tac :=
  eapply refines_step; [tac | reflexivity | reflexivity | cbv beta match].

Ltac remit := rstep ltac:(apply refines_emit; reflexivity).

Section RefinementOfTheCode.
Context `{Env}.

Lemma refines_getGitignoreMatcher dir :
  refines (getGitignoreMatcher dir) (matcher_at dir) [] [].
Proof.
  unfold getGitignoreMatcher. intros s Hok.
  assert (refines
    (emit (EvLoadIgnore (filepath.Join dir ".gitignore")) >>>
     cache_put dir (matcher_at dir) >>> ret (matcher_at dir))
    (matcher_at dir) [] []) as Hr.
  { rstep ltac:(apply refines_emit_load).
    rstep ltac:(apply refines_cache_put). apply refines_ret. }
  specialize (Hr s Hok). unfold bind at 1, cache_get.
  destruct (ignoreMatcherCache s !! dir) as [v|] eqn:Hc.
  - rewrite (Hok dir v Hc). apply refines_ret. assumption.
  - fold (matcher_at dir). unfold bind at 1 in Hr.
    destruct (matcher_at dir); exact Hr.
Qed.

Lemma Getwd_rooted d : Getwd = Some d -> filepath.IsAbs d = true.
Proof. unfold Getwd. destruct cwd; [intros [= <-]; reflexivity | discriminate]. Qed.

Lemma refines_ascend absPath fuel dir :
  filepath.IsAbs absPath = true -> filepath.IsAbs dir = true ->
  String.length dir < fuel ->
  refines (ascend fuel absPath dir)
    (existsb (rules_match absPath) (ancestors fuel dir)) [] [].
Proof.
  intros Habs. revert dir.
  induction fuel as [|fuel IH]; intros dir Hdir Hlen; [lia |].
  assert (refines
    (let parentDir := filepath.Dir dir in
     if String.eqb parentDir dir then ret false else ascend fuel absPath parentDir)
    (existsb (rules_match absPath)
       (if String.eqb (filepath.Dir dir) dir then [] else ancestors fuel (filepath.Dir dir)))
    [] []) as Hnext.
  { cbv zeta. destruct (String.eqb_spec (filepath.Dir dir) dir) as [Heq|Hne].
    - apply refines_ret.
    - apply IH; [apply Dir_rooted; assumption |].
      destruct (Dir_shrinks dir Hdir); [congruence | lia]. }
  cbn [ascend ancestors existsb].
  rstep ltac:(apply refines_getGitignoreMatcher).
  unfold rules_match at 1.
  destruct (Rel_rooted dir absPath Hdir Habs) as [r Hr]. rewrite Hr.
  destruct (matcher_at dir) as [m|]; [|exact Hnext].
  destruct (MatchesPath m (filepath.ToSlash r)); [apply refines_ret | exact Hnext].
Qed.

Lemma start_dir_rooted a : filepath.IsAbs a = true -> filepath.IsAbs (start_dir a) = true.
Proof.
  intros Ha. unfold start_dir. destruct (os_Stat a) as [info|]; [|assumption].
  destruct (negb (IsDir info)); [apply Dir_rooted|]; assumption.
Qed.

Lemma start_dir_length a :
  filepath.IsAbs a = true -> String.length (start_dir a) <= String.length a.
Proof.
  intros Ha. unfold start_dir. destruct (os_Stat a) as [info|]; [|lia].
  destruct (negb (IsDir info)); [|lia].
  destruct (Dir_shrinks a Ha) as [-> | ?]; lia.
Qed.

Lemma refines_isGitignored p path :
  refines (isGitignored p path) (gitignored p path) [] (gitignored_trace p path).
Proof.
  unfold isGitignored, gitignored, gitignored_trace.
  destruct (NoGitignore (config p)); [apply refines_ret |].
  destruct (filepath.Abs Getwd path) as [a|] eqn:Ha; [|apply refines_ret].
  assert (filepath.IsAbs a = true) as Hroot
    by (eapply Abs_rooted; [apply Getwd_rooted | exact Ha]).
  remit. fold (start_dir a). apply refines_ascend; auto using start_dir_rooted.
  pose proof (start_dir_length a Hroot). lia.
Qed.

Lemma refines_shouldSkipDir p path :
  refines (shouldSkipDir p path) (skip_spec p path) [] (skip_trace p path).
Proof.
  unfold shouldSkipDir, skip_spec, skip_trace, custom_ignored.
  remit.
  destruct (isExcluded p path); [apply refines_ret |]. cbn [orb].
  fold (custom_rel path).
  assert (forall b : bool, refines
    (if b then ret true
     else emit (EvCheck StageGitignore path) >>>
          (let* ignored := isGitignored p path in if ignored then ret true else ret false))
    (b || gitignored p path) []
    (if b then [] else EvCheck StageGitignore path :: gitignored_trace p path)) as Hrest.
  { intros [|]; [apply refines_ret |]. cbn [orb].
    remit.
    eapply refines_step;
      [apply refines_isGitignored | reflexivity | symmetry; apply app_nil_r |].
    destruct (gitignored p path); apply refines_ret. }
  destruct (customIgnoreMatcher p) as [m|].
  - rstep ltac:(remit; apply refines_ret). apply Hrest.
  - rstep ltac:(apply refines_ret). apply (Hrest false).
Qed.

Lemma refines_isBinary path :
  refines (isBinary path) (binary_file path) [] [EvOpen path].
Proof.
  unfold isBinary, binary_file.
  remit.
  destruct (os_Open path) as [file|]; [|apply refines_ret].
  destruct (Read 1024 file); apply refines_ret.
Qed.

Lemma refines_shouldInclude p path :
  refines (shouldInclude p path) (include_spec p path) [] (include_trace p path).
Proof.
  unfold shouldInclude, include_spec, include_trace, binary_spec.
  rstep ltac:(apply refines_shouldSkipDir).
  destruct (skip_spec p path); [apply refines_ret |]. cbn [negb andb].
  destruct (NoBinaryCheck (config p)); cbn [negb andb].
  - rstep ltac:(apply refines_ret). apply refines_ret.
  - rstep ltac:(remit; apply refines_isBinary).
    destruct (binary_file path); apply refines_ret.
Qed.

Lemma refines_walkFn_err p top path b e :
  refines (walkFn p top path b (Some e)) (Some e) [] [].
Proof. apply refines_ret. Qed.

Lemma refines_walkFn_file p top path :
  refines (walkFn p top path false None) None
    (if include_spec p path then [path] else []) (include_trace p path).
Proof.
  unfold walkFn.
  eapply refines_step;
    [apply refines_shouldInclude | reflexivity | symmetry; apply app_nil_r |].
  destruct (include_spec p path).
  - rstep ltac:(apply refines_final_add). apply refines_ret.
  - rstep ltac:(apply refines_ret). apply refines_ret.
Qed.

Lemma refines_walkFn_dir p top path :
  refines (walkFn p top path true None)
    (if negb (String.eqb path top) && skip_spec p path then Some SkipDir else None)
    [] (if negb (String.eqb path top) then skip_trace p path else []).
Proof.
  unfold walkFn. destruct (negb (String.eqb path top)); cbn [andb].
  - eapply refines_step;
      [apply refines_shouldSkipDir | reflexivity | symmetry; apply app_nil_r |].
    destruct (skip_spec p path); apply refines_ret.
  - rstep ltac:(apply refines_ret). apply refines_ret.
Qed.

Lemma walkDir_File fn path perm content :
  walkDir fn path (File perm content) =
  (let* err := fn path false None in
   match err with
   | Some e => if is_SkipDir e && false then ret None else ret (Some e)
   | None => ret None
   end).
Proof. reflexivity. Qed.

Lemma walkDir_Link fn path target :
  walkDir fn path (Link target) =
  (let* err := fn path false None in
   match err with
   | Some e => if is_SkipDir e && false then ret None else ret (Some e)
   | None => ret None
   end).
Proof. reflexivity. Qed.

Lemma walkDir_Dir fn path perm entries :
  walkDir fn path (Dir perm entries) =
  (let* err := fn path true None in
   match err with
   | Some e => if is_SkipDir e && true then ret None else ret (Some e)
   | None =>
       emit (EvReadDir path perm) >>>
       if perm then walkEntries (walkDir fn) path entries
       else
         let* err := fn path true (Some (OsError path)) in
         match err with
         | Some e => if is_SkipDir e then ret None else ret (Some e)
         | None => ret None
         end
   end).
Proof. reflexivity. Qed.

Lemma refines_walkEntries p top path dirs :
  Forall (fun e => forall path',
            let o := walk_spec p top path' (snd e) in
            refines (walkDir (walkFn p top) path' (snd e))
              (out_err o) (out_files o) (out_trace o)) dirs ->
  let o := entries_spec (walk_spec p top) path dirs in
  refines (walkEntries (walkDir (walkFn p top)) path dirs)
    (out_err o) (out_files o) (out_trace o).
Proof.
  induction 1 as [|[name d1] dirs Hd1 _ IH]; cbn [walkEntries entries_spec].
  - apply refines_ret.
  - cbn [snd] in Hd1. specialize (Hd1 (filepath.Join path name)). cbv zeta in *.
    destruct (out_err (walk_spec p top (filepath.Join path name) d1)) as [e|] eqn:He.
    + cbn [out_err out_files out_trace].
      eapply refines_step;
        [apply Hd1 | symmetry; apply app_nil_r
        | symmetry; apply app_nil_r |].
      cbv beta match. destruct (is_SkipDir e); apply refines_ret.
    + cbn [out_err out_files out_trace].
      rstep ltac:(apply Hd1). apply IH.
Qed.

(** The walk of the code is the walk of the description. *)
Lemma refines_walkDir p top d : forall path,
  let o := walk_spec p top path d in
  refines (walkDir (walkFn p top) path d) (out_err o) (out_files o) (out_trace o).
Proof.
  assert (forall path,
    refines (let* err := walkFn p top path false None in
             match err with
             | Some e => if is_SkipDir e && false then ret None else ret (Some e)
             | None => ret None
             end) None
      (if include_spec p path then [path] else []) (include_trace p path)) as Hleaf.
  { intros path.
    eapply refines_step;
      [apply refines_walkFn_file | symmetry; apply app_nil_r
      | symmetry; apply app_nil_r |].
    apply refines_ret. }
  induction d as [perm content | perm entries IH | target _] using node_induction;
    intros path.
  - cbv zeta. rewrite walkDir_File. cbn [walk_spec out_err out_files out_trace].
    apply Hleaf.
  - cbv zeta. rewrite walkDir_Dir. cbn [walk_spec].
    pose proof (refines_walkFn_dir p top path) as Hfn.
    pose proof (refines_walkEntries p top path entries IH) as Hes. cbv zeta in Hes.
    destruct (negb (String.eqb path top)); cbn [andb] in *.
    + destruct (skip_spec p path); cbn [out_err out_files out_trace].
      * eapply refines_step;
          [apply Hfn | reflexivity | symmetry; apply app_nil_r |].
        apply refines_ret.
      * destruct perm; cbn [out_err out_files out_trace].
        -- rewrite <- app_assoc. rstep ltac:(apply Hfn). remit. exact Hes.
        -- eapply refines_step; [apply Hfn | reflexivity | reflexivity |].
           remit. rstep ltac:(apply refines_walkFn_err). apply refines_ret.
    + destruct perm; cbn [out_err out_files out_trace].
      * rstep ltac:(apply Hfn). remit. exact Hes.
      * rstep ltac:(apply Hfn). remit.
        rstep ltac:(apply refines_walkFn_err). apply refines_ret.
  - cbv zeta. rewrite walkDir_Link. cbn [walk_spec out_err out_files out_trace].
    apply Hleaf.
Qed.

Lemma walk_spec_err p top d : forall path e,
  out_err (walk_spec p top path d) = Some e -> is_skip e = false.
Proof.
  induction d as [perm content | perm entries IH | target _] using node_induction;
    intros path e; cbn [walk_spec]; [discriminate | | discriminate].
  - destruct (negb (String.eqb path top) && skip_spec p path); [discriminate |].
    destruct perm; cbn [out_err]; [|intros [= <-]; reflexivity].
    induction IH as [|[name d1] dirs Hd1 _ IHdirs]; cbn [entries_spec];
      [discriminate |].
    cbn [snd] in Hd1.
    destruct (out_err (walk_spec p top (filepath.Join path name) d1)) as [e1|] eqn:He1;
      cbn [out_err]; [|exact IHdirs].
    specialize (Hd1 _ _ He1).
    destruct e1; cbn in *; try discriminate. intros [= <-]. reflexivity.
Qed.

Lemma root_spec_err p path e :
  out_err (root_spec p path) = Some e -> is_skip e = false.
Proof.
  unfold root_spec. destruct (os_Lstat path) as [d|]; [apply walk_spec_err |].
  intros [= <-]. reflexivity.
Qed.

Lemma refines_WalkDir p path :
  let o := root_spec p path in
  refines (WalkDir (walkFn p path) path) (out_err o) (out_files o)
    (EvLstat path :: out_trace o).
Proof.
  cbv zeta. unfold WalkDir. remit.
  pose proof (root_spec_err p path) as Herr. unfold root_spec in *.
  destruct (os_Lstat path) as [d|].
  - eapply refines_step;
      [apply refines_walkDir | symmetry; apply app_nil_r | symmetry; apply app_nil_r |].
    cbv zeta.
    destruct (out_err (walk_spec p path path d)) as [e|] eqn:He; [|apply refines_ret].
    rewrite (Herr e eq_refl). apply refines_ret.
  - cbn [out_err out_files out_trace].
    rstep ltac:(apply refines_walkFn_err). apply refines_ret.
Qed.

Lemma refines_processCandidate p path :
  let o := candidate_spec p path in
  refines (processCandidate p path) tt (out_files o) (out_trace o).
Proof.
  cbv zeta. unfold processCandidate, candidate_spec.
  destruct (os_Stat path) as [info|] eqn:Hstat; cbn [out_files out_trace];
    [|remit; apply refines_ret].
  destruct (negb (IsDir info)); cbn [out_files out_trace]; remit.
  - eapply refines_step;
      [apply refines_shouldInclude | reflexivity | symmetry; apply app_nil_r |].
    destruct (include_spec p path); [apply refines_final_add | apply refines_ret].
  - rstep ltac:(destruct (NoRecursive (config p) && negb (Contains path "**"));
                apply refines_ret).
    eapply refines_step;
      [apply (refines_WalkDir p path) | symmetry; apply app_nil_r
      | reflexivity |].
    destruct (out_err (root_spec p path));
      [apply refines_emit; reflexivity | apply refines_ret].
Qed.

Lemma refines_forEach {A} (f : A -> M unit) (files : A -> list string)
    (trace : A -> list event) l :
  (forall x, refines (f x) tt (files x) (trace x)) ->
  refines (forEach f l) tt (flat_map files l) (flat_map trace l).
Proof.
  intros Hf. induction l as [|x l IH]; cbn [forEach flat_map].
  - apply refines_ret.
  - rstep ltac:(apply Hf). exact IH.
Qed.

(** The files a loop over candidates leaves do not depend on the order
    of the candidates, which for a Go map is not fixed. *)
Lemma forEach_order p l1 l2 s :
  cache_ok s -> l1 ≡ₚ l2 ->
  exists s1 s2,
    forEach (processCandidate p) l1 s = Some (tt, s1) /\
    forEach (processCandidate p) l2 s = Some (tt, s2) /\
    finalFiles s1 = finalFiles s2.
Proof.
  intros Hok Hperm.
  destruct (refines_forEach (processCandidate p)
              (fun c => out_files (candidate_spec p c))
              (fun c => out_trace (candidate_spec p c)) l1
              (refines_processCandidate p) s Hok) as (s1 & evs1 & Hrun1 & _ & Hf1 & _).
  destruct (refines_forEach (processCandidate p)
              (fun c => out_files (candidate_spec p c))
              (fun c => out_trace (candidate_spec p c)) l2
              (refines_processCandidate p) s Hok) as (s2 & evs2 & Hrun2 & _ & Hf2 & _).
  exists s1, s2. split; [exact Hrun1 |]. split; [exact Hrun2 |].
  rewrite Hf1, Hf2. f_equal. apply set_eq. intros f.
  rewrite !elem_of_list_to_set, !list_elem_of_In, !in_flat_map.
  split; intros (c & Hc & Hin); exists c; (split; [|exact Hin]);
    apply list_elem_of_In; apply list_elem_of_In in Hc;
    [rewrite <- Hperm | rewrite Hperm]; exact Hc.
Qed.

Lemma refines_expand paths acc :
  refines (expand paths acc) (expand_spec paths ∪ acc) [] (expand_trace paths).
Proof.
  revert acc. unfold expand_spec, expand_trace.
  induction paths as [|path paths IH]; intros acc; cbn [expand flat_map].
  - replace (list_to_set [] ∪ acc) with acc by set_solver. apply refines_ret.
  - destruct (FilepathGlob path) as [matches|]; cbn [default].
    + rewrite list_to_set_app_L.
      replace (list_to_set matches ∪
               list_to_set (flat_map (fun path => default [] (FilepathGlob path)) paths) ∪ acc)
        with (list_to_set (flat_map (fun path => default [] (FilepathGlob path)) paths) ∪
              (list_to_set matches ∪ acc)) by set_solver.
      apply IH.
    + cbn [app]. remit. apply IH.
Qed.

(** What the candidates contribute does not depend on the order in
    which they are taken. *)
Lemma resolved_order p paths order :
  order ≡ₚ elements (expand_spec paths) ->
  list_to_set (flat_map (fun c => out_files (candidate_spec p c)) order) =
  resolved p paths.
Proof.
  intros Hperm. unfold resolved. apply set_eq. intros f.
  rewrite !elem_of_list_to_set, !list_elem_of_In, !in_flat_map.
  split; intros (c & Hc & Hin); exists c; (split; [|exact Hin]);
    apply list_elem_of_In; apply list_elem_of_In in Hc;
    [rewrite <- Hperm | rewrite Hperm]; exact Hc.
Qed.

(** A call of [ProcessPaths]: the candidates are taken in some order,
    the files come back in some order. *)
Lemma ProcessPaths_run p paths s :
  cache_ok s ->
  exists order files s' evs,
    order ≡ₚ elements (expand_spec paths) /\
    files ≡ₚ elements (resolved p paths) /\
    ProcessPaths p paths s = Some (files, s') /\
    cache_ok s' /\ finalFiles s' = resolved p paths /\
    log s' = log s ++ evs /\
    filter (fun e => observable e = true) evs = run_trace p paths order.
Proof.
  intros Hok. unfold ProcessPaths, run_trace.
  destruct (refines_expand paths ∅ s Hok) as (s1 & evs1 & Hrun1 & Hok1 & _ & Hl1 & Ht1).
  replace (expand_spec paths ∪ ∅) with (expand_spec paths) in Hrun1 by set_solver.
  set (order := range_order (ranged s1) (expand_spec paths)).
  set (s2 := {| ignoreMatcherCache := ignoreMatcherCache s1;
                finalFiles := ∅; log := log s1; ranged := S (ranged s1) |}).
  assert (cache_ok s2) as Hok2 by exact Hok1.
  assert (order ≡ₚ elements (expand_spec paths)) as Horder
    by apply range_order_perm.
  destruct (refines_forEach (processCandidate p)
              (fun c => out_files (candidate_spec p c))
              (fun c => out_trace (candidate_spec p c))
              order (refines_processCandidate p) s2 Hok2)
    as (s3 & evs3 & Hrun3 & Hok3 & Hf3 & Hl3 & Ht3).
  assert (finalFiles s3 = resolved p paths) as Hfinal.
  { rewrite Hf3, (resolved_order p paths order Horder). subst s2. simpl. set_solver. }
  exists order, (range_order (ranged s3) (resolved p paths)),
    {| ignoreMatcherCache := ignoreMatcherCache s3;
       finalFiles := finalFiles s3; log := log s3; ranged := S (ranged s3) |},
    (evs1 ++ evs3).
  split; [exact Horder |]. split; [apply range_order_perm |].
  unfold bind at 1. rewrite Hrun1.
  unfold bind at 1, final_new.
  unfold bind at 1, range_keys at 1. cbn [ranged ignoreMatcherCache finalFiles log].
  fold order. fold s2.
  unfold bind at 1. rewrite Hrun3.
  unfold bind, final_get, range_keys. rewrite Hfinal.
  split_and!; auto.
  - cbn [log]. rewrite Hl3. subst s2. simpl. rewrite Hl1, app_assoc. reflexivity.
  - rewrite filter_app, Ht1, Ht3. reflexivity.
Qed.

Lemma refines_load_patterns files acc :
  refines (load_patterns files acc) (acc ++ custom_patterns files) []
    (flat_map (fun file => match os_Open file with
                           | Some _ => []
                           | None => [EvWarn (WarnIgnoreFile file)]
                           end) files).
Proof.
  revert acc. unfold custom_patterns.
  induction files as [|file files IH]; intros acc; cbn [load_patterns flat_map].
  - rewrite app_nil_r. apply refines_ret.
  - rstep ltac:(apply refines_emit_load).
    destruct (os_Open file) as [f|]; cbn [app].
    + rewrite app_assoc. apply IH.
    + remit. apply IH.
Qed.

Lemma New_run config s :
  exists s' evs,
    New config s = Some (New_spec config, s') /\
    cache_ok s' /\ finalFiles s' = finalFiles s /\
    log s' = log s ++ evs /\
    filter (fun e => observable e = true) evs = New_trace config.
Proof.
  set (s0 := {| ignoreMatcherCache := ∅; finalFiles := finalFiles s; log := log s;
                ranged := ranged s |}).
  assert (cache_ok s0) as Hok0.
  { intros dir v Hl. simpl in Hl. rewrite lookup_empty in Hl. discriminate. }
  assert (refines
    (let* matcher :=
       (if Nat.ltb 0 (length (IgnoreFiles config)) then
          let* allPatterns := load_patterns (IgnoreFiles config) [] in
          if Nat.ltb 0 (length allPatterns)
          then ret (Some (CompileIgnoreLines allPatterns))
          else ret None
        else ret None) in
     ret {| config := config; customIgnoreMatcher := matcher |})
    (New_spec config) [] (New_trace config)) as Hr.
  { unfold New_spec, New_trace.
    assert (forall files, refines
      (let* allPatterns := load_patterns files [] in
       if Nat.ltb 0 (length allPatterns)
       then ret (Some (CompileIgnoreLines allPatterns))
       else ret None)
      (match custom_patterns files with
       | [] => None
       | ps => Some (CompileIgnoreLines ps)
       end) []
      (flat_map (fun file => match os_Open file with
                             | Some _ => []
                             | None => [EvWarn (WarnIgnoreFile file)]
                             end) files)) as Hinner.
    { intros files.
      eapply refines_step;
        [apply (refines_load_patterns files [])
        | reflexivity | symmetry; apply app_nil_r |].
      cbn [app]. destruct (custom_patterns files); apply refines_ret. }
    destruct (IgnoreFiles config) as [|file files] eqn:Hfiles.
    - cbn. rstep ltac:(apply refines_ret). apply refines_ret.
    - change (Nat.ltb 0 (length (file :: files))) with true. cbv match.
      eapply refines_step;
        [apply Hinner | reflexivity | symmetry; apply app_nil_r | apply refines_ret]. }
  destruct (Hr s0 Hok0) as (s1 & evs & Hrun & Hok1 & Hf1 & Hl1 & Ht1).
  exists s1, evs. unfold New. unfold bind at 1, cache_new. fold s0.
  split_and!; auto.
  rewrite Hf1. subst s0. simpl. set_solver.
Qed.

(** A run of the resolver: sorting undoes the order in which the files
    come back. *)
Lemma resolvePaths_run cfg paths s :
  exists order s' evs,
    order ≡ₚ elements (expand_spec paths) /\
    resolvePaths cfg paths s =
      Some (sort_Strings (elements (resolved (New_spec cfg) paths)), s') /\
    cache_ok s' /\ finalFiles s' = resolved (New_spec cfg) paths /\
    log s' = log s ++ evs /\
    filter (fun e => observable e = true) evs =
      New_trace cfg ++ run_trace (New_spec cfg) paths order.
Proof.
  destruct (New_run cfg s) as (s1 & evs1 & Hrun1 & Hok1 & _ & Hl1 & Ht1).
  destruct (ProcessPaths_run (New_spec cfg) paths s1 Hok1)
    as (order & files & s2 & evs2 & Horder & Hfiles & Hrun2 & Hok2 & Hf2 & Hl2 & Ht2).
  exists order, s2, (evs1 ++ evs2). unfold resolvePaths.
  unfold bind at 1. rewrite Hrun1. unfold bind at 1. rewrite Hrun2.
  split; [exact Horder |]. split_and!; auto.
  - unfold ret. rewrite (sort_Strings_order _ _ Hfiles). reflexivity.
  - rewrite Hl2, Hl1, app_assoc. reflexivity.
  - rewrite filter_app, Ht1, Ht2. reflexivity.
Qed.

End RefinementOfTheCode.

(* ------------------------------------------------------------------ *)
(** ** What a call of [ProcessPaths] keeps *)
(* ------------------------------------------------------------------ *)

Section Frame.
Context `{Env}.
Variable R : state -> state -> Prop.
Hypothesis R_refl : forall s, R s s.
Hypothesis R_trans : forall s1 s2 s3, R s1 s2 -> R s2 s3 -> R s1 s3.
Hypothesis R_log : forall s e, observable e = true ->
  R s {| ignoreMatcherCache := ignoreMatcherCache s;
         finalFiles := finalFiles s;
         log := log s ++ [e];
         ranged := ranged s |}.
Hypothesis R_files : forall s F n,
  R s {| ignoreMatcherCache := ignoreMatcherCache s;
         finalFiles := F;
         log := log s;
         ranged := n |}.
Variable p : FileProcessor.
(** Stage 3 with the mark of its start. *)
Hypothesis R_git : forall path,
  keeps R (emit (EvCheck StageGitignore path) >>> isGitignored p path).

Lemma keeps_ret {A} (a : A) : keeps R (ret a).
Proof. intros s a' s' [= _ <-]. apply R_refl. Qed.

Lemma keeps_bind {A B} (m : M A) (k : A -> M B) :
  keeps R m -> (forall a, keeps R (k a)) -> keeps R (bind m k).
Proof.
  intros Hm Hk s b s'. unfold bind.
  destruct (m s) as [[a s1]|] eqn:Hrun; [|discriminate].
  intros Hrun2. eapply R_trans; [eapply Hm | eapply Hk]; eassumption.
Qed.

Lemma keeps_emit e : observable e = true -> keeps R (emit e).
Proof. intros He s a s' [= _ <-]. apply R_log. exact He. Qed.

Lemma keeps_final_add path : keeps R (final_add path).
Proof. intros s a s' [= _ <-]. apply R_files. Qed.

Lemma keeps_final_new : keeps R final_new.
Proof. intros s a s' [= _ <-]. apply R_files. Qed.

Lemma keeps_final_get : keeps R final_get.
Proof. intros s a s' [= _ <-]. apply R_refl. Qed.

Lemma keeps_range_keys keys : keeps R (range_keys keys).
Proof. intros s a s' [= _ <-]. apply R_files. Qed.

Lemma bind_assoc {A B C} (m : M A) (f : A -> M B) (k : B -> M C) s :
  bind (bind m f) k s = bind m (fun a => bind (f a) k) s.
Proof. unfold bind. destruct (m s) as [[a s1]|]; reflexivity. Qed.

Lemma keeps_shouldSkipDir path : keeps R (shouldSkipDir p path).
Proof.
  unfold shouldSkipDir.
  apply keeps_bind; [apply keeps_emit; reflexivity | intros _].
  destruct (isExcluded p path); [apply keeps_ret |].
  apply keeps_bind.
  - destruct (customIgnoreMatcher p); [|apply keeps_ret].
    apply keeps_bind; [apply keeps_emit; reflexivity | intros _; apply keeps_ret].
  - intros [|]; [apply keeps_ret |].
    intros s b s' Hrun.
    change (bind (emit (EvCheck StageGitignore path))
              (fun _ => bind (isGitignored p path)
                          (fun ignored => if ignored then ret true else ret false)) s
            = Some (b, s')) in Hrun.
    rewrite <- bind_assoc in Hrun. revert s b s' Hrun.
    apply keeps_bind; [apply R_git | intros [|]; apply keeps_ret].
Qed.

Lemma keeps_isBinary path : keeps R (isBinary path).
Proof.
  unfold isBinary.
  apply keeps_bind; [apply keeps_emit; reflexivity | intros _].
  destruct (os_Open path) as [file|]; [|apply keeps_ret].
  destruct (Read 1024 file); apply keeps_ret.
Qed.

Lemma keeps_shouldInclude path : keeps R (shouldInclude p path).
Proof.
  unfold shouldInclude.
  apply keeps_bind; [apply keeps_shouldSkipDir | intros [|]]; [apply keeps_ret |].
  apply keeps_bind; [|intros [|]; apply keeps_ret].
  destruct (negb (NoBinaryCheck (config p))); [|apply keeps_ret].
  apply keeps_bind; [apply keeps_emit; reflexivity | intros _; apply keeps_isBinary].
Qed.

Lemma keeps_walkFn top path b err : keeps R (walkFn p top path b err).
Proof.
  unfold walkFn. destruct err as [e|]; [apply keeps_ret |].
  destruct b.
  - apply keeps_bind; [|intros [|]; apply keeps_ret].
    destruct (negb (String.eqb path top)); [apply keeps_shouldSkipDir | apply keeps_ret].
  - apply keeps_bind; [apply keeps_shouldInclude | intros inc].
    apply keeps_bind; [|intros _; apply keeps_ret].
    destruct inc; [apply keeps_final_add | apply keeps_ret].
Qed.

Lemma keeps_walkEntries top path dirs :
  Forall (fun e => forall path', keeps R (walkDir (walkFn p top) path' (snd e))) dirs ->
  keeps R (walkEntries (walkDir (walkFn p top)) path dirs).
Proof.
  induction 1 as [|[name d1] dirs Hd1 _ IH]; cbn [walkEntries].
  - apply keeps_ret.
  - apply keeps_bind; [apply Hd1 | intros [e|]]; [|exact IH].
    destruct (is_SkipDir e); apply keeps_ret.
Qed.

Lemma keeps_walkDir top d : forall path, keeps R (walkDir (walkFn p top) path d).
Proof.
  assert (forall path,
    keeps R (let* err := walkFn p top path false None in
             match err with
             | Some e => if is_SkipDir e && false then ret None else ret (Some e)
             | None => ret None
             end)) as Hleaf.
  { intros path.
    apply keeps_bind; [apply keeps_walkFn | intros [e|]]; [|apply keeps_ret].
    destruct (is_SkipDir e && false); apply keeps_ret. }
  induction d as [perm content | perm entries IH | target _] using node_induction;
    intros path; [rewrite walkDir_File; apply Hleaf | | rewrite walkDir_Link; apply Hleaf].
  - rewrite walkDir_Dir.
    apply keeps_bind; [apply keeps_walkFn | intros [e|]].
    + destruct (is_SkipDir e && true); apply keeps_ret.
    + apply keeps_bind; [apply keeps_emit; reflexivity | intros _].
      destruct perm; [apply keeps_walkEntries; exact IH |].
      apply keeps_bind; [apply keeps_walkFn | intros [e|]]; [|apply keeps_ret].
      destruct (is_SkipDir e); apply keeps_ret.
Qed.

Lemma keeps_WalkDir path : keeps R (WalkDir (walkFn p path) path).
Proof.
  unfold WalkDir.
  apply keeps_bind; [apply keeps_emit; reflexivity | intros _].
  apply keeps_bind.
  - destruct (os_Lstat path); [apply keeps_walkDir | apply keeps_walkFn].
  - intros [e|]; [|apply keeps_ret]. destruct (is_skip e); apply keeps_ret.
Qed.

Lemma keeps_processCandidate path : keeps R (processCandidate p path).
Proof.
  unfold processCandidate.
  apply keeps_bind; [apply keeps_emit; reflexivity | intros _].
  destruct (os_Stat path) as [info|]; [|apply keeps_ret].
  destruct (negb (IsDir info)).
  - apply keeps_bind; [apply keeps_shouldInclude | intros [|]];
      [apply keeps_final_add | apply keeps_ret].
  - apply keeps_bind.
    + destruct (NoRecursive (config p) && negb (Contains path "**")); apply keeps_ret.
    + intros _. apply keeps_bind; [apply keeps_WalkDir | intros [e|]];
        [apply keeps_emit; reflexivity | apply keeps_ret].
Qed.

Lemma keeps_forEach {A} (f : A -> M unit) l :
  (forall x, keeps R (f x)) -> keeps R (forEach f l).
Proof.
  intros Hf. induction l as [|x l IH]; cbn [forEach].
  - apply keeps_ret.
  - apply keeps_bind; [apply Hf | intros _; exact IH].
Qed.

Lemma keeps_expand paths : forall acc, keeps R (expand paths acc).
Proof.
  induction paths as [|path paths IH]; intros acc; cbn [expand].
  - apply keeps_ret.
  - destruct (FilepathGlob path); [apply IH |].
    apply keeps_bind; [apply keeps_emit; reflexivity | intros _; apply IH].
Qed.

Lemma keeps_ProcessPaths paths : keeps R (ProcessPaths p paths).
Proof.
  unfold ProcessPaths.
  apply keeps_bind; [apply keeps_expand | intros expanded].
  apply keeps_bind; [apply keeps_final_new | intros _].
  apply keeps_bind; [apply keeps_range_keys | intros candidates].
  apply keeps_bind; [apply keeps_forEach, keeps_processCandidate | intros _].
  apply keeps_bind; [apply keeps_final_get | intros files; apply keeps_range_keys].
Qed.

End Frame.


(* ------------------------------------------------------------------ *)
(** ** The precedence chain *)
(* ------------------------------------------------------------------ *)

Section PrecedenceChain.
Context `{Env}.

Lemma checks_of_app evs1 evs2 :
  checks_of (evs1 ++ evs2) = checks_of evs1 ++ checks_of evs2.
Proof. unfold checks_of. apply flat_map_app. Qed.

Lemma checks_of_observable evs :
  checks_of (filter (fun e => observable e = true) evs) = checks_of evs.
Proof.
  induction evs as [|e evs IH]; [reflexivity |].
  destruct e; cbn [observable];
    (rewrite filter_cons_True by reflexivity) || (rewrite filter_cons_False by discriminate);
    cbn [checks_of flat_map app]; fold (checks_of evs);
    fold (checks_of (filter (fun e => observable e = true) evs)); congruence.
Qed.

Lemma checks_of_gitignored_trace p path : checks_of (gitignored_trace p path) = [].
Proof.
  unfold gitignored_trace. destruct (NoGitignore (config p)); [reflexivity |].
  destruct (filepath.Abs Getwd path); reflexivity.
Qed.

Lemma custom_ignored_disabled p path :
  customIgnoreMatcher p = None -> custom_ignored p path = false.
Proof. unfold custom_ignored. intros ->. reflexivity. Qed.

Lemma skip_spec_stages p path :
  skip_spec p path =
  existsb (stage_matches p path) [StageExclude; StageCustomIgnore; StageGitignore].
Proof.
  unfold skip_spec. cbn [existsb stage_matches].
  rewrite orb_false_r, orb_assoc. reflexivity.
Qed.

Lemma include_spec_stages p path :
  include_spec p path = negb (existsb (stage_matches p path) chain).
Proof.
  unfold include_spec, skip_spec, chain. cbn [existsb stage_matches].
  rewrite orb_false_r, !negb_orb, !andb_assoc. reflexivity.
Qed.

Lemma checks_of_skip_trace p path :
  checks_of (skip_trace p path) =
  evaluated p path [StageExclude; StageCustomIgnore; StageGitignore].
Proof.
  unfold skip_trace. cbn [evaluated stage_enabled stage_matches].
  change (checks_of (EvCheck StageExclude path :: ?l)) with (StageExclude :: checks_of l).
  f_equal. destruct (isExcluded p path); [reflexivity |].
  rewrite checks_of_app.
  destruct (customIgnoreMatcher p) as [m|] eqn:Hm.
  - cbn [checks_of flat_map app]. f_equal.
    destruct (custom_ignored p path); [reflexivity |].
    change (checks_of (EvCheck StageGitignore path :: ?l)) with (StageGitignore :: checks_of l).
    rewrite checks_of_gitignored_trace. destruct (gitignored p path); reflexivity.
  - rewrite (custom_ignored_disabled _ _ Hm). cbn [checks_of flat_map app].
    fold (checks_of (gitignored_trace p path)).
    rewrite checks_of_gitignored_trace. destruct (gitignored p path); reflexivity.
Qed.

Lemma evaluated_app_no_match p path stages1 stages2 :
  existsb (stage_matches p path) stages1 = false ->
  evaluated p path (stages1 ++ stages2) =
  evaluated p path stages1 ++ evaluated p path stages2.
Proof.
  induction stages1 as [|st stages1 IH]; cbn [existsb evaluated app]; [reflexivity |].
  intros [Hst Hrest]%orb_false_elim. rewrite Hst, (IH Hrest).
  destruct (stage_enabled p st); reflexivity.
Qed.

Lemma evaluated_app_match p path stages1 stages2 :
  existsb (fun st => stage_enabled p st && stage_matches p path st) stages1 = true ->
  evaluated p path (stages1 ++ stages2) = evaluated p path stages1.
Proof.
  induction stages1 as [|st stages1 IH]; cbn [existsb evaluated app]; [discriminate |].
  destruct (stage_enabled p st); cbn [andb orb].
  - destruct (stage_matches p path st); cbn [orb]; [reflexivity |].
    intros Hrest. rewrite (IH Hrest). reflexivity.
  - apply IH.
Qed.

Lemma skip_spec_enabled p path :
  skip_spec p path = true ->
  existsb (fun st => stage_enabled p st && stage_matches p path st)
    [StageExclude; StageCustomIgnore; StageGitignore] = true.
Proof.
  unfold skip_spec. cbn [existsb stage_enabled stage_matches andb].
  unfold custom_ignored.
  destruct (isExcluded p path), (gitignored p path), (customIgnoreMatcher p) as [m|];
    try destruct (MatchesPath m _); cbn; auto.
Qed.

Lemma checks_of_include_trace p path :
  checks_of (include_trace p path) = evaluated p path chain.
Proof.
  unfold include_trace. rewrite checks_of_app, checks_of_skip_trace.
  change chain with ([StageExclude; StageCustomIgnore; StageGitignore] ++ [StageBinary]).
  destruct (skip_spec p path) eqn:Hskip.
  - rewrite evaluated_app_match by (apply skip_spec_enabled; assumption).
    apply app_nil_r.
  - rewrite evaluated_app_no_match by (rewrite <- skip_spec_stages; assumption).
    f_equal. cbn [evaluated stage_enabled].
    destruct (NoBinaryCheck (config p)); cbn [negb]; [reflexivity |].
    destruct (stage_matches p path StageBinary); reflexivity.
Qed.

End PrecedenceChain.

(* ------------------------------------------------------------------ *)
(** ** The gitignore resolver *)
(* ------------------------------------------------------------------ *)

Section GitignoreResolver.
Context `{Env}.

Lemma ancestors_on_chain start fuel : forall dir d,
  on_chain start dir -> In d (ancestors fuel dir) -> on_chain start d.
Proof.
  induction fuel as [|fuel IH]; intros dir d Hdir; cbn [ancestors]; [intros [] |].
  intros [<- | Hin]; [exact Hdir |].
  destruct (String.eqb_spec (filepath.Dir dir) dir) as [Heq|Hne]; [destruct Hin |].
  eapply IH; [|exact Hin]. apply chain_parent; assumption.
Qed.

Lemma ancestors_parent fuel : forall dir d,
  filepath.IsAbs dir = true -> String.length dir < fuel ->
  In d (ancestors fuel dir) -> filepath.Dir d <> d ->
  In (filepath.Dir d) (ancestors fuel dir).
Proof.
  induction fuel as [|fuel IH]; intros dir d Hdir Hlen; [lia |].
  cbn [ancestors]. intros [<- | Hin] Hne.
  - right. destruct (String.eqb_spec (filepath.Dir dir) dir) as [Heq|_]; [congruence |].
    destruct (Dir_shrinks dir Hdir) as [? | Hlt]; [congruence |].
    destruct fuel as [|fuel]; [lia |]. left. reflexivity.
  - right. destruct (String.eqb_spec (filepath.Dir dir) dir) as [Heq|Hne']; [destruct Hin |].
    apply IH; auto using Dir_rooted.
    destruct (Dir_shrinks dir Hdir) as [? | Hlt]; [congruence | lia].
Qed.

Lemma on_chain_ancestors start fuel d :
  filepath.IsAbs start = true -> String.length start < fuel ->
  on_chain start d -> In d (ancestors fuel start).
Proof.
  intros Hroot Hlen Hchain. induction Hchain as [|d Hchain IH Hne].
  - destruct fuel; [lia | left; reflexivity].
  - apply ancestors_parent; assumption.
Qed.

(** The last directory of the ascent is the root. *)
Lemma ancestors_last fuel : forall dir,
  filepath.IsAbs dir = true -> String.length dir < fuel ->
  exists front, ancestors fuel dir = front ++ ["/"].
Proof.
  induction fuel as [|fuel IH]; intros dir Hdir Hlen; [lia |].
  cbn [ancestors].
  destruct (String.eqb_spec (filepath.Dir dir) dir) as [Heq|Hne].
  - exists []. cbn. f_equal. apply Dir_fixpoint; assumption.
  - destruct (Dir_shrinks dir Hdir) as [? | Hlt]; [congruence |].
    assert (String.length (filepath.Dir dir) < fuel) as Hlen' by lia.
    destruct (IH _ (Dir_rooted _ Hdir) Hlen') as [front ->].
    exists (dir :: front). reflexivity.
Qed.

(** C4. With gitignore support enabled the resolver returns, and its
    answer is "ignored" exactly when some directory on the ancestor
    chain has a .gitignore ruleset that matches the path made relative to
    that directory; the chain starts at the directory of a file, or at
    the path itself otherwise, goes parent by parent, and the directories
    it visits are finitely many and end with the root.  With gitignore
    support disabled the resolver returns [false] and leaves the state,
    with its log of system calls, as it was. *)
Theorem C4_gitignore_resolver p path s :
  cache_ok s ->
  (NoGitignore (config p) = false ->
   exists b s',
     isGitignored p path s = Some (b, s') /\
     (b = true <->
      exists a dir m r,
        filepath.Abs Getwd path = Some a /\
        on_chain (start_dir a) dir /\
        matcher_at dir = Some m /\
        filepath.Rel dir a = Some r /\
        MatchesPath m (filepath.ToSlash r) = true) /\
     (forall a, filepath.Abs Getwd path = Some a ->
        (start_dir a =
           match os_Stat a with
           | Some (File _ _) => filepath.Dir a
           | _ => a
           end) /\
        exists front,
          (forall dir, on_chain (start_dir a) dir <-> In dir (front ++ ["/"])))) /\
  (NoGitignore (config p) = true ->
   isGitignored p path s = Some (false, s)).
Proof.
  intros Hok. split.
  - intros Hen.
    destruct (refines_isGitignored p path s Hok) as (s' & evs & Hrun & _).
    exists (gitignored p path), s'. split; [exact Hrun |]. split.
    + unfold gitignored. rewrite Hen.
      destruct (filepath.Abs Getwd path) as [a|] eqn:Ha.
      * assert (filepath.IsAbs a = true) as Hroot
          by (eapply Abs_rooted; [apply Getwd_rooted | exact Ha]).
        pose proof (start_dir_rooted a Hroot) as Hsroot.
        pose proof (start_dir_length a Hroot) as Hslen.
        rewrite existsb_exists. split.
        -- intros (dir & Hin & Hmatch).
           unfold rules_match in Hmatch.
           destruct (matcher_at dir) as [m|] eqn:Hm; [|discriminate].
           destruct (filepath.Rel dir a) as [r|] eqn:Hr; [|discriminate].
           exists a, dir, m, r. split_and!; auto.
           eapply ancestors_on_chain; [apply chain_start | exact Hin].
        -- intros (a' & dir & m & r & [= <-] & Hchain & Hm & Hr & Hmatch).
           exists dir. split.
           ++ apply on_chain_ancestors; [assumption | lia | assumption].
           ++ unfold rules_match. rewrite Hm, Hr. exact Hmatch.
      * split; [discriminate |].
        intros (a & dir & m & r & Habs & _). discriminate.
    + intros a Ha.
      assert (filepath.IsAbs a = true) as Hroot
        by (eapply Abs_rooted; [apply Getwd_rooted | exact Ha]).
      pose proof (start_dir_rooted a Hroot) as Hsroot.
      pose proof (start_dir_length a Hroot) as Hslen.
      split.
      * unfold start_dir.
        destruct (os_Stat a) as [[perm c|perm es|target]|] eqn:Hstat; try reflexivity.
        exfalso. exact (os_Stat_not_link _ _ Hstat).
      * destruct (ancestors_last (S (String.length a)) (start_dir a) Hsroot)
          as [front Hfront]; [lia |].
        exists front. intros dir. rewrite <- Hfront. split.
        -- apply on_chain_ancestors; [assumption | lia].
        -- apply ancestors_on_chain, chain_start.
  - intros Hno. unfold isGitignored. rewrite Hno. reflexivity.
Qed.

End GitignoreResolver.

(* ------------------------------------------------------------------ *)
(** ** The custom ignore matcher and the binary check *)
(* ------------------------------------------------------------------ *)

Section FilterStages.
Context `{Env}.

Lemma custom_patterns_contents files files' :
  map os_Open files' = map os_Open files ->
  custom_patterns files' = custom_patterns files.
Proof.
  unfold custom_patterns. revert files'.
  induction files as [|f files IH]; intros [|f' files'] Hmap; try discriminate;
    [reflexivity |].
  cbn [map] in Hmap. injection Hmap as Hf Hrest.
  cbn [flat_map]. rewrite Hf, (IH _ Hrest). reflexivity.
Qed.

(** C10. The matcher of stage 2 is compiled from the lines of the ignore
    files alone, whatever directory they are in; what it is asked about
    is the candidate path made relative to ".", the working directory
    (the cleaned path when it is relative), or the path as given when
    that fails (a rooted path).  When it matches, the directory is
    skipped and stage 3 is not reached. *)
Theorem C10_custom_ignore_is_cwd_relative cfg path s0 :
  exists proc s1,
    New cfg s0 = Some (proc, s1) /\
    customIgnoreMatcher proc =
      match custom_patterns (IgnoreFiles cfg) with
      | [] => None
      | ps => Some (CompileIgnoreLines ps)
      end /\
    (forall cfg',
        map os_Open (IgnoreFiles cfg') = map os_Open (IgnoreFiles cfg) ->
        customIgnoreMatcher (New_spec cfg') = customIgnoreMatcher proc) /\
    let tested :=
      match filepath.Rel "." path with
      | Some r => r
      | None => path
      end in
    (filepath.IsAbs path = false -> tested = filepath.Clean path) /\
    (filepath.IsAbs path = true -> tested = path) /\
    forall m s,
      cache_ok s -> customIgnoreMatcher proc = Some m ->
      isExcluded proc path = false ->
      exists b s' evs,
        shouldSkipDir proc path s = Some (b, s') /\
        log s' = log s ++ evs /\
        (MatchesPath m (filepath.ToSlash tested) = true ->
         b = true /\ checks_of evs = [StageExclude; StageCustomIgnore]) /\
        (MatchesPath m (filepath.ToSlash tested) = false ->
         b = gitignored proc path /\
         checks_of evs = [StageExclude; StageCustomIgnore; StageGitignore]).
Proof.
  destruct (New_run cfg s0) as (s1 & evs1 & Hnew & _).
  exists (New_spec cfg), s1. split; [exact Hnew |]. split; [reflexivity |]. split.
  { intros cfg' Hsame. unfold New_spec. cbn [customIgnoreMatcher].
    rewrite (custom_patterns_contents _ _ Hsame). reflexivity. }
  cbv zeta. split; [|split].
  - intros Hrel. rewrite Rel_dot_relative by assumption. reflexivity.
  - intros Habs. rewrite Rel_dot_rooted by assumption. reflexivity.
  - intros m s Hok Hm Hex.
    destruct (refines_shouldSkipDir (New_spec cfg) path s Hok)
      as (s' & evs & Hrun & _ & _ & Hl & Ht).
    exists (skip_spec (New_spec cfg) path), s', evs. split_and!; auto.
    + intros Hmatch.
      assert (custom_ignored (New_spec cfg) path = true) as Hc
        by (unfold custom_ignored, custom_rel; rewrite Hm; exact Hmatch).
      split.
      * unfold skip_spec. rewrite Hex, Hc. reflexivity.
      * rewrite <- checks_of_observable, Ht, checks_of_skip_trace.
        cbn [evaluated stage_enabled stage_matches]. rewrite Hex, Hm, Hc. reflexivity.
    + intros Hmatch.
      assert (custom_ignored (New_spec cfg) path = false) as Hc
        by (unfold custom_ignored, custom_rel; rewrite Hm; exact Hmatch).
      split.
      * unfold skip_spec. rewrite Hex, Hc. reflexivity.
      * rewrite <- checks_of_observable, Ht, checks_of_skip_trace.
        cbn [evaluated stage_enabled stage_matches]. rewrite Hex, Hm, Hc.
        destruct (gitignored (New_spec cfg) path); reflexivity.
Qed.

Lemma existsb_nul buffer : existsb (Byte.eqb nul) buffer = true <-> In nul buffer.
Proof.
  rewrite existsb_exists. split.
  - intros (x & Hin & Heq). apply Byte.byte_dec_bl in Heq. subst. exact Hin.
  - intros Hin. exists nul. split; [exact Hin | apply Byte.byte_dec_lb; reflexivity].
Qed.

Lemma firstn_min_length {A} (l : list A) n :
  firstn (Nat.min (length l) n) l = firstn n l.
Proof.
  destruct (Nat.le_gt_cases (length l) n) as [Hle|Hgt].
  - rewrite Nat.min_l by assumption.
    rewrite firstn_all, firstn_all2 by assumption. reflexivity.
  - rewrite Nat.min_r by lia. reflexivity.
Qed.

Lemma binary_file_of_file path perm content :
  resolve path = Some (File perm content) ->
  binary_file path = perm && existsb (Byte.eqb nul) (firstn 1024 content).
Proof.
  intros Hres. unfold binary_file, os_Open. rewrite Hres.
  destruct perm; reflexivity.
Qed.

(** C7, as the code has it.  With the binary check enabled, a regular
    file that survives stages 1 to 3 is excluded exactly when it can be
    opened and its first min(size, 1024) bytes contain a zero byte; with
    the binary check disabled it is included whatever its bytes are. *)
Theorem C7_binary_check p path s perm content :
  cache_ok s ->
  resolve path = Some (File perm content) ->
  skip_spec p path = false ->
  exists b s',
    shouldInclude p path s = Some (b, s') /\
    (NoBinaryCheck (config p) = false ->
     (b = false <->
      perm = true /\
      In nul (firstn (Nat.min (length content) 1024) content))) /\
    (NoBinaryCheck (config p) = true -> b = true).
Proof.
  intros Hok Hres Hskip.
  destruct (refines_shouldInclude p path s Hok) as (s' & evs & Hrun & _).
  exists (include_spec p path), s'. split; [exact Hrun |].
  unfold include_spec, binary_spec. rewrite Hskip.
  rewrite (binary_file_of_file _ _ _ Hres), firstn_min_length. split.
  - intros ->. cbn [negb andb]. rewrite negb_false_iff, andb_true_iff, existsb_nul.
    reflexivity.
  - intros ->. reflexivity.
Qed.

Lemma include_trace_no_warning p path w : ~ In (EvWarn w) (include_trace p path).
Proof.
  unfold include_trace, skip_trace, gitignored_trace.
  rewrite in_app_iff. intros [Hin | Hin].
  - destruct Hin as [Hin | Hin]; [discriminate |].
    destruct (isExcluded p path); [destruct Hin |].
    apply in_app_iff in Hin as [Hin | Hin].
    + destruct (customIgnoreMatcher p); [destruct Hin as [? | []]; discriminate | destruct Hin].
    + destruct (custom_ignored p path); [destruct Hin |].
      destruct Hin as [Hin | Hin]; [discriminate |].
      destruct (NoGitignore (config p)); [destruct Hin |].
      destruct (filepath.Abs Getwd path); [destruct Hin as [? | []]; discriminate | destruct Hin].
  - destruct (skip_spec p path); [destruct Hin |].
    destruct (NoBinaryCheck (config p)); [destruct Hin |].
    destruct Hin as [? | [? | []]]; discriminate.
Qed.

Lemma observable_In e evs :
  observable e = true -> In e evs -> In e (filter (fun e => observable e = true) evs).
Proof.
  intros He Hin. apply list_elem_of_In, list_elem_of_filter.
  split; [exact He | apply list_elem_of_In; exact Hin].
Qed.

(** C8, as the code has it.  A file met during the walk that cannot be
    opened is not reported and not skipped for that: the callback logs no
    diagnostic, adds the file to the result unless stages 1 to 3 exclude
    it, and returns [nil], so the walk goes on with the next entry. *)
Theorem C8_unreadable_file_is_kept p top path s content :
  cache_ok s ->
  resolve path = Some (File false content) ->
  exists s' evs,
    walkFn p top path false None s = Some (None, s') /\
    log s' = log s ++ evs /\
    (forall w, ~ In (EvWarn w) evs) /\
    finalFiles s' = (if skip_spec p path then ∅ else {[ path ]}) ∪ finalFiles s.
Proof.
  intros Hok Hres.
  destruct (refines_walkFn_file p top path s Hok) as (s' & evs & Hrun & _ & Hf & Hl & Ht).
  exists s', evs. split_and!; auto.
  - intros w Hin. apply (include_trace_no_warning p path w).
    rewrite <- Ht. apply observable_In; [reflexivity | exact Hin].
  - rewrite Hf. unfold include_spec, binary_spec.
    rewrite (binary_file_of_file _ _ _ Hres). cbn [andb].
    rewrite andb_false_r. cbn [negb]. rewrite andb_true_r.
    destruct (skip_spec p path); cbn [negb]; set_solver.
Qed.

End FilterStages.

(* ------------------------------------------------------------------ *)
(** ** The chain as a whole *)
(* ------------------------------------------------------------------ *)

Section Chain.
Context `{Env}.

Lemma run_bind {A B} (m : M A) (k : A -> M B) s b s' :
  bind m k s = Some (b, s') ->
  exists a s1, m s = Some (a, s1) /\ k a s1 = Some (b, s').
Proof. unfold bind. destruct (m s) as [[a s1]|]; [eauto | discriminate]. Qed.

Lemma getGitignoreMatcher_log dir s m s' :
  getGitignoreMatcher dir s = Some (m, s') ->
  log s' = log s \/
  log s' = log s ++ [EvLoadIgnore (filepath.Join dir ".gitignore")].
Proof.
  unfold getGitignoreMatcher, bind, cache_get.
  destruct (ignoreMatcherCache s !! dir); [intros [= _ <-]; left; reflexivity |].
  unfold emit, cache_put, ret.
  destruct (CompileIgnoreFile (filepath.Join dir ".gitignore"));
    intros [= _ <-]; right; reflexivity.
Qed.

(** The ascent loads the .gitignore of directories on the chain, and
    logs nothing else. *)
Lemma ascend_log start absPath fuel : forall dir s b s',
  on_chain start dir ->
  ascend fuel absPath dir s = Some (b, s') ->
  exists evs,
    log s' = log s ++ evs /\
    Forall (fun e => exists d, on_chain start d /\
                               e = EvLoadIgnore (filepath.Join d ".gitignore")) evs.
Proof.
  induction fuel as [|fuel IH]; intros dir s b s' Hdir; cbn [ascend]; [discriminate |].
  intros Hrun. apply run_bind in Hrun as (m & s1 & Hget & Hrest).
  assert (exists evs1,
            log s1 = log s ++ evs1 /\
            Forall (fun e => exists d, on_chain start d /\
                                       e = EvLoadIgnore (filepath.Join d ".gitignore")) evs1)
    as (evs1 & Hl1 & Hall1).
  { destruct (getGitignoreMatcher_log _ _ _ _ Hget) as [Hl | Hl].
    - exists []. rewrite app_nil_r. split; [exact Hl | constructor].
    - eexists. split; [exact Hl |]. constructor; [eauto | constructor]. }
  assert (forall b' s2,
            (if String.eqb (filepath.Dir dir) dir then ret false
             else ascend fuel absPath (filepath.Dir dir)) s1 = Some (b', s2) ->
            exists evs2,
              log s2 = log s1 ++ evs2 /\
              Forall (fun e => exists d, on_chain start d /\
                                         e = EvLoadIgnore (filepath.Join d ".gitignore")) evs2)
    as Hnext.
  { intros b' s2. destruct (String.eqb_spec (filepath.Dir dir) dir) as [Heq|Hne].
    - intros [= _ <-]. exists []. rewrite app_nil_r. split; [reflexivity | constructor].
    - apply IH. apply chain_parent; assumption. }
  assert (exists evs2,
            log s' = log s1 ++ evs2 /\
            Forall (fun e => exists d, on_chain start d /\
                                       e = EvLoadIgnore (filepath.Join d ".gitignore")) evs2)
    as (evs2 & Hl2 & Hall2).
  { destruct m as [matcher|]; [|eapply Hnext; exact Hrest].
    destruct (filepath.Rel dir absPath) as [r|]; [|eapply IH; eassumption].
    destruct (MatchesPath matcher (filepath.ToSlash r)); [|eapply Hnext; exact Hrest].
    injection Hrest as _ <-. exists []. rewrite app_nil_r. split; [reflexivity | constructor]. }
  exists (evs1 ++ evs2). split.
  - rewrite Hl2, Hl1, app_assoc. reflexivity.
  - apply Forall_app. split; assumption.
Qed.

(** What stage 3 logs: its system calls, none with gitignore support
    disabled. *)
Lemma isGitignored_log p path s b s' :
  isGitignored p path s = Some (b, s') ->
  exists git,
    log s' = log s ++ git /\
    Forall (git_call path) git /\
    (NoGitignore (config p) = true -> git = []).
Proof.
  unfold isGitignored.
  destruct (NoGitignore (config p)).
  { intros [= _ <-]. exists []. rewrite app_nil_r. split_and!; auto. }
  destruct (filepath.Abs Getwd path) as [a|] eqn:Ha.
  2: { intros [= _ <-]. exists []. rewrite app_nil_r. split_and!; auto. }
  intros Hrun. apply run_bind in Hrun as ([] & s1 & Hemit & Hrest).
  injection Hemit as <-. fold (start_dir a) in Hrest.
  destruct (ascend_log (start_dir a) a _ _ _ _ _ (chain_start _) Hrest)
    as (evs & Hl & Hall).
  exists (EvStat a :: evs). split_and!.
  - rewrite Hl. cbn [log]. rewrite <- app_assoc. reflexivity.
  - constructor; [exists a; auto |].
    eapply Forall_impl; [exact Hall |]. intros e (d & Hd & ->). exists a. eauto.
  - discriminate.
Qed.

(** What stages 1 to 3 log: their marks, then the system calls of
    stage 3, which there are none of when stage 1 or 2 matches. *)
Lemma shouldSkipDir_log p path s b s' :
  shouldSkipDir p path s = Some (b, s') ->
  exists git,
    log s' = log s ++ skip_marks p path ++ git /\
    Forall (git_call path) git /\
    (isExcluded p path || custom_ignored p path = true ->
     git = [] /\ ignoreMatcherCache s' = ignoreMatcherCache s) /\
    (NoGitignore (config p) = true -> git = []).
Proof.
  unfold shouldSkipDir, skip_marks.
  cbn [evaluated stage_enabled stage_matches].
  unfold custom_ignored, custom_rel.
  intros Hrun. apply run_bind in Hrun as ([] & s1 & Hemit & Hrun).
  injection Hemit as <-.
  destruct (isExcluded p path).
  { injection Hrun as _ <-. exists []. cbn [log]. rewrite app_nil_r. split_and!; auto. }
  cbn [orb].
  assert (forall s2 : state,
            (emit (EvCheck StageGitignore path) >>>
             (let* ignored := isGitignored p path in
              if ignored then ret true else ret false)) s2 = Some (b, s') ->
            exists git,
              log s' = log s2 ++ [EvCheck StageGitignore path] ++ git /\
              Forall (git_call path) git /\
              (NoGitignore (config p) = true -> git = [])) as Hthree.
  { intros s2 Hr. apply run_bind in Hr as ([] & s3 & Hemit & Hr).
    injection Hemit as <-.
    apply run_bind in Hr as (ignored & s4 & Hgit & Hr).
    destruct (isGitignored_log _ _ _ _ _ Hgit) as (git & Hl & Hall & Hoff).
    assert (s' = s4) as -> by (destruct ignored; injection Hr as _ <-; reflexivity).
    exists git. split_and!; auto. rewrite Hl. cbn [log].
    rewrite <- app_assoc. reflexivity. }
  apply run_bind in Hrun as (custom & s2 & Hcustom & Hrun).
  destruct (customIgnoreMatcher p) as [m|] eqn:Hm.
  - apply run_bind in Hcustom as ([] & s3 & Hemit & Hcustom).
    injection Hemit as <-. injection Hcustom as <- <-.
    destruct (MatchesPath m _) eqn:Hmatch.
    + injection Hrun as _ <-. exists []. cbn [log map].
      rewrite app_nil_r, <- app_assoc. split_and!; auto.
    + destruct (Hthree _ Hrun) as (git & Hl & Hall & Hoff).
      exists git. split_and!; auto; [|discriminate].
      rewrite Hl. cbn [log].
      destruct (gitignored p path); cbn [map]; rewrite <- !app_assoc; reflexivity.
  - injection Hcustom as <- <-.
    destruct (Hthree _ Hrun) as (git & Hl & Hall & Hoff).
    exists git. split_and!; auto; [|discriminate].
    rewrite Hl. cbn [log].
    destruct (gitignored p path); cbn [map]; rewrite <- !app_assoc; reflexivity.
Qed.

(** What the whole chain logs: after stages 1 to 3, the open of
    stage 4 when no stage has matched and the check is enabled. *)
Lemma shouldInclude_log p path s b s' :
  cache_ok s ->
  shouldInclude p path s = Some (b, s') ->
  exists git,
    log s' = log s ++ skip_marks p path ++ git ++ binary_calls p path /\
    Forall (git_call path) git /\
    (isExcluded p path || custom_ignored p path = true -> git = []) /\
    (NoGitignore (config p) = true -> git = []).
Proof.
  intros Hok. unfold shouldInclude, binary_calls.
  intros Hrun. apply run_bind in Hrun as (skip & s1 & Hskip & Hrun).
  destruct (refines_shouldSkipDir p path s Hok) as (s1' & evs & Hskip' & _).
  rewrite Hskip in Hskip'. injection Hskip' as -> _.
  destruct (shouldSkipDir_log _ _ _ _ _ Hskip) as (git & Hl & Hall & Hcut & Hoff).
  exists git. split_and!; auto; [|intros Hm; apply (Hcut Hm)].
  destruct (skip_spec p path); cbn [negb andb].
  { injection Hrun as _ <-. rewrite app_nil_r. exact Hl. }
  apply run_bind in Hrun as (binary & s2 & Hbin & Hrun).
  assert (s' = s2) as -> by (destruct binary; injection Hrun as _ <-; reflexivity).
  destruct (NoBinaryCheck (config p)); cbn [negb] in *.
  - injection Hbin as _ <-. rewrite app_nil_r. exact Hl.
  - apply run_bind in Hbin as ([] & s3 & Hemit & Hbin).
    injection Hemit as <-. unfold isBinary in Hbin.
    apply run_bind in Hbin as ([] & s4 & Hemit & Hbin).
    injection Hemit as <-.
    assert (s2 = {| ignoreMatcherCache := ignoreMatcherCache s1;
                    finalFiles := finalFiles s1;
                    log := (log s1 ++ [EvCheck StageBinary path]) ++ [EvOpen path];
                    ranged := ranged s1 |}) as ->.
    { destruct (os_Open path) as [file|]; [destruct (Read 1024 file) |];
        injection Hbin as _ <-; reflexivity. }
    cbn [log]. rewrite Hl, <- !app_assoc. reflexivity.
Qed.

(** The ruleset of a directory on the way up matches: [gitignored] in
    the words of the specification. *)
Lemma gitignored_on_chain p path :
  gitignored p path = true <-> stage_excludes p path StageGitignore.
Proof.
  unfold gitignored. cbn [stage_excludes].
  destruct (NoGitignore (config p)); [split; [discriminate | intros [[=] _]] |].
  destruct (filepath.Abs Getwd path) as [a|] eqn:Ha.
  - assert (filepath.IsAbs a = true) as Hroot
      by (eapply Abs_rooted; [apply Getwd_rooted | exact Ha]).
    pose proof (start_dir_rooted a Hroot) as Hsroot.
    pose proof (start_dir_length a Hroot) as Hslen.
    rewrite existsb_exists. split.
    + intros (dir & Hin & Hmatch). split; [reflexivity |].
      unfold rules_match in Hmatch.
      destruct (matcher_at dir) as [m|] eqn:Hm; [|discriminate].
      destruct (filepath.Rel dir a) as [r|] eqn:Hr; [|discriminate].
      exists a, dir, m, r. split_and!; auto.
      eapply ancestors_on_chain; [apply chain_start | exact Hin].
    + intros (_ & a' & dir & m & r & [= <-] & Hchain & Hm & Hr & Hmatch).
      exists dir. split.
      * apply on_chain_ancestors; [assumption | lia | assumption].
      * unfold rules_match. rewrite Hm, Hr. exact Hmatch.
  - split; [discriminate |].
    intros (_ & a & dir & m & r & Habs & _). discriminate.
Qed.

(** Each stage matches exactly when it excludes the path in the words
    of the specification. *)
Lemma stage_matches_excludes p path st :
  stage_matches p path st = true <-> stage_excludes p path st.
Proof.
  destruct st; cbn [stage_matches].
  - unfold isExcluded. cbn [stage_excludes]. rewrite existsb_exists.
    split; intros (pattern & Hin & Hm); exists pattern; (split; [exact Hin |]).
    + destruct (PathMatch _ _) as [[|]|]; congruence.
    + rewrite Hm. reflexivity.
  - unfold custom_ignored, custom_rel. cbn [stage_excludes].
    destruct (customIgnoreMatcher p) as [m|].
    + split; [intros Hm; exists m; auto | intros (m' & [= <-] & Hm); exact Hm].
    + split; [discriminate | intros (m' & [=] & _)].
  - apply gitignored_on_chain.
  - unfold binary_spec, binary_file. cbn [stage_excludes].
    destruct (NoBinaryCheck (config p)); cbn [negb andb];
      [split; [discriminate | intros [[=] _]] |].
    destruct (os_Open path) as [file|].
    + destruct (Read 1024 file) as [buffer|] eqn:Hread.
      * rewrite existsb_nul. split.
        -- intros Hin. split; [reflexivity |]. exists file, buffer. auto.
        -- intros (_ & file' & buffer' & [= <-] & Hread' & Hin).
           rewrite Hread in Hread'. injection Hread' as <-. exact Hin.
      * split; [discriminate |].
        intros (_ & file' & buffer' & [= <-] & Hread' & _). congruence.
    + split; [discriminate |]. intros (_ & file' & buffer' & [=] & _).
Qed.

(** C1. On every path and with every configuration the filter runs the
    four checks in the order exclude globs, custom ignore matcher,
    .gitignore hierarchy, binary content (the last one in
    [shouldInclude] only), and stops at the first that matches.

    Each stage matches exactly when it excludes the path in the words
    of the specification ([stage_excludes]); the verdict of
    [shouldSkipDir] is that one of the first three matches, that of
    [shouldInclude] that none of the four does.

    The log shows the order and the short cut: first the marks of the
    stages evaluated, which are the stages in order up to the first
    that matches; then the system calls of stage 3, the [os.Stat] of
    the path and the loads of .gitignore files on the way up, and none
    of them when stage 1 or 2 matches or gitignore support is
    disabled; last the open of stage 4, and only when no earlier stage
    has matched and the check is enabled.

    With gitignore support disabled the third stage never matches, so
    a path that only a .gitignore rule would exclude is included. *)
Theorem C1_precedence_chain p path s :
  cache_ok s ->
  (forall st, stage_matches p path st = true <-> stage_excludes p path st) /\
  (exists s' evs git,
      shouldSkipDir p path s =
        Some (existsb (stage_matches p path)
                [StageExclude; StageCustomIgnore; StageGitignore], s') /\
      log s' = log s ++ evs /\
      checks_of evs =
        evaluated p path [StageExclude; StageCustomIgnore; StageGitignore] /\
      evs = skip_marks p path ++ git /\
      Forall (git_call path) git /\
      (stage_matches p path StageExclude = true \/
       stage_matches p path StageCustomIgnore = true ->
       git = [] /\ ignoreMatcherCache s' = ignoreMatcherCache s) /\
      (NoGitignore (config p) = true -> git = [])) /\
  (exists s' evs git,
      shouldInclude p path s =
        Some (negb (existsb (stage_matches p path) chain), s') /\
      log s' = log s ++ evs /\
      checks_of evs = evaluated p path chain /\
      evs = skip_marks p path ++ git ++
            (if existsb (stage_matches p path)
                  [StageExclude; StageCustomIgnore; StageGitignore]
                || NoBinaryCheck (config p)
             then []
             else [EvCheck StageBinary path; EvOpen path]) /\
      Forall (git_call path) git /\
      (stage_matches p path StageExclude = true \/
       stage_matches p path StageCustomIgnore = true -> git = []) /\
      (NoGitignore (config p) = true -> git = [])) /\
  (NoGitignore (config p) = true ->
     stage_matches p path StageGitignore = false /\
     (stage_matches p path StageExclude = false ->
      stage_matches p path StageCustomIgnore = false ->
      stage_matches p path StageBinary = false ->
      negb (existsb (stage_matches p path) chain) = true)).
Proof.
  intros Hok.
  assert (forall b1 b2 : bool, b1 = true \/ b2 = true -> b1 || b2 = true) as Hor
    by (intros [|] [|] [? | ?]; auto).
  split_and!.
  - apply stage_matches_excludes.
  - destruct (refines_shouldSkipDir p path s Hok) as (s' & evs & Hrun & _ & _ & Hl & Ht).
    destruct (shouldSkipDir_log _ _ _ _ _ Hrun) as (git & Hl' & Hall & Hcut & Hoff).
    assert (evs = skip_marks p path ++ git) as Hevs
      by (rewrite Hl in Hl'; apply app_inv_head in Hl'; exact Hl').
    exists s', evs, git. rewrite <- skip_spec_stages. split_and!; auto.
    rewrite <- checks_of_observable, Ht. apply checks_of_skip_trace.
  - destruct (refines_shouldInclude p path s Hok) as (s' & evs & Hrun & _ & _ & Hl & Ht).
    destruct (shouldInclude_log _ _ _ _ _ Hok Hrun) as (git & Hl' & Hall & Hcut & Hoff).
    assert (evs = skip_marks p path ++ git ++ binary_calls p path) as Hevs
      by (rewrite Hl in Hl'; apply app_inv_head in Hl'; exact Hl').
    exists s', evs, git. rewrite <- include_spec_stages, <- skip_spec_stages.
    split_and!; auto.
    + rewrite <- checks_of_observable, Ht. apply checks_of_include_trace.
    + rewrite Hevs. unfold binary_calls.
      destruct (skip_spec p path), (NoBinaryCheck (config p)); reflexivity.
  - intros Hno.
    assert (stage_matches p path StageGitignore = false) as Hgit
      by (cbn [stage_matches]; unfold gitignored; rewrite Hno; reflexivity).
    split; [exact Hgit |]. intros H1 H2 H4.
    unfold chain. cbn [existsb]. rewrite H1, H2, Hgit, H4. reflexivity.
Qed.

End Chain.

(* ------------------------------------------------------------------ *)
(** ** The result set *)
(* ------------------------------------------------------------------ *)

Section ResultSet.
Context `{Env}.

Lemma elem_of_resolved p paths f :
  f ∈ resolved p paths <->
  exists c, c ∈ expand_spec paths /\ In f (out_files (candidate_spec p c)).
Proof.
  unfold resolved. rewrite elem_of_list_to_set, list_elem_of_In, in_flat_map.
  split; intros (c & Hc & Hf); exists c; split; auto.
  - apply elem_of_elements, list_elem_of_In. exact Hc.
  - apply list_elem_of_In, elem_of_elements. exact Hc.
Qed.

Lemma expand_spec_app pathsA pathsB :
  expand_spec (pathsA ++ pathsB) = expand_spec pathsA ∪ expand_spec pathsB.
Proof. unfold expand_spec. rewrite flat_map_app, list_to_set_app_L. reflexivity. Qed.

Lemma resolved_app p pathsA pathsB :
  resolved p (pathsA ++ pathsB) = resolved p pathsA ∪ resolved p pathsB.
Proof.
  apply set_eq. intros f.
  rewrite elem_of_union, !elem_of_resolved, expand_spec_app.
  split.
  - intros (c & [Hc | Hc]%elem_of_union & Hf); [left | right]; eauto.
  - intros [(c & Hc & Hf) | (c & Hc & Hf)]; exists c; split; auto; set_solver.
Qed.

(** C6. The resolver always returns, and its list is sorted by path
    string, byte by byte, and has no duplicate: every path of the result
    set is there exactly once, however many input patterns lead to it,
    and the list is the same in whatever order the set is ranged over. *)
Theorem C6_sorted_duplicate_free cfg paths s :
  exists files s',
    resolvePaths cfg paths s = Some (files, s') /\
    StronglySorted string_le files /\
    NoDup files /\
    (forall f, In f files <-> f ∈ resolved (New_spec cfg) paths) /\
    (forall f, In f files -> count_occ String.string_dec files f = 1) /\
    (forall l, l ≡ₚ elements (finalFiles s') -> sort_Strings l = files).
Proof.
  destruct (resolvePaths_run cfg paths s) as (?order & s' & evs & ?Horder & Hrun & _ & Hfinal & _).
  exists (sort_Strings (elements (resolved (New_spec cfg) paths))), s'.
  assert (NoDup (sort_Strings (elements (resolved (New_spec cfg) paths)))) as Hnodup.
  { unfold sort_Strings. rewrite (merge_sort_Permutation string_le).
    apply NoDup_elements. }
  split_and!; auto.
  - unfold sort_Strings. apply StronglySorted_merge_sort; apply _.
  - intros f. rewrite In_sort_Strings, <- list_elem_of_In. apply elem_of_elements.
  - apply NoDup_ListNoDup in Hnodup.
    apply (proj1 (List.NoDup_count_occ' String.string_dec _) Hnodup).
  - intros l Hperm. rewrite Hfinal in Hperm. apply sort_Strings_order. exact Hperm.
Qed.

(** C9. For two lists of inputs and one configuration, the files
    resolved from the two lists together are the files resolved from the
    one or from the other: what an input contributes does not depend on
    the other inputs, disjoint trees or not. *)
Theorem C9_union_of_inputs cfg pathsA pathsB s :
  exists filesA sA filesB sB filesAB sAB,
    resolvePaths cfg pathsA s = Some (filesA, sA) /\
    resolvePaths cfg pathsB s = Some (filesB, sB) /\
    resolvePaths cfg (pathsA ++ pathsB) s = Some (filesAB, sAB) /\
    (forall f, In f filesAB <-> In f filesA \/ In f filesB) /\
    list_to_set filesAB =@{gset string} list_to_set filesA ∪ list_to_set filesB.
Proof.
  destruct (resolvePaths_run cfg pathsA s) as (?order & sA & evsA & ?Horder & HrunA & _).
  destruct (resolvePaths_run cfg pathsB s) as (?order & sB & evsB & ?Horder & HrunB & _).
  destruct (resolvePaths_run cfg (pathsA ++ pathsB) s) as (?order & sAB & evsAB & ?Horder & HrunAB & _).
  do 6 eexists. split; [exact HrunA |]. split; [exact HrunB |].
  split; [exact HrunAB |].
  assert (forall f,
    In f (sort_Strings (elements (resolved (New_spec cfg) (pathsA ++ pathsB)))) <->
    In f (sort_Strings (elements (resolved (New_spec cfg) pathsA))) \/
    In f (sort_Strings (elements (resolved (New_spec cfg) pathsB)))) as Hiff.
  { intros f. rewrite !In_sort_Strings, <- !list_elem_of_In, !elem_of_elements.
    rewrite resolved_app. apply elem_of_union. }
  split; [exact Hiff |].
  apply set_eq. intros f.
  rewrite elem_of_union, !elem_of_list_to_set, !list_elem_of_In. apply Hiff.
Qed.

End ResultSet.

(* ------------------------------------------------------------------ *)
(** ** The walk: pruning *)
(* ------------------------------------------------------------------ *)

Section Pruning.
Context `{Env}.

Lemma reads_of_app evs1 evs2 : reads_of (evs1 ++ evs2) = reads_of evs1 ++ reads_of evs2.
Proof. unfold reads_of. apply flat_map_app. Qed.

Lemma reads_of_gitignored_trace p path : reads_of (gitignored_trace p path) = [].
Proof.
  unfold gitignored_trace. destruct (NoGitignore (config p)); [reflexivity |].
  destruct (filepath.Abs Getwd path); reflexivity.
Qed.

Lemma reads_of_skip_trace p path : reads_of (skip_trace p path) = [].
Proof.
  unfold skip_trace. cbn [reads_of flat_map app]. fold reads_of.
  destruct (isExcluded p path); [reflexivity |].
  rewrite reads_of_app.
  replace (reads_of match customIgnoreMatcher p with
                    | Some _ => [EvCheck StageCustomIgnore path]
                    | None => []
                    end) with (@nil string)
    by (destruct (customIgnoreMatcher p); reflexivity).
  destruct (custom_ignored p path); [reflexivity |].
  cbn [reads_of flat_map app]. fold reads_of. apply reads_of_gitignored_trace.
Qed.

Lemma reads_of_include_trace p path f :
  In f (reads_of (include_trace p path)) -> f = path.
Proof.
  unfold include_trace. rewrite reads_of_app, reads_of_skip_trace. cbn [app].
  destruct (skip_spec p path); [intros [] |].
  destruct (NoBinaryCheck (config p)); [intros [] |].
  cbn. intros [<- | []]. reflexivity.
Qed.

Lemma entries_paths_app paths_of path dirs1 dirs2 :
  entries_paths paths_of path (dirs1 ++ dirs2) =
  entries_paths paths_of path dirs1 ++ entries_paths paths_of path dirs2.
Proof.
  induction dirs1 as [|[name d1] dirs1 IH]; cbn [entries_paths app]; [reflexivity |].
  rewrite IH, app_assoc. reflexivity.
Qed.

Lemma touched_entries_cons walk path name d1 dirs f :
  In f (touched (entries_spec walk path ((name, d1) :: dirs))) <->
  In f (touched (walk (filepath.Join path name) d1)) \/
  (out_err (walk (filepath.Join path name) d1) = None /\
   In f (touched (entries_spec walk path dirs))).
Proof.
  unfold touched. cbn [entries_spec].
  destruct (out_err (walk (filepath.Join path name) d1)); cbn [out_files out_trace].
  - split; [auto | intros [Hin | [[=] _]]; exact Hin].
  - rewrite reads_of_app, !in_app_iff. tauto.
Qed.

Lemma touched_entries_app walk path dirs1 dirs2 f :
  In f (touched (entries_spec walk path (dirs1 ++ dirs2))) ->
  In f (touched (entries_spec walk path dirs1)) \/
  In f (touched (entries_spec walk path dirs2)).
Proof.
  induction dirs1 as [|[name d1] dirs1 IH]; cbn [app]; [auto |].
  rewrite !touched_entries_cons. intros [Hin | [Hnone Hin]]; [auto |].
  destruct (IH Hin); auto.
Qed.

Lemma touched_file p top path d f :
  IsDir d = false ->
  In f (touched (walk_spec p top path d)) -> f = path.
Proof.
  intros Hd. unfold touched.
  assert (In f ((if include_spec p path then [path] else []) ++
                reads_of (include_trace p path)) -> f = path) as Hleaf.
  { rewrite in_app_iff.
    intros [Hin | Hin]; [|eapply reads_of_include_trace; exact Hin].
    destruct (include_spec p path); [destruct Hin as [<- | []]; reflexivity | destruct Hin]. }
  destruct d; try discriminate; exact Hleaf.
Qed.

Lemma touched_dir p top path perm entries f :
  In f (touched (walk_spec p top path (Dir perm entries))) ->
  f = path \/ In f (touched (entries_spec (walk_spec p top) path entries)).
Proof.
  unfold touched. cbn [walk_spec].
  destruct (negb (String.eqb path top) && skip_spec p path);
    cbn [out_files out_trace].
  - rewrite reads_of_skip_trace. intros [].
  - assert (reads_of ((if negb (String.eqb path top) then skip_trace p path else [])
                      ++ [EvReadDir path perm]) = [path]) as Hpre.
    { rewrite reads_of_app.
      destruct (negb (String.eqb path top)); [rewrite reads_of_skip_trace |]; reflexivity. }
    destruct perm; cbn [out_files out_trace].
    + rewrite reads_of_app, Hpre, !in_app_iff. cbn [In]. intuition auto.
    + rewrite Hpre. cbn [app In]. intuition auto.
Qed.

(** A node that stages 1 to 3 exclude, below the candidate, is left
    alone: no file is added, nothing is listed or opened. *)
Lemma touched_pruned p top path d :
  path <> top -> skip_spec p path = true -> touched (walk_spec p top path d) = [].
Proof.
  intros Hne Hskip. apply String.eqb_neq in Hne.
  assert ((if include_spec p path then [path] else []) ++
          reads_of (include_trace p path) = []) as Hleaf.
  { unfold include_spec, include_trace.
    rewrite Hskip, app_nil_r, reads_of_skip_trace. reflexivity. }
  unfold touched. destruct d as [perm content | perm entries | target]; cbn [walk_spec].
  - exact Hleaf.
  - rewrite Hne, Hskip. cbn [negb andb out_files out_trace].
    rewrite reads_of_skip_trace. reflexivity.
  - exact Hleaf.
Qed.

Lemma touched_entries_paths p top path dirs f :
  Forall (fun e => forall path f,
            In f (touched (walk_spec p top path (snd e))) ->
            In f (tree_paths path (snd e))) dirs ->
  In f (touched (entries_spec (walk_spec p top) path dirs)) ->
  In f (entries_paths tree_paths path dirs).
Proof.
  induction 1 as [|[name d1] dirs Hd1 _ IH].
  - intros [].
  - rewrite touched_entries_cons. cbn [entries_paths snd] in *. rewrite in_app_iff.
    intros [Hin | [_ Hin]]; [left; apply Hd1; exact Hin | right; apply IH; exact Hin].
Qed.

(** A walk touches paths of its own tree only. *)
Lemma touched_tree_paths p top d : forall path f,
  In f (touched (walk_spec p top path d)) -> In f (tree_paths path d).
Proof.
  induction d as [perm content | perm entries IH | target _] using node_induction;
    intros path f Hin.
  - apply touched_file in Hin as ->; [|reflexivity]. left. reflexivity.
  - apply touched_dir in Hin as [-> | Hin]; [left; reflexivity |].
    right. cbn [tree_paths]. eapply touched_entries_paths; eassumption.
  - apply touched_file in Hin as ->; [|reflexivity]. left. reflexivity.
Qed.

Lemma entry_tree_paths path name d1 entries f :
  In (name, d1) entries ->
  In f (tree_paths (filepath.Join path name) d1) ->
  In f (entries_paths tree_paths path entries).
Proof.
  intros (l1 & l2 & ->)%in_split Hf.
  rewrite entries_paths_app. cbn [entries_paths]. rewrite !in_app_iff. auto.
Qed.

Lemma tree_paths_entries path perm entries :
  tree_paths path (Dir perm entries) = path :: entries_paths tree_paths path entries.
Proof. reflexivity. Qed.

(** The paths of a node below are among the paths of the entries. *)
Lemma descends_below path d path' d' :
  descends path d path' d' ->
  exists perm entries,
    d = Dir perm entries /\
    forall f, In f (tree_paths path' d') -> In f (entries_paths tree_paths path entries).
Proof.
  induction 1 as [path perm entries name d1 Hin
                 | path perm entries name d1 path' d' Hin Hdesc IH];
    exists perm, entries; (split; [reflexivity |]); intros f Hf.
  - eapply entry_tree_paths; eassumption.
  - destruct IH as (perm1 & entries1 & -> & IH).
    eapply entry_tree_paths; [exact Hin |].
    rewrite tree_paths_entries. right. apply IH. exact Hf.
Qed.

Lemma NoDup_entries_split path l1 name d1 l2 :
  List.NoDup (entries_paths tree_paths path (l1 ++ (name, d1) :: l2)) ->
  List.NoDup (tree_paths (filepath.Join path name) d1) /\
  (forall f, In f (entries_paths tree_paths path l1) ->
             ~ In f (tree_paths (filepath.Join path name) d1)) /\
  (forall f, In f (entries_paths tree_paths path l2) ->
             ~ In f (tree_paths (filepath.Join path name) d1)).
Proof.
  rewrite entries_paths_app. cbn [entries_paths].
  intros Hnd. apply NoDup_ListNoDup in Hnd.
  apply NoDup_app in Hnd as (_ & Hl1 & Hnd).
  apply NoDup_app in Hnd as (Hnd1 & Hl2 & _).
  split; [apply NoDup_ListNoDup; exact Hnd1 |]. split.
  - intros f Hf1 Hf. apply (Hl1 f); [apply list_elem_of_In; exact Hf1 |].
    apply elem_of_app. left. apply list_elem_of_In. exact Hf.
  - intros f Hf2 Hf. apply (Hl2 f); apply list_elem_of_In; assumption.
Qed.

(** Below a candidate, what lies under an excluded node is not touched by
    the walk, provided the paths of the tree are pairwise different. *)
Lemma pruned_untouched p top D Dn path d :
  descends path d D Dn ->
  List.NoDup (tree_paths path d) ->
  D <> top -> skip_spec p D = true ->
  forall f, In f (touched (walk_spec p top path d)) -> ~ In f (tree_paths D Dn).
Proof.
  intros Hdesc. induction Hdesc as [path perm entries name d1 Hin
                 | path perm entries name d1 path' d' Hin Hdesc IH];
    intros Hnd Htop Hskip f Hf.
  - pose proof (descends_below _ _ _ _ (descends_entry path perm entries name d1 Hin))
      as (? & ? & [= <- <-] & Hbelow).
    rewrite tree_paths_entries in Hnd. apply List.NoDup_cons_iff in Hnd as [Hpath Hnd].
    apply touched_dir in Hf as [-> | Hf]; [intros Hc; apply Hpath, Hbelow, Hc |].
    apply in_split in Hin as (l1 & l2 & ->).
    apply NoDup_entries_split in Hnd as (_ & Hl1 & Hl2).
    apply touched_entries_app in Hf as [Hf | Hf].
    + apply Hl1. eapply touched_entries_paths; [|exact Hf].
      apply Forall_forall. intros e _. apply touched_tree_paths.
    + apply touched_entries_cons in Hf as [Hf | [_ Hf]].
      * rewrite touched_pruned in Hf by assumption. destruct Hf.
      * apply Hl2. eapply touched_entries_paths; [|exact Hf].
        apply Forall_forall. intros e _. apply touched_tree_paths.
  - pose proof (descends_below _ _ _ _
                  (descends_deeper path perm entries name d1 path' d' Hin Hdesc))
      as (? & ? & [= <- <-] & Hbelow).
    pose proof (descends_below _ _ _ _ Hdesc) as (perm1 & entries1 & -> & Hbelow1).
    rewrite tree_paths_entries in Hnd. apply List.NoDup_cons_iff in Hnd as [Hpath Hnd].
    apply touched_dir in Hf as [-> | Hf]; [intros Hc; apply Hpath, Hbelow, Hc |].
    apply in_split in Hin as (l1 & l2 & ->).
    apply NoDup_entries_split in Hnd as (Hnd1 & Hl1 & Hl2).
    assert (forall g, In g (tree_paths path' d') ->
                      In g (tree_paths (filepath.Join path name) (Dir perm1 entries1)))
      as Hsub by (intros g Hg; rewrite tree_paths_entries; right; apply Hbelow1, Hg).
    apply touched_entries_app in Hf as [Hf | Hf].
    + intros Hc. apply (Hl1 f); [|apply Hsub, Hc].
      eapply touched_entries_paths; [|exact Hf].
      apply Forall_forall. intros e _. apply touched_tree_paths.
    + apply touched_entries_cons in Hf as [Hf | [_ Hf]].
      * apply IH; assumption.
      * intros Hc. apply (Hl2 f); [|apply Hsub, Hc].
        eapply touched_entries_paths; [|exact Hf].
        apply Forall_forall. intros e _. apply touched_tree_paths.
Qed.

Lemma failed_reads_app evs1 evs2 :
  failed_reads (evs1 ++ evs2) = failed_reads evs1 ++ failed_reads evs2.
Proof. unfold failed_reads. apply flat_map_app. Qed.

Lemma warnings_of_app evs1 evs2 :
  warnings_of (evs1 ++ evs2) = warnings_of evs1 ++ warnings_of evs2.
Proof. unfold warnings_of. apply flat_map_app. Qed.

Lemma warnings_of_observable evs :
  warnings_of (filter (fun e => observable e = true) evs) = warnings_of evs.
Proof.
  induction evs as [|e evs IH]; [reflexivity |].
  destruct (observable e) eqn:He.
  - rewrite filter_cons_True by exact He.
    change (warnings_of ([e] ++ filter (fun e => observable e = true) evs) =
            warnings_of ([e] ++ evs)).
    rewrite !warnings_of_app, IH. reflexivity.
  - rewrite filter_cons_False by (rewrite He; discriminate).
    destruct e; try discriminate. exact IH.
Qed.

Lemma clean_trace_app evs1 evs2 :
  clean_trace evs1 -> clean_trace evs2 -> clean_trace (evs1 ++ evs2).
Proof.
  intros [Hf1 Hw1] [Hf2 Hw2]. split.
  - rewrite failed_reads_app, Hf1, Hf2. reflexivity.
  - rewrite warnings_of_app, Hw1, Hw2. reflexivity.
Qed.

Lemma clean_gitignored_trace p path : clean_trace (gitignored_trace p path).
Proof.
  unfold gitignored_trace. destruct (NoGitignore (config p)); [split; reflexivity |].
  destruct (filepath.Abs Getwd path); split; reflexivity.
Qed.

Lemma clean_skip_trace p path : clean_trace (skip_trace p path).
Proof.
  unfold skip_trace.
  apply (clean_trace_app [EvCheck StageExclude path]); [split; reflexivity |].
  destruct (isExcluded p path); [split; reflexivity |].
  apply clean_trace_app.
  - destruct (customIgnoreMatcher p); split; reflexivity.
  - destruct (custom_ignored p path); [split; reflexivity |].
    apply (clean_trace_app [EvCheck StageGitignore path]); [split; reflexivity |].
    apply clean_gitignored_trace.
Qed.

Lemma clean_include_trace p path : clean_trace (include_trace p path).
Proof.
  unfold include_trace. apply clean_trace_app; [apply clean_skip_trace |].
  destruct (skip_spec p path); [split; reflexivity |].
  destruct (NoBinaryCheck (config p)); split; reflexivity.
Qed.

Lemma aborted_trace_app evs1 evs2 dir :
  clean_trace evs1 -> aborted_trace evs2 dir -> aborted_trace (evs1 ++ evs2) dir.
Proof.
  intros Hc (pre & -> & Hpre). exists (evs1 ++ pre). split.
  - rewrite app_assoc. reflexivity.
  - apply clean_trace_app; assumption.
Qed.

Lemma entries_shape p top path dirs :
  Forall (fun e => forall path, walk_shape (walk_spec p top path (snd e))) dirs ->
  walk_shape (entries_spec (walk_spec p top) path dirs).
Proof.
  induction 1 as [|[name d1] dirs Hd1 _ IH]; cbn [entries_spec].
  - split; reflexivity.
  - cbn [snd] in Hd1. specialize (Hd1 (filepath.Join path name)).
    unfold walk_shape in *.
    destruct (out_err (walk_spec p top (filepath.Join path name) d1)) as [e|];
      cbn [out_err out_trace].
    + destruct Hd1 as (dir & -> & Hab). cbn [is_SkipDir]. eauto.
    + destruct (out_err (entries_spec (walk_spec p top) path dirs)) as [e|].
      * destruct IH as (dir & -> & Hab). exists dir. split; [reflexivity |].
        apply aborted_trace_app; assumption.
      * apply clean_trace_app; assumption.
Qed.

Lemma walk_spec_shape p top d : forall path, walk_shape (walk_spec p top path d).
Proof.
  induction d as [perm content | perm entries IH | target _] using node_induction;
    intros path; cbn [walk_spec];
    [apply clean_include_trace | | apply clean_include_trace].
  - destruct (negb (String.eqb path top) && skip_spec p path);
      [apply clean_skip_trace |].
    assert (clean_trace (if negb (String.eqb path top) then skip_trace p path else []))
      as Hpre by (destruct (negb (String.eqb path top));
                  [apply clean_skip_trace | split; reflexivity]).
    destruct perm.
    + pose proof (entries_shape p top path entries IH) as Hes.
      unfold walk_shape in *. cbn [out_err out_trace].
      assert (clean_trace ((if negb (String.eqb path top) then skip_trace p path else [])
                           ++ [EvReadDir path true])) as Hpre'
        by (apply clean_trace_app; [exact Hpre | split; reflexivity]).
      destruct (out_err (entries_spec (walk_spec p top) path entries)) as [e|].
      * destruct Hes as (dir & -> & Hab). exists dir. split; [reflexivity |].
        apply aborted_trace_app; assumption.
      * apply clean_trace_app; assumption.
    + unfold walk_shape. cbn [out_err out_trace]. exists path. split; [reflexivity |].
      exists (if negb (String.eqb path top) then skip_trace p path else []).
      split; [reflexivity | exact Hpre].
Qed.

(** A walk ends with an error only at a directory it could not list:
    a root that [os.Stat] has found, [os.Lstat] finds too. *)
Lemma root_spec_shape p c :
  os_Stat c <> None -> walk_shape (root_spec p c).
Proof.
  intros Hstat. unfold root_spec.
  destruct (os_Stat c) as [info|] eqn:Hs; [|congruence].
  destruct (os_Stat_Lstat c info Hs) as (d & -> & _). apply walk_spec_shape.
Qed.

(** The log of a candidate: clean, or clean up to a failed listing that
    the warning follows at once. *)
Lemma candidate_shape p c :
  let tr := out_trace (candidate_spec p c) in
  clean_trace tr \/
  exists pre dir,
    tr = pre ++ [EvReadDir dir false; EvWarn (WarnWalk c)] /\ clean_trace pre.
Proof.
  cbv zeta. unfold candidate_spec.
  destruct (os_Stat c) as [info|] eqn:Hstat; [|left; split; reflexivity].
  destruct (negb (IsDir info)); cbn [out_trace].
  - left. apply (clean_trace_app [EvStat c]); [split; reflexivity |].
    apply clean_include_trace.
  - assert (walk_shape (root_spec p c)) as Hshape
      by (apply root_spec_shape; congruence).
    unfold walk_shape in Hshape.
    destruct (out_err (root_spec p c)) as [e|].
    + right. destruct Hshape as (dir & -> & pre & -> & Hpre).
      exists ([EvStat c; EvLstat c] ++ pre), dir. split.
      * rewrite <- !app_assoc. reflexivity.
      * apply clean_trace_app; [split; reflexivity | exact Hpre].
    + left. apply (clean_trace_app [EvStat c; EvLstat c]); [split; reflexivity |].
      rewrite app_nil_r. exact Hshape.
Qed.

Lemma In_reads_of_ReadDir f ok evs : In (EvReadDir f ok) evs -> In f (reads_of evs).
Proof.
  intros Hin. unfold reads_of. apply in_flat_map.
  exists (EvReadDir f ok). split; [exact Hin | left; reflexivity].
Qed.

Lemma In_reads_of_Open f evs : In (EvOpen f) evs -> In f (reads_of evs).
Proof.
  intros Hin. unfold reads_of. apply in_flat_map.
  exists (EvOpen f). split; [exact Hin | left; reflexivity].
Qed.

Lemma In_warnings_of w evs : In (EvWarn w) evs -> In w (warnings_of evs).
Proof.
  intros Hin. unfold warnings_of. apply in_flat_map.
  exists (EvWarn w). split; [exact Hin | left; reflexivity].
Qed.

Lemma In_observable e evs :
  In e (filter (fun e => observable e = true) evs) -> In e evs.
Proof. rewrite <- !list_elem_of_In, list_elem_of_filter. tauto. Qed.

(** The candidate's walk, as [processCandidate] runs it on a directory. *)
Lemma candidate_spec_dir p path tree :
  os_Lstat path = Some tree -> IsDir tree = true ->
  candidate_spec p path =
  let o := walk_spec p path path tree in
  {| out_files := out_files o;
     out_trace := [EvStat path; EvLstat path] ++ out_trace o ++
                  match out_err o with
                  | Some _ => [EvWarn (WarnWalk path)]
                  | None => []
                  end;
     out_err := out_err o |}.
Proof.
  intros Hlstat Hdir. unfold candidate_spec, root_spec.
  rewrite (os_Lstat_dir _ _ Hlstat Hdir), Hdir, Hlstat. reflexivity.
Qed.

(** *** The paths the filter is asked about *)

Lemma tested_of_app evs1 evs2 : tested_of (evs1 ++ evs2) = tested_of evs1 ++ tested_of evs2.
Proof. unfold tested_of. apply flat_map_app. Qed.

Lemma In_tested_of st f evs : In (EvCheck st f) evs -> In f (tested_of evs).
Proof.
  intros Hin. unfold tested_of. apply in_flat_map.
  exists (EvCheck st f). split; [exact Hin | left; reflexivity].
Qed.

Lemma tested_of_skip_trace p path f :
  In f (tested_of (skip_trace p path)) -> f = path.
Proof.
  unfold skip_trace, gitignored_trace. cbn [tested_of flat_map app]. fold tested_of.
  intros [<- | Hin]; [reflexivity |].
  destruct (isExcluded p path); [destruct Hin |].
  rewrite tested_of_app in Hin. apply in_app_iff in Hin as [Hin | Hin].
  - destruct (customIgnoreMatcher p); [destruct Hin as [<- | []]; reflexivity | destruct Hin].
  - destruct (custom_ignored p path); [destruct Hin |].
    destruct Hin as [<- | Hin]; [reflexivity |].
    destruct (NoGitignore (config p)); [destruct Hin |].
    destruct (filepath.Abs Getwd path); destruct Hin.
Qed.

Lemma tested_of_include_trace p path f :
  In f (tested_of (include_trace p path)) -> f = path.
Proof.
  unfold include_trace. rewrite tested_of_app, in_app_iff.
  intros [Hin | Hin]; [eapply tested_of_skip_trace; exact Hin |].
  destruct (skip_spec p path); [destruct Hin |].
  destruct (NoBinaryCheck (config p)); [destruct Hin |].
  destruct Hin as [<- | []]. reflexivity.
Qed.

Lemma tested_entries_cons walk path name d1 dirs f :
  In f (tested_of (out_trace (entries_spec walk path ((name, d1) :: dirs)))) <->
  In f (tested_of (out_trace (walk (filepath.Join path name) d1))) \/
  (out_err (walk (filepath.Join path name) d1) = None /\
   In f (tested_of (out_trace (entries_spec walk path dirs)))).
Proof.
  cbn [entries_spec].
  destruct (out_err (walk (filepath.Join path name) d1)); cbn [out_trace].
  - split; [auto | intros [Hin | [[=] _]]; exact Hin].
  - rewrite tested_of_app, in_app_iff. tauto.
Qed.

Lemma tested_entries_app walk path dirs1 dirs2 f :
  In f (tested_of (out_trace (entries_spec walk path (dirs1 ++ dirs2)))) ->
  In f (tested_of (out_trace (entries_spec walk path dirs1))) \/
  In f (tested_of (out_trace (entries_spec walk path dirs2))).
Proof.
  induction dirs1 as [|[name d1] dirs1 IH]; cbn [app]; [auto |].
  rewrite !tested_entries_cons. intros [Hin | [Hnone Hin]]; [auto |].
  destruct (IH Hin); auto.
Qed.

Lemma tested_leaf p top path d f :
  IsDir d = false ->
  In f (tested_of (out_trace (walk_spec p top path d))) -> f = path.
Proof.
  intros Hd. destruct d; try discriminate; cbn [walk_spec out_trace];
    apply tested_of_include_trace.
Qed.

Lemma tested_dir p top path perm entries f :
  In f (tested_of (out_trace (walk_spec p top path (Dir perm entries)))) ->
  f = path \/
  In f (tested_of (out_trace (entries_spec (walk_spec p top) path entries))).
Proof.
  cbn [walk_spec].
  destruct (negb (String.eqb path top) && skip_spec p path); cbn [out_trace].
  - intros Hin. left. eapply tested_of_skip_trace. exact Hin.
  - assert (forall g,
              In g (tested_of ((if negb (String.eqb path top)
                                then skip_trace p path else [])
                               ++ [EvReadDir path perm])) -> g = path) as Hpre.
    { intros g. rewrite tested_of_app, in_app_iff. intros [Hin | []].
      destruct (negb (String.eqb path top)); [|destruct Hin].
      eapply tested_of_skip_trace. exact Hin. }
    destruct perm; cbn [out_trace].
    + rewrite tested_of_app, in_app_iff. intros [Hin | Hin]; auto.
    + auto.
Qed.

(** Of a node that stages 1 to 3 exclude, below the candidate, the
    filter is asked about the node itself only. *)
Lemma tested_pruned p top path d f :
  path <> top -> skip_spec p path = true ->
  In f (tested_of (out_trace (walk_spec p top path d))) -> f = path.
Proof.
  intros Hne Hskip. apply String.eqb_neq in Hne.
  destruct d as [perm content | perm entries | target];
    [apply tested_leaf; reflexivity | | apply tested_leaf; reflexivity].
  cbn [walk_spec]. rewrite Hne, Hskip. cbn [negb andb out_trace].
  apply tested_of_skip_trace.
Qed.

Lemma tested_entries_paths p top path dirs f :
  Forall (fun e => forall path f,
            In f (tested_of (out_trace (walk_spec p top path (snd e)))) ->
            In f (tree_paths path (snd e))) dirs ->
  In f (tested_of (out_trace (entries_spec (walk_spec p top) path dirs))) ->
  In f (entries_paths tree_paths path dirs).
Proof.
  induction 1 as [|[name d1] dirs Hd1 _ IH].
  - intros [].
  - rewrite tested_entries_cons. cbn [entries_paths snd] in *. rewrite in_app_iff.
    intros [Hin | [_ Hin]]; [left; apply Hd1; exact Hin | right; apply IH; exact Hin].
Qed.

(** A walk asks the filter about paths of its own tree only. *)
Lemma tested_tree_paths p top d : forall path f,
  In f (tested_of (out_trace (walk_spec p top path d))) -> In f (tree_paths path d).
Proof.
  induction d as [perm content | perm entries IH | target _] using node_induction;
    intros path f Hin.
  - apply tested_leaf in Hin as ->; [|reflexivity]. left. reflexivity.
  - apply tested_dir in Hin as [-> | Hin]; [left; reflexivity |].
    right. cbn [tree_paths]. eapply tested_entries_paths; eassumption.
  - apply tested_leaf in Hin as ->; [|reflexivity]. left. reflexivity.
Qed.

(** Below a candidate, of what lies under an excluded node the filter is
    asked about the node itself only, provided the paths of the tree
    are pairwise different. *)
Lemma pruned_untested p top D Dn path d :
  descends path d D Dn ->
  List.NoDup (tree_paths path d) ->
  D <> top -> skip_spec p D = true ->
  forall f, In f (tested_of (out_trace (walk_spec p top path d))) ->
            In f (tree_paths D Dn) -> f = D.
Proof.
  intros Hdesc. induction Hdesc as [path perm entries name d1 Hin
                 | path perm entries name d1 path' d' Hin Hdesc IH];
    intros Hnd Htop Hskip f Hf HfD.
  - pose proof (descends_below _ _ _ _ (descends_entry path perm entries name d1 Hin))
      as (? & ? & [= <- <-] & Hbelow).
    rewrite tree_paths_entries in Hnd. apply List.NoDup_cons_iff in Hnd as [Hpath Hnd].
    apply tested_dir in Hf as [-> | Hf]; [exfalso; apply Hpath, Hbelow, HfD |].
    apply in_split in Hin as (l1 & l2 & ->).
    apply NoDup_entries_split in Hnd as (_ & Hl1 & Hl2).
    apply tested_entries_app in Hf as [Hf | Hf].
    + exfalso. apply (Hl1 f); [|exact HfD]. eapply tested_entries_paths; [|exact Hf].
      apply Forall_forall. intros e _. apply tested_tree_paths.
    + apply tested_entries_cons in Hf as [Hf | [_ Hf]].
      * eapply tested_pruned; eassumption.
      * exfalso. apply (Hl2 f); [|exact HfD]. eapply tested_entries_paths; [|exact Hf].
        apply Forall_forall. intros e _. apply tested_tree_paths.
  - pose proof (descends_below _ _ _ _
                  (descends_deeper path perm entries name d1 path' d' Hin Hdesc))
      as (? & ? & [= <- <-] & Hbelow).
    pose proof (descends_below _ _ _ _ Hdesc) as (perm1 & entries1 & -> & Hbelow1).
    rewrite tree_paths_entries in Hnd. apply List.NoDup_cons_iff in Hnd as [Hpath Hnd].
    apply tested_dir in Hf as [-> | Hf]; [exfalso; apply Hpath, Hbelow, HfD |].
    apply in_split in Hin as (l1 & l2 & ->).
    apply NoDup_entries_split in Hnd as (Hnd1 & Hl1 & Hl2).
    assert (forall g, In g (tree_paths path' d') ->
                      In g (tree_paths (filepath.Join path name) (Dir perm1 entries1)))
      as Hsub by (intros g Hg; rewrite tree_paths_entries; right; apply Hbelow1, Hg).
    apply tested_entries_app in Hf as [Hf | Hf].
    + exfalso. apply (Hl1 f); [|apply Hsub, HfD].
      eapply tested_entries_paths; [|exact Hf].
      apply Forall_forall. intros e _. apply tested_tree_paths.
    + apply tested_entries_cons in Hf as [Hf | [_ Hf]].
      * apply IH; assumption.
      * exfalso. apply (Hl2 f); [|apply Hsub, HfD].
        eapply tested_entries_paths; [|exact Hf].
        apply Forall_forall. intros e _. apply tested_tree_paths.
Qed.

(** *** The loads of a .gitignore *)

Lemma explains_refl s : explains s s.
Proof. exists []. rewrite app_nil_r. split; [reflexivity | intros g []]. Qed.

Lemma explains_trans s1 s2 s3 : explains s1 s2 -> explains s2 s3 -> explains s1 s3.
Proof.
  intros (evs1 & Hl1 & He1) (evs2 & Hl2 & He2). exists (evs1 ++ evs2). split.
  - rewrite Hl2, Hl1, app_assoc. reflexivity.
  - intros g [Hin | Hin]%in_app_iff.
    + destruct (He1 g Hin) as (t & a & dir & Ht & Hrest).
      exists t, a, dir. split; [apply in_app_iff; auto | exact Hrest].
    + destruct (He2 g Hin) as (t & a & dir & Ht & Hrest).
      exists t, a, dir. split; [apply in_app_iff; auto | exact Hrest].
Qed.

Lemma explains_log s e : observable e = true ->
  explains s {| ignoreMatcherCache := ignoreMatcherCache s;
                finalFiles := finalFiles s;
                log := log s ++ [e];
                ranged := ranged s |}.
Proof.
  intros He. exists [e]. split; [reflexivity |].
  intros g [Heq | []]. subst e. discriminate.
Qed.

Lemma explains_files s F n :
  explains s {| ignoreMatcherCache := ignoreMatcherCache s;
                finalFiles := F;
                log := log s;
                ranged := n |}.
Proof. exists []. cbn [log]. rewrite app_nil_r. split; [reflexivity | intros g []]. Qed.

(** Stage 3 loads for the path it is asked about. *)
Lemma explains_isGitignored p path :
  keeps explains (emit (EvCheck StageGitignore path) >>> isGitignored p path).
Proof.
  intros s b s' Hrun. apply run_bind in Hrun as ([] & s1 & Hemit & Hrun).
  injection Hemit as <-.
  destruct (isGitignored_log _ _ _ _ _ Hrun) as (git & Hl & Hall & _).
  exists (EvCheck StageGitignore path :: git). split.
  - rewrite Hl. cbn [log]. rewrite <- app_assoc. reflexivity.
  - intros g [Hin | Hin]; [discriminate |].
    rewrite List.Forall_forall in Hall.
    destruct (Hall _ Hin) as (a & Ha & [Hst | (dir & Hdir & Hld)]); [discriminate |].
    injection Hld as ->. exists path, a, dir. split_and!; auto. left. reflexivity.
Qed.

(** C3, as the code has it.  Let [D] be a directory that the walk of the
    expanded input [c] meets below [c] and that stages 1 to 3 exclude,
    in a tree whose paths are pairwise different.

    The walk of [c] leaves [D] alone: it adds no path of [D]'s subtree
    to the result, lists neither [D] nor a directory under it, opens no
    file under it for its content, and asks the filter about no path of
    the subtree but [D] itself; if it ends with a warning, the directory
    that could not be listed lies outside the subtree, so an excluded
    directory without permissions causes none.  One file under [D] can
    be looked for all the same: every .gitignore the walk loads is that
    of a directory on the way up from a path it asks the filter about,
    and stage 3, asked about [D], starts its ascent at [D].

    The result of the run is what all the expanded inputs add: it holds
    a path of [D]'s subtree exactly when another expanded input adds
    it, for instance the file itself given as an input, which is
    filtered on its own path only. *)
Theorem C3_pruned_directory p paths c tree D perm entries s :
  cache_ok s ->
  c ∈ expand_spec paths ->
  os_Lstat c = Some tree ->
  List.NoDup (tree_paths c tree) ->
  descends c tree D (Dir perm entries) ->
  skip_spec p D = true ->
  (forall s1, cache_ok s1 ->
     exists s2 evs,
       processCandidate p c s1 = Some (tt, s2) /\
       log s2 = log s1 ++ evs /\
       (forall f, In f (tree_paths D (Dir perm entries)) ->
          (f ∈ finalFiles s2 -> f ∈ finalFiles s1) /\
          (forall ok, ~ In (EvReadDir f ok) evs) /\
          ~ In (EvOpen f) evs /\
          (forall st, In (EvCheck st f) evs -> f = D)) /\
       (forall g, In (EvLoadIgnore g) evs ->
          exists t a dir,
            In t (tree_paths c tree) /\
            (In t (tree_paths D (Dir perm entries)) -> t = D) /\
            filepath.Abs Getwd t = Some a /\
            on_chain (start_dir a) dir /\
            g = filepath.Join dir ".gitignore") /\
       (forall w, In (EvWarn w) evs ->
          exists dir, In (EvReadDir dir false) evs /\
                      ~ In dir (tree_paths D (Dir perm entries)))) /\
  (exists files s',
     ProcessPaths p paths s = Some (files, s') /\
     forall f, In f (tree_paths D (Dir perm entries)) ->
       (In f files <->
        exists c', c' ∈ expand_spec paths /\ c' <> c /\
                   In f (out_files (candidate_spec p c')))).
Proof.
  intros Hok Hc Hlstat Hnd Hdesc Hskip.
  assert (IsDir tree = true) as Hdir
    by (destruct (descends_below _ _ _ _ Hdesc) as (? & ? & -> & _); reflexivity).
  assert (D <> c) as Htop.
  { destruct (descends_below _ _ _ _ Hdesc) as (perm0 & entries0 & -> & Hbelow).
    rewrite tree_paths_entries in Hnd. apply List.NoDup_cons_iff in Hnd as [Hpath _].
    intros <-. apply Hpath, Hbelow. left. reflexivity. }
  set (o := walk_spec p c c tree).
  pose proof (pruned_untouched p c D (Dir perm entries) c tree
                Hdesc Hnd Htop Hskip) as Hun. fold o in Hun.
  pose proof (pruned_untested p c D (Dir perm entries) c tree
                Hdesc Hnd Htop Hskip) as Hut. fold o in Hut.
  assert (forall f, In f (tree_paths D (Dir perm entries)) ->
                    ~ In f (out_files (candidate_spec p c))) as Hnone.
  { intros f HfD Hin. rewrite (candidate_spec_dir p c tree Hlstat Hdir) in Hin.
    cbv zeta in Hin. cbn [out_files] in Hin. fold o in Hin.
    apply (Hun f); [|exact HfD]. unfold touched. apply in_app_iff. auto. }
  split.
  - intros s1 Hok1.
    destruct (refines_processCandidate p c s1 Hok1)
      as (s2 & evs & Hrun & _ & Hf & Hl & Ht).
    assert (explains s1 s2) as (evs' & Hl' & Hex).
    { eapply (keeps_processCandidate explains); eauto using
        explains_refl, explains_trans, explains_log, explains_files,
        explains_isGitignored. }
    assert (evs' = evs) as -> by (rewrite Hl in Hl'; apply app_inv_head in Hl'; auto).
    rewrite (candidate_spec_dir p c tree Hlstat Hdir) in Ht.
    cbv zeta in Ht. cbn [out_trace] in Ht. fold o in Ht.
    assert (forall e, In e evs -> observable e = true ->
                      In e (out_trace o) \/ e = EvStat c \/ e = EvLstat c \/
                      e = EvWarn (WarnWalk c)) as Hwhere.
    { intros e Hin Hobs. pose proof (observable_In e evs Hobs Hin) as Hin'.
      rewrite Ht in Hin'. cbn [app] in Hin'.
      destruct Hin' as [<- | [<- | Hin']]; auto.
      apply in_app_iff in Hin' as [Hin' | Hin']; auto.
      destruct (out_err o); [destruct Hin' as [<- | []]; auto | destruct Hin']. }
    exists s2, evs. split_and!; auto.
    + intros f HfD. split_and!.
      * rewrite Hf, elem_of_union, elem_of_list_to_set, list_elem_of_In.
        intros [Hin | Hin]; [|exact Hin]. exfalso. exact (Hnone f HfD Hin).
      * intros ok Hin. destruct (Hwhere _ Hin eq_refl) as [Hin' | [? | [? | ?]]];
          try discriminate.
        apply (Hun f); [|exact HfD]. unfold touched. apply in_app_iff. right.
        eapply In_reads_of_ReadDir. exact Hin'.
      * intros Hin. destruct (Hwhere _ Hin eq_refl) as [Hin' | [? | [? | ?]]];
          try discriminate.
        apply (Hun f); [|exact HfD]. unfold touched. apply in_app_iff. right.
        apply In_reads_of_Open. exact Hin'.
      * intros st Hin. destruct (Hwhere _ Hin eq_refl) as [Hin' | [? | [? | ?]]];
          try discriminate.
        apply (Hut f); [|exact HfD]. eapply In_tested_of. exact Hin'.
    + intros g Hg. destruct (Hex g Hg) as (t & a & dir & Hin & Ha & Hchain & ->).
      destruct (Hwhere _ Hin eq_refl) as [Hin' | [? | [? | ?]]]; try discriminate.
      apply In_tested_of in Hin'.
      exists t, a, dir. split_and!; auto.
      apply (tested_tree_paths p c tree c t Hin').
    + intros w Hw.
      pose proof (walk_spec_shape p c tree c) as Hshape.
      unfold walk_shape in Hshape. fold o in Hshape.
      destruct (out_err o) as [e|] eqn:He.
      * destruct Hshape as (dir & -> & pre & Hpre & _).
        assert (In (EvReadDir dir false) (out_trace o)) as Hin
          by (rewrite Hpre; apply in_app_iff; right; left; reflexivity).
        exists dir. split.
        -- apply In_observable. rewrite Ht. cbn [app]. right. right.
           apply in_app_iff. left. exact Hin.
        -- apply Hun. unfold touched. apply in_app_iff. right.
           eapply In_reads_of_ReadDir. exact Hin.
      * exfalso. destruct (Hwhere _ Hw eq_refl) as [Hin' | [? | [? | Heq]]];
          try discriminate.
        -- destruct Hshape as [_ Hnow]. apply In_warnings_of in Hin'.
           rewrite Hnow in Hin'. destruct Hin'.
        -- pose proof (observable_In (EvWarn w) evs eq_refl Hw) as Hin'.
           rewrite Ht in Hin'.
           cbn [app] in Hin'. rewrite app_nil_r in Hin'.
           destruct Hin' as [? | [? | Hin']]; try discriminate.
           destruct Hshape as [_ Hnow]. apply In_warnings_of in Hin'.
           rewrite Hnow in Hin'. destruct Hin'.
  - destruct (ProcessPaths_run p paths s Hok)
      as (order & files & s' & evs & _ & Hfiles & Hrun & _).
    exists files, s'. split; [exact Hrun |].
    intros f HfD.
    rewrite <- list_elem_of_In, Hfiles, elem_of_elements, elem_of_resolved. split.
    + intros (c' & Hc' & Hin). exists c'. split_and!; auto.
      intros ->. exact (Hnone f HfD Hin).
    + intros (c' & Hc' & _ & Hin). eauto.
Qed.

(** C5, as the code has it.  Every path the inputs expand to is
    processed on its own, each match of a pattern as well, in an order
    that is not fixed; the files of the run are what the expanded
    inputs contribute one by one.  The observable log of an expanded
    input is clean, or it is clean up to the failed listing of a
    directory, which the one warning for that expanded input follows at
    once: the callback hands the error back, so [WalkDir] gives up the
    rest of that walk.  The files the walk had added before stay in the
    result, and the run goes on with the next expanded input and
    succeeds. *)
Theorem C5_unreadable_directory_abandons_walk p paths s :
  cache_ok s ->
  (exists order files s' evs,
      order ≡ₚ elements (expand_spec paths) /\
      ProcessPaths p paths s = Some (files, s') /\
      log s' = log s ++ evs /\
      filter (fun e => observable e = true) evs =
        expand_trace paths ++
        flat_map (fun c => out_trace (candidate_spec p c)) order /\
      (forall f, In f files <->
         exists c, c ∈ expand_spec paths /\ In f (out_files (candidate_spec p c)))) /\
  (forall c s1, cache_ok s1 ->
     exists s2 evs,
       processCandidate p c s1 = Some (tt, s2) /\
       cache_ok s2 /\
       finalFiles s2 = list_to_set (out_files (candidate_spec p c)) ∪ finalFiles s1 /\
       log s2 = log s1 ++ evs /\
       filter (fun e => observable e = true) evs = out_trace (candidate_spec p c) /\
       ((clean_trace (out_trace (candidate_spec p c)) /\ warnings_of evs = []) \/
        exists pre dir,
          out_trace (candidate_spec p c) =
            pre ++ [EvReadDir dir false; EvWarn (WarnWalk c)] /\
          clean_trace pre /\ warnings_of evs = [WarnWalk c])).
Proof.
  intros Hok. split.
  - destruct (ProcessPaths_run p paths s Hok)
      as (order & files & s' & evs & Horder & Hfiles & Hrun & _ & _ & Hl & Ht).
    exists order, files, s', evs. split_and!; auto.
    intros f. rewrite <- list_elem_of_In, Hfiles, elem_of_elements.
    apply elem_of_resolved.
  - intros c s1 Hok1.
    destruct (refines_processCandidate p c s1 Hok1)
      as (s2 & evs & Hrun & Hok2 & Hf & Hl & Ht).
    exists s2, evs. split_and!; auto.
    rewrite <- (warnings_of_observable evs), Ht.
    destruct (candidate_shape p c) as [Hclean | (pre & dir & Htr & Hpre)].
    + left. split; [exact Hclean | apply Hclean].
    + right. exists pre, dir. split_and!; auto.
      rewrite Htr, warnings_of_app. destruct Hpre as [_ ->]. reflexivity.
Qed.

End Pruning.

(* ------------------------------------------------------------------ *)
(** ** Non-recursive mode *)
(* ------------------------------------------------------------------ *)

Section NonRecursive.
Context `{Env}.

Lemma skip_same_filter p1 p2 path :
  same_filter p1 p2 ->
  skip_spec p1 path = skip_spec p2 path /\ skip_trace p1 path = skip_trace p2 path.
Proof.
  intros (Hg & He & _ & Hc).
  unfold skip_spec, skip_trace, isExcluded, custom_ignored, gitignored, gitignored_trace.
  rewrite Hg, He, Hc. auto.
Qed.

Lemma include_same_filter p1 p2 path :
  same_filter p1 p2 ->
  include_spec p1 path = include_spec p2 path /\
  include_trace p1 path = include_trace p2 path.
Proof.
  intros Hsame. destruct (skip_same_filter p1 p2 path Hsame) as [Hs Ht].
  destruct Hsame as (_ & _ & Hb & _).
  unfold include_spec, include_trace, binary_spec. rewrite Hs, Ht, Hb. auto.
Qed.

Lemma entries_spec_ext walk1 walk2 path dirs :
  Forall (fun e => forall path, walk1 path (snd e) = walk2 path (snd e)) dirs ->
  entries_spec walk1 path dirs = entries_spec walk2 path dirs.
Proof.
  induction 1 as [|[name d1] dirs Hd1 _ IH]; cbn [entries_spec]; [reflexivity |].
  cbn [snd] in Hd1. rewrite Hd1, IH. reflexivity.
Qed.

Lemma walk_spec_same_filter p1 p2 top d :
  same_filter p1 p2 -> forall path, walk_spec p1 top path d = walk_spec p2 top path d.
Proof.
  intros Hsame.
  induction d as [perm content | perm entries IH | target _] using node_induction;
    intros path; cbn [walk_spec].
  - destruct (include_same_filter p1 p2 path Hsame) as [-> ->]. reflexivity.
  - destruct (skip_same_filter p1 p2 path Hsame) as [-> ->].
    rewrite (entries_spec_ext _ _ path entries IH). reflexivity.
  - destruct (include_same_filter p1 p2 path Hsame) as [-> ->]. reflexivity.
Qed.

Lemma candidate_spec_same_filter p1 p2 c :
  same_filter p1 p2 -> candidate_spec p1 c = candidate_spec p2 c.
Proof.
  intros Hsame. unfold candidate_spec, root_spec.
  destruct (os_Stat c) as [info|]; [|reflexivity].
  destruct (include_same_filter p1 p2 c Hsame) as [-> ->].
  destruct (os_Lstat c) as [d|]; [|reflexivity].
  rewrite (walk_spec_same_filter p1 p2 c d Hsame). reflexivity.
Qed.

Lemma resolved_NoRecursive b cfg paths :
  resolved (New_spec (with_NoRecursive b cfg)) paths = resolved (New_spec cfg) paths.
Proof.
  unfold resolved. f_equal. apply flat_map_ext. intros c. f_equal.
  apply candidate_spec_same_filter. repeat split.
Qed.

(** The value of [NoRecursive] never reaches the walk: a run returns the
    same files whatever it is, and whatever the state it starts in. *)
Theorem NoRecursive_has_no_effect b cfg paths s s0 :
  exists files s1 s2,
    resolvePaths cfg paths s = Some (files, s1) /\
    resolvePaths (with_NoRecursive b cfg) paths s0 = Some (files, s2).
Proof.
  destruct (resolvePaths_run cfg paths s) as (?order & s1 & evs1 & ?Horder & Hrun1 & _).
  destruct (resolvePaths_run (with_NoRecursive b cfg) paths s0)
    as (?order & s2 & evs2 & ?Horder & Hrun2 & _).
  rewrite resolved_NoRecursive in Hrun2. eauto.
Qed.

End NonRecursive.

(* ------------------------------------------------------------------ *)
(** ** Further properties of the code *)
(* ------------------------------------------------------------------ *)

Section CacheUse.
Context `{Env}.

Lemma loads_app evs1 evs2 : loads (evs1 ++ evs2) = loads evs1 ++ loads evs2.
Proof. apply flat_map_app. Qed.

Lemma loaded_once_refl s : loaded_once s s.
Proof.
  exists [], []. split_and!.
  - constructor.
  - intros d Hd. inversion Hd.
  - set_solver.
  - rewrite app_nil_r. reflexivity.
  - reflexivity.
Qed.

Lemma loaded_once_trans s1 s2 s3 :
  loaded_once s1 s2 -> loaded_once s2 s3 -> loaded_once s1 s3.
Proof.
  intros (dirs1 & evs1 & Hnd1 & Hnew1 & Hdom1 & Hl1 & Hld1)
         (dirs2 & evs2 & Hnd2 & Hnew2 & Hdom2 & Hl2 & Hld2).
  exists (dirs1 ++ dirs2), (evs1 ++ evs2). split_and!.
  - apply NoDup_app. split_and!; auto.
    intros d Hd1 Hd2. apply Hnew2 in Hd2. apply not_elem_of_dom in Hd2.
    apply Hd2. rewrite Hdom1. set_solver.
  - intros d Hd. apply elem_of_app in Hd as [Hd | Hd]; [auto |].
    apply Hnew2 in Hd. apply not_elem_of_dom in Hd. apply not_elem_of_dom.
    intros Hin. apply Hd. rewrite Hdom1. set_solver.
  - rewrite Hdom2, Hdom1, list_to_set_app_L. set_solver.
  - rewrite Hl2, Hl1, app_assoc. reflexivity.
  - rewrite loads_app, Hld1, Hld2, map_app. reflexivity.
Qed.

Lemma loaded_once_log s e : observable e = true ->
  loaded_once s {| ignoreMatcherCache := ignoreMatcherCache s;
                   finalFiles := finalFiles s;
                   log := log s ++ [e];
                   ranged := ranged s |}.
Proof.
  intros He. exists [], [e]. split_and!; simpl.
  - constructor.
  - intros d Hd. inversion Hd.
  - set_solver.
  - reflexivity.
  - destruct e; try reflexivity. discriminate.
Qed.

Lemma loaded_once_files s F n :
  loaded_once s {| ignoreMatcherCache := ignoreMatcherCache s;
                   finalFiles := F;
                   log := log s;
                   ranged := n |}.
Proof.
  exists [], []. split_and!; simpl.
  - constructor.
  - intros d Hd. inversion Hd.
  - set_solver.
  - rewrite app_nil_r. reflexivity.
  - reflexivity.
Qed.

Lemma loaded_once_getGitignoreMatcher dir :
  keeps loaded_once (getGitignoreMatcher dir).
Proof.
  intros s m s'. unfold getGitignoreMatcher, bind, cache_get.
  destruct (ignoreMatcherCache s !! dir) as [v|] eqn:Hc.
  - intros [= _ <-]. apply loaded_once_refl.
  - unfold emit, cache_put.
    intros Hrun.
    assert (ignoreMatcherCache s' =
              <[dir := CompileIgnoreFile (filepath.Join dir ".gitignore")]>
                (ignoreMatcherCache s) /\
            log s' = log s ++ [EvLoadIgnore (filepath.Join dir ".gitignore")])
      as [Hcache Hlog].
    { destruct (CompileIgnoreFile (filepath.Join dir ".gitignore"));
        injection Hrun as _ <-; split; reflexivity. }
    exists [dir], [EvLoadIgnore (filepath.Join dir ".gitignore")]. split_and!.
    + apply NoDup_singleton.
    + intros d Hd. apply list_elem_of_singleton in Hd as ->. exact Hc.
    + rewrite Hcache, dom_insert_L. set_solver.
    + exact Hlog.
    + reflexivity.
Qed.

Lemma loaded_once_ascend absPath fuel : forall dir,
  keeps loaded_once (ascend fuel absPath dir).
Proof.
  induction fuel as [|fuel IH]; intros dir; cbn [ascend].
  - intros s a s'. discriminate.
  - apply keeps_bind; [apply loaded_once_trans | apply loaded_once_getGitignoreMatcher |].
    assert (keeps loaded_once
              (if String.eqb (filepath.Dir dir) dir then ret false
               else ascend fuel absPath (filepath.Dir dir))) as Hnext.
    { destruct (String.eqb (filepath.Dir dir) dir);
        [apply keeps_ret, loaded_once_refl | apply IH]. }
    intros [matcher|]; [|exact Hnext].
    destruct (filepath.Rel dir absPath) as [r|]; [|apply IH].
    destruct (MatchesPath matcher (filepath.ToSlash r));
      [apply keeps_ret, loaded_once_refl | exact Hnext].
Qed.

Lemma loaded_once_isGitignored p path :
  keeps loaded_once (emit (EvCheck StageGitignore path) >>> isGitignored p path).
Proof.
  apply keeps_bind; [apply loaded_once_trans | |intros _].
  { apply keeps_emit; [apply loaded_once_log | reflexivity]. }
  unfold isGitignored.
  destruct (NoGitignore (config p)); [apply keeps_ret, loaded_once_refl |].
  destruct (filepath.Abs Getwd path) as [a|]; [|apply keeps_ret, loaded_once_refl].
  apply keeps_bind; [apply loaded_once_trans | |intros _; apply loaded_once_ascend].
  apply keeps_emit; [apply loaded_once_log | reflexivity].
Qed.

Lemma nothing_loaded_refl s : nothing_loaded s s.
Proof. split; [reflexivity |]. exists []. rewrite app_nil_r. auto. Qed.

Lemma nothing_loaded_trans s1 s2 s3 :
  nothing_loaded s1 s2 -> nothing_loaded s2 s3 -> nothing_loaded s1 s3.
Proof.
  intros (Hc1 & evs1 & Hl1 & Hld1) (Hc2 & evs2 & Hl2 & Hld2).
  split; [congruence |]. exists (evs1 ++ evs2).
  rewrite Hl2, Hl1, app_assoc, loads_app, Hld1, Hld2. auto.
Qed.

Lemma nothing_loaded_log s e : observable e = true ->
  nothing_loaded s {| ignoreMatcherCache := ignoreMatcherCache s;
                      finalFiles := finalFiles s;
                      log := log s ++ [e];
                      ranged := ranged s |}.
Proof.
  intros He. split; [reflexivity |]. exists [e]. split; [reflexivity |].
  destruct e; try reflexivity. discriminate.
Qed.

Lemma nothing_loaded_files s F n :
  nothing_loaded s {| ignoreMatcherCache := ignoreMatcherCache s;
                      finalFiles := F;
                      log := log s;
                      ranged := n |}.
Proof. split; [reflexivity |]. exists []. simpl. rewrite app_nil_r. auto. Qed.

(** X1. [getGitignoreMatcher] always returns, and remembers what it
    found for the directory, also that there is no .gitignore: the cache
    then holds the answer for [dir] and is otherwise as before, and a
    second call gives the same answer from the cache, without a load and
    without a change of the state. *)
Theorem X1_getGitignoreMatcher_caches dir s :
  exists m s1,
    getGitignoreMatcher dir s = Some (m, s1) /\
    ignoreMatcherCache s1 !! dir = Some m /\
    (forall dir', dir' <> dir ->
       ignoreMatcherCache s1 !! dir' = ignoreMatcherCache s !! dir') /\
    getGitignoreMatcher dir s1 = Some (m, s1).
Proof.
  unfold getGitignoreMatcher at 1. unfold bind at 1. unfold cache_get at 1.
  destruct (ignoreMatcherCache s !! dir) as [v|] eqn:Hc.
  - exists v, s. split_and!; auto.
    unfold getGitignoreMatcher, bind, cache_get. rewrite Hc. reflexivity.
  - unfold bind, emit, cache_put.
    destruct (CompileIgnoreFile (filepath.Join dir ".gitignore")) as [m|];
      eexists _, _; (split; [reflexivity |]); simpl;
      (split_and!;
       [ apply lookup_insert_eq
       | intros dir' Hne; apply lookup_insert_ne; congruence
       | unfold getGitignoreMatcher, bind, cache_get; simpl;
         rewrite lookup_insert_eq; reflexivity ]).
Qed.

(** X2. In a call of [ProcessPaths], the .gitignore of a directory is
    loaded at most once, and never for a directory the cache already
    holds: the loads the log gets are those of the directories the cache
    gets, one for each, in the same order. *)
Theorem X2_gitignore_loaded_once_per_directory p paths s :
  cache_ok s ->
  exists files s',
    ProcessPaths p paths s = Some (files, s') /\
    loaded_once s s'.
Proof.
  intros Hok.
  destruct (ProcessPaths_run p paths s Hok)
    as (order & files & s' & evs & _ & _ & Hrun & _).
  eexists _, s'. split; [exact Hrun |].
  eapply (keeps_ProcessPaths loaded_once); eauto using
    loaded_once_refl, loaded_once_trans, loaded_once_log, loaded_once_files,
    loaded_once_isGitignored.
Qed.

(** X3. With [NoGitignore] set, a call of [ProcessPaths] looks for no
    .gitignore at all: no load is logged and the matcher cache is left
    as it was. *)
Theorem X3_no_gitignore_nothing_loaded p paths s :
  cache_ok s ->
  NoGitignore (config p) = true ->
  exists files s',
    ProcessPaths p paths s = Some (files, s') /\
    nothing_loaded s s'.
Proof.
  intros Hok Hno.
  destruct (ProcessPaths_run p paths s Hok)
    as (order & files & s' & evs & _ & _ & Hrun & _).
  eexists _, s'. split; [exact Hrun |].
  eapply (keeps_ProcessPaths nothing_loaded); eauto using
    nothing_loaded_refl, nothing_loaded_trans, nothing_loaded_log, nothing_loaded_files.
  intros path.
  apply keeps_bind; [apply nothing_loaded_trans | |intros _].
  { apply keeps_emit; [apply nothing_loaded_log | reflexivity]. }
  unfold isGitignored. rewrite Hno.
  apply keeps_ret, nothing_loaded_refl.
Qed.

End CacheUse.

Section WalkResult.
Context `{Env}.

Lemma kept_entries_sound p top path dirs f :
  Forall (fun e => forall path' f, In f (kept p top path' (snd e)) ->
            include_spec p f = true /\ In f (file_paths path' (snd e))) dirs ->
  In f (entries_paths (kept p top) path dirs) ->
  include_spec p f = true /\ In f (entries_paths file_paths path dirs).
Proof.
  induction 1 as [|[name d1] dirs Hd1 _ IH]; cbn [entries_paths]; [intros [] |].
  rewrite !in_app_iff. intros [Hin | Hin].
  - destruct (Hd1 _ _ Hin). auto.
  - destruct (IH Hin). auto.
Qed.

(** What is kept passed the filter and is a path of the tree that is
    not a directory's. *)
Lemma kept_sound p top d : forall path f,
  In f (kept p top path d) ->
  include_spec p f = true /\ In f (file_paths path d).
Proof.
  assert (forall path f,
            In f (if include_spec p path then [path] else []) ->
            include_spec p f = true /\ In f [path]) as Hleaf.
  { intros path f. destruct (include_spec p path) eqn:Hinc; [|intros []].
    intros [<- | []]. split; [exact Hinc | left; reflexivity]. }
  induction d as [perm content | perm entries IH | target _] using node_induction;
    intros path f; cbn [kept file_paths]; [apply Hleaf | | apply Hleaf].
  destruct (negb (String.eqb path top) && skip_spec p path); [intros [] |].
  apply kept_entries_sound. exact IH.
Qed.

Lemma walk_entries_prefix p top path dirs :
  Forall (fun e => forall path',
            exists rest,
              kept p top path' (snd e) =
                out_files (walk_spec p top path' (snd e)) ++ rest /\
              (out_err (walk_spec p top path' (snd e)) = None -> rest = [])) dirs ->
  exists rest,
    entries_paths (kept p top) path dirs =
      out_files (entries_spec (walk_spec p top) path dirs) ++ rest /\
    (out_err (entries_spec (walk_spec p top) path dirs) = None -> rest = []).
Proof.
  induction 1 as [|[name d1] dirs Hd1 _ IH]; cbn [entries_paths entries_spec].
  - exists []. auto.
  - cbn [snd] in Hd1. destruct (Hd1 (filepath.Join path name)) as (rest1 & Hk1 & Hr1).
    destruct IH as (rest2 & Hk2 & Hr2). rewrite Hk1.
    destruct (out_err (walk_spec p top (filepath.Join path name) d1)) as [e|] eqn:He;
      cbn [out_files out_err].
    + exists (rest1 ++ entries_paths (kept p top) path dirs). split.
      * rewrite app_assoc. reflexivity.
      * pose proof (walk_spec_err _ _ _ _ _ He) as Hskip.
        destruct e; discriminate.
    + rewrite (Hr1 eq_refl), app_nil_r, Hk2. exists rest2. split.
      * rewrite app_assoc. reflexivity.
      * exact Hr2.
Qed.

(** The files of a walk are the first of the files to keep, and all of
    them when the walk ends without an error. *)
Lemma walk_prefix p top d : forall path,
  exists rest,
    kept p top path d = out_files (walk_spec p top path d) ++ rest /\
    (out_err (walk_spec p top path d) = None -> rest = []).
Proof.
  induction d as [perm content | perm entries IH | target _] using node_induction;
    intros path; cbn [kept walk_spec].
  - exists []. cbn [out_files]. rewrite app_nil_r. auto.
  - destruct (negb (String.eqb path top) && skip_spec p path); cbn [out_files out_err].
    + exists []. auto.
    + destruct perm; cbn [out_files out_err].
      * apply walk_entries_prefix. exact IH.
      * exists (entries_paths (kept p top) path entries). split; [reflexivity |].
        discriminate.
  - exists []. cbn [out_files]. rewrite app_nil_r. auto.
Qed.

(** For an expanded input that exists: [os.Stat] takes it for a
    directory when it is one or a link to one, and [WalkDir] hands a
    link to the callback as it is. *)
Lemma candidate_prefix p c d :
  os_Lstat c = Some d -> os_Stat c <> None ->
  exists rest,
    kept p c c d = out_files (candidate_spec p c) ++ rest /\
    (out_err (candidate_spec p c) = None -> rest = []).
Proof.
  intros Hlstat Hstat. unfold candidate_spec, root_spec.
  destruct (os_Stat c) as [info|] eqn:Hs; [|congruence].
  rewrite Hlstat.
  destruct (IsDir info) eqn:Hdir; cbn [negb out_files out_err]; [apply walk_prefix |].
  assert (IsDir d = false) as Hd.
  { destruct d as [? ? | perm entries | ?]; try reflexivity.
    rewrite (os_Lstat_dir _ _ Hlstat eq_refl) in Hs. injection Hs as <-. discriminate. }
  exists []. rewrite app_nil_r. split; [|auto].
  destruct d; try discriminate; reflexivity.
Qed.

Lemma warnings_of_flat_map {A} (f : A -> list event) l :
  warnings_of (flat_map f l) = flat_map (fun x => warnings_of (f x)) l.
Proof.
  induction l as [|x l IH]; [reflexivity |].
  cbn [flat_map]. rewrite warnings_of_app, IH. reflexivity.
Qed.

Lemma warnings_of_walk p top path d :
  warnings_of (out_trace (walk_spec p top path d)) = [].
Proof.
  pose proof (walk_spec_shape p top d path) as Hshape. unfold walk_shape in Hshape.
  destruct (out_err (walk_spec p top path d)).
  - destruct Hshape as (dir & _ & pre & -> & _ & Hw).
    rewrite warnings_of_app, Hw. reflexivity.
  - apply Hshape.
Qed.

Lemma warnings_of_root p c : warnings_of (out_trace (root_spec p c)) = [].
Proof.
  unfold root_spec. destruct (os_Lstat c); [apply warnings_of_walk | reflexivity].
Qed.

(** The one diagnostic of a candidate is the warning for a walk that
    ended with an error. *)
Lemma warnings_of_candidate p c :
  warnings_of (out_trace (candidate_spec p c)) =
  match out_err (candidate_spec p c) with
  | Some _ => [WarnWalk c]
  | None => []
  end.
Proof.
  unfold candidate_spec. destruct (os_Stat c) as [info|]; [|reflexivity].
  destruct (negb (IsDir info)); cbn [out_trace out_err].
  - change (EvStat c :: include_trace p c) with ([EvStat c] ++ include_trace p c).
    rewrite warnings_of_app. apply (clean_include_trace p c).
  - rewrite !warnings_of_app, warnings_of_root.
    destruct (out_err (root_spec p c)); reflexivity.
Qed.

(** *** The listings are in the order of [os.ReadDir] *)

Lemma listing_ok_Dir perm entries :
  listing_ok (Dir perm entries) = true <->
  sorted_names (map fst entries) = true /\
  Forall (fun e => listing_ok (snd e) = true) entries.
Proof.
  cbn [listing_ok]. rewrite andb_true_iff.
  assert ((fix all (dirs : list (string * node)) : bool :=
             match dirs with
             | [] => true
             | e :: dirs' => listing_ok (snd e) && all dirs'
             end) entries = true <->
          Forall (fun e => listing_ok (snd e) = true) entries) as ->; [|reflexivity].
  induction entries as [|e entries IH]; [split; [constructor | reflexivity] |].
  rewrite andb_true_iff, IH, List.Forall_cons_iff. reflexivity.
Qed.

Lemma listing_ok_follow n : forall m,
  listing_ok n = true -> follow n = Some m -> listing_ok m = true.
Proof.
  induction n as [perm content | perm entries _ | target IH] using node_induction;
    intros m Hok; cbn [follow].
  - intros [= <-]. exact Hok.
  - intros [= <-]. exact Hok.
  - destruct target as [t|]; [apply IH; exact Hok | discriminate].
Qed.

Lemma listing_ok_find name entries d :
  Forall (fun e => listing_ok (snd e) = true) entries ->
  find_entry name entries = Some d -> listing_ok d = true.
Proof.
  induction 1 as [|[n x] entries Hx _ IH]; cbn [find_entry]; [discriminate |].
  destruct (String.eqb n name); [intros [= <-]; exact Hx | exact IH].
Qed.

Lemma listing_ok_lookup cs : forall n d,
  listing_ok n = true -> lookup_node n cs = Some d -> listing_ok d = true.
Proof.
  induction cs as [|c cs IH]; intros n d Hok; cbn [lookup_node].
  - intros [= <-]. exact Hok.
  - destruct (follow n) as [[? ? | [|] es | ?]|] eqn:Hf; try discriminate.
    pose proof (listing_ok_follow _ _ Hok Hf) as Hm.
    apply listing_ok_Dir in Hm as [_ Hall].
    destruct (find_entry c es) as [n'|] eqn:Hfind; [|discriminate].
    apply IH. eapply listing_ok_find; eassumption.
Qed.

(** What [os.Lstat] finds has its listings sorted by name. *)
Lemma os_Lstat_listing_ok path d : os_Lstat path = Some d -> listing_ok d = true.
Proof.
  unfold os_Lstat. destruct (filepath.Abs Getwd path) as [a|]; [|discriminate].
  apply listing_ok_lookup, fs_sorted.
Qed.

(** X4. Every path the resolver returns has passed all four stages of
    the filter, and in the tree of an expanded input that exists it is
    the path of a node that [WalkDir] does not take for a directory: a
    regular file, or a symbolic link, which is returned whatever it
    leads to.  The result holds no path of a directory itself and no
    path that any stage excludes. *)
Theorem X4_result_passed_the_filter cfg paths s :
  exists files s',
    resolvePaths cfg paths s = Some (files, s') /\
    forall f, In f files ->
      include_spec (New_spec cfg) f = true /\
      exists c d,
        c ∈ expand_spec paths /\ os_Stat c <> None /\
        os_Lstat c = Some d /\ In f (file_paths c d).
Proof.
  destruct (resolvePaths_run cfg paths s) as (order & s' & evs & _ & Hrun & _).
  eexists _, s'. split; [exact Hrun |].
  intros f. rewrite In_sort_Strings, <- list_elem_of_In, elem_of_elements, elem_of_resolved.
  intros (c & Hc & Hin).
  destruct (os_Stat c) as [info|] eqn:Hstat.
  - destruct (os_Stat_Lstat c info Hstat) as (d & Hlstat & _).
    assert (os_Stat c <> None) as Hex by congruence.
    destruct (candidate_prefix (New_spec cfg) c d Hlstat Hex) as (rest & Hk & _).
    destruct (kept_sound (New_spec cfg) c d c f) as [Hinc Hfile].
    { rewrite Hk. apply in_app_iff. auto. }
    split; [exact Hinc |]. exists c, d. auto.
  - unfold candidate_spec in Hin. rewrite Hstat in Hin. destruct Hin.
Qed.

(** X5. Processing an expanded input that exists adds the first of the
    paths to keep, in the order of the walk: the regular files and the
    symbolic links of its tree that pass the filter and lie in no
    directory below the input that stages 1 to 3 exclude (the input
    itself is not tested as a directory, and an input that is a link is
    taken as a file).  The order is that of the listings, which
    [os.ReadDir] sorts by name.  When no warning for the input is
    logged, all of them are added. *)
Theorem X5_walk_keeps_what_passes p c d s :
  cache_ok s ->
  os_Lstat c = Some d ->
  os_Stat c <> None ->
  exists s' evs added rest,
    processCandidate p c s = Some (tt, s') /\
    finalFiles s' = list_to_set added ∪ finalFiles s /\
    log s' = log s ++ evs /\
    kept p c c d = added ++ rest /\
    listing_ok d = true /\
    (~ In (EvWarn (WarnWalk c)) evs -> rest = []).
Proof.
  intros Hok Hlstat Hstat.
  destruct (refines_processCandidate p c s Hok) as (s' & evs & Hrun & _ & Hf & Hl & Ht).
  destruct (candidate_prefix p c d Hlstat Hstat) as (rest & Hk & Hrest).
  exists s', evs, (out_files (candidate_spec p c)), rest. split_and!; auto.
  { eapply os_Lstat_listing_ok. exact Hlstat. }
  intros Hnw. apply Hrest.
  destruct (out_err (candidate_spec p c)) eqn:He; [|reflexivity].
  exfalso. apply Hnw. apply In_observable. rewrite Ht.
  pose proof (warnings_of_candidate p c) as Hw. rewrite He in Hw.
  unfold warnings_of in Hw.
  assert (In (WarnWalk c)
            (flat_map (fun e => match e with EvWarn w => [w] | _ => [] end)
               (out_trace (candidate_spec p c)))) as Hin
    by (rewrite Hw; left; reflexivity).
  apply in_flat_map in Hin as (e & Hin & He').
  destruct e; try (destruct He'; fail). destruct He' as [-> | []]. exact Hin.
Qed.

(** The diagnostics in the observable log of a run that takes the
    expanded inputs in the order [order]. *)
Lemma warnings_of_run cfg paths order :
  warnings_of (New_trace cfg ++ run_trace (New_spec cfg) paths order) =
    flat_map (fun file => match os_Open file with
                          | Some _ => []
                          | None => [WarnIgnoreFile file]
                          end) (IgnoreFiles cfg) ++
    flat_map (fun path => match FilepathGlob path with
                          | Some _ => []
                          | None => [WarnGlob path]
                          end) paths ++
    flat_map (fun c => match out_err (candidate_spec (New_spec cfg) c) with
                       | Some _ => [WarnWalk c]
                       | None => []
                       end) order.
Proof.
  unfold New_trace, run_trace, expand_trace.
  rewrite !warnings_of_app, !warnings_of_flat_map. f_equal; [|f_equal].
  - apply flat_map_ext. intros file. destruct (os_Open file); reflexivity.
  - apply flat_map_ext. intros path. destruct (FilepathGlob path); reflexivity.
  - apply flat_map_ext. intros c. apply warnings_of_candidate.
Qed.

(** X6. The diagnostics of a run of the resolver are: first one warning
    for each ignore file that cannot be opened, in the order of the
    configuration; then one for each input pattern the glob library
    rejects, in the order of the inputs; then one for each expanded
    input whose walk ended with an error, in the order in which the
    map of expanded inputs is ranged over, which is not fixed.  Nothing
    else is reported; in particular an expanded input that does not
    exist, or a file that cannot be read, is passed over in silence. *)
Theorem X6_diagnostics_of_a_run cfg paths s :
  exists files s' evs walks,
    resolvePaths cfg paths s = Some (files, s') /\
    log s' = log s ++ evs /\
    warnings_of evs =
      flat_map (fun file => match os_Open file with
                            | Some _ => []
                            | None => [WarnIgnoreFile file]
                            end) (IgnoreFiles cfg) ++
      flat_map (fun path => match FilepathGlob path with
                            | Some _ => []
                            | None => [WarnGlob path]
                            end) paths ++
      walks /\
    walks ≡ₚ
      flat_map (fun c => match out_err (candidate_spec (New_spec cfg) c) with
                         | Some _ => [WarnWalk c]
                         | None => []
                         end) (elements (expand_spec paths)).
Proof.
  destruct (resolvePaths_run cfg paths s)
    as (order & s' & evs & Horder & Hrun & _ & _ & Hl & Ht).
  eexists _, s', evs, _. split; [exact Hrun |]. split; [exact Hl |]. split.
  - rewrite <- warnings_of_observable, Ht. apply warnings_of_run.
  - apply Permutation_flat_map. exact Horder.
Qed.

End WalkResult.

(** *** One processor, several calls and configurations *)

Section Reuse.
Context `{Env}.

(** X7. A processor can be used again: after any call of
    [ProcessPaths], a call on other inputs returns the files it returns
    on the state before, in an order that need not be the same, and
    leaves the same set of files.  The files of the earlier call do not
    leak into it, and the cache the earlier call has filled does not
    change the answer. *)
Theorem X7_ProcessPaths_can_be_called_again p pathsA pathsB s :
  cache_ok s ->
  exists filesA s1 filesB s2 filesB' s2',
    ProcessPaths p pathsA s = Some (filesA, s1) /\
    ProcessPaths p pathsB s1 = Some (filesB, s2) /\
    ProcessPaths p pathsB s = Some (filesB', s2') /\
    filesB ≡ₚ filesB' /\
    NoDup filesB /\
    finalFiles s2 = finalFiles s2'.
Proof.
  intros Hok.
  destruct (ProcessPaths_run p pathsA s Hok)
    as (? & filesA & s1 & evs1 & _ & _ & Hrun1 & Hok1 & _).
  destruct (ProcessPaths_run p pathsB s1 Hok1)
    as (? & filesB & s2 & evs2 & _ & HfilesB & Hrun2 & _ & Hf2 & _).
  destruct (ProcessPaths_run p pathsB s Hok)
    as (? & filesB' & s2' & evs2' & _ & HfilesB' & Hrun2' & _ & Hf2' & _).
  exists filesA, s1, filesB, s2, filesB', s2'. split_and!; auto.
  - rewrite HfilesB, HfilesB'. reflexivity.
  - rewrite HfilesB. apply NoDup_elements.
  - congruence.
Qed.

End Reuse.

Section Stricter.
Context `{Env}.

Lemma entries_paths_incl (f g : string -> node -> list string) path dirs :
  Forall (fun e => forall path', incl (f path' (snd e)) (g path' (snd e))) dirs ->
  incl (entries_paths f path dirs) (entries_paths g path dirs).
Proof.
  induction 1 as [|[name d1] dirs Hd1 _ IH]; cbn [entries_paths]; [apply incl_refl |].
  apply incl_app_app; [apply Hd1 | exact IH].
Qed.

(** A stricter processor keeps no more. *)
Lemma kept_stricter p' p top d :
  stricter p' p -> forall path, incl (kept p' top path d) (kept p top path d).
Proof.
  intros Hst.
  assert (forall path,
            incl (if include_spec p' path then [path] else [])
                 (if include_spec p path then [path] else [])) as Hleaf.
  { intros path. destruct (include_spec p' path) eqn:Hinc; [|apply incl_nil_l].
    rewrite (proj2 (Hst path) Hinc). apply incl_refl. }
  induction d as [perm content | perm entries IH | target _] using node_induction;
    intros path; cbn [kept]; [apply Hleaf | | apply Hleaf].
  destruct (negb (String.eqb path top)); cbn [andb];
    [|apply entries_paths_incl; exact IH].
  destruct (skip_spec p' path) eqn:Hs'; [apply incl_nil_l |].
  destruct (skip_spec p path) eqn:Hs.
  - rewrite (proj1 (Hst path) Hs) in Hs'. discriminate.
  - apply entries_paths_incl. exact IH.
Qed.

Lemma isExcluded_more p' p path :
  (forall g, In g (ExcludeGlobs (config p)) -> In g (ExcludeGlobs (config p'))) ->
  isExcluded p path = true -> isExcluded p' path = true.
Proof.
  unfold isExcluded. intros Hsub Hex.
  apply existsb_exists in Hex as (g & Hin & Hg).
  apply existsb_exists. exists g. auto.
Qed.

(** The processor of a configuration that excludes more is stricter. *)
Lemma stricter_New_spec cfg' cfg :
  IgnoreFiles cfg' = IgnoreFiles cfg ->
  (forall g, In g (ExcludeGlobs cfg) -> In g (ExcludeGlobs cfg')) ->
  (NoGitignore cfg' = true -> NoGitignore cfg = true) ->
  (NoBinaryCheck cfg' = true -> NoBinaryCheck cfg = true) ->
  stricter (New_spec cfg') (New_spec cfg).
Proof.
  intros Hfiles Hglobs Hgit Hbin.
  assert (forall path, skip_spec (New_spec cfg) path = true ->
                       skip_spec (New_spec cfg') path = true) as Hskip.
  { intros path. unfold skip_spec, custom_ignored, gitignored. cbn [New_spec customIgnoreMatcher config].
    rewrite Hfiles. intros Hs.
    apply orb_true_iff in Hs as [Hs | Hs]; [apply orb_true_iff in Hs as [Hs | Hs] |].
    - rewrite (isExcluded_more (New_spec cfg') (New_spec cfg) path Hglobs Hs). reflexivity.
    - rewrite Hs, orb_true_r. reflexivity.
    - destruct (NoGitignore cfg) eqn:Hg; [discriminate |].
      destruct (NoGitignore cfg'); [specialize (Hgit eq_refl); discriminate |].
      rewrite Hs, orb_true_r. reflexivity. }
  intros path. split; [apply Hskip |].
  unfold include_spec, binary_spec. cbn [New_spec config].
  intros Hinc. apply andb_true_iff in Hinc as [Hs Hb].
  apply negb_true_iff in Hs, Hb. apply andb_true_iff. split; apply negb_true_iff.
  - destruct (skip_spec (New_spec cfg) path) eqn:Hs0; [|reflexivity].
    rewrite (Hskip path Hs0) in Hs. discriminate.
  - destruct (NoBinaryCheck cfg) eqn:Hc; [reflexivity |].
    destruct (NoBinaryCheck cfg'); [specialize (Hbin eq_refl); discriminate |].
    exact Hb.
Qed.

Lemma In_EvWarn w evs : In w (warnings_of evs) -> In (EvWarn w) evs.
Proof.
  unfold warnings_of. intros Hin. apply in_flat_map in Hin as (e & Hin & He).
  destruct e; try (destruct He; fail). destruct He as [-> | []]. exact Hin.
Qed.

(** A candidate whose walk ends with an error has its warning in the
    log of the run. *)
Lemma WarnWalk_in_run p paths order c e :
  order ≡ₚ elements (expand_spec paths) ->
  c ∈ expand_spec paths ->
  out_err (candidate_spec p c) = Some e ->
  In (EvWarn (WarnWalk c)) (run_trace p paths order).
Proof.
  intros Horder Hc He. unfold run_trace. apply in_app_iff. right. apply in_flat_map.
  exists c. split.
  - apply list_elem_of_In. rewrite Horder. apply elem_of_elements. exact Hc.
  - apply In_EvWarn. rewrite warnings_of_candidate, He. left. reflexivity.
Qed.

(** X8. A configuration that excludes more returns no more: with the
    same ignore files, with exclude globs that include those of [cfg],
    and with no check disabled that [cfg] has enabled, every file the
    resolver returns for [cfg'] it returns for [cfg], provided the run
    for [cfg] logs no warning for a walk.  (When a walk of [cfg] is
    abandoned at a directory that [cfg'] excludes, [cfg'] can return
    more.) *)
Theorem X8_stricter_configuration_keeps_less cfg cfg' paths s :
  IgnoreFiles cfg' = IgnoreFiles cfg ->
  (forall g, In g (ExcludeGlobs cfg) -> In g (ExcludeGlobs cfg')) ->
  (NoGitignore cfg' = true -> NoGitignore cfg = true) ->
  (NoBinaryCheck cfg' = true -> NoBinaryCheck cfg = true) ->
  exists files s1 evs files' s1',
    resolvePaths cfg paths s = Some (files, s1) /\
    log s1 = log s ++ evs /\
    resolvePaths cfg' paths s = Some (files', s1') /\
    ((forall c, ~ In (EvWarn (WarnWalk c)) evs) ->
     forall f, In f files' -> In f files).
Proof.
  intros Hfiles Hglobs Hgit Hbin.
  pose proof (stricter_New_spec cfg' cfg Hfiles Hglobs Hgit Hbin) as Hst.
  destruct (resolvePaths_run cfg paths s)
    as (order & s1 & evs & Horder & Hrun & _ & _ & Hl & Ht).
  destruct (resolvePaths_run cfg' paths s) as (order' & s1' & evs' & _ & Hrun' & _).
  do 5 eexists. split; [exact Hrun |]. split; [exact Hl |]. split; [exact Hrun' |].
  intros Hquiet f.
  rewrite !In_sort_Strings, <- !list_elem_of_In, !elem_of_elements, !elem_of_resolved.
  intros (c & Hc & Hin). exists c. split; [exact Hc |].
  destruct (os_Stat c) as [info|] eqn:Hstat;
    [|unfold candidate_spec in Hin; rewrite Hstat in Hin; destruct Hin].
  destruct (os_Stat_Lstat c info Hstat) as (d & Hlstat & _).
  assert (os_Stat c <> None) as Hex by congruence.
  destruct (candidate_prefix (New_spec cfg') c d Hlstat Hex) as (rest' & Hk' & _).
  destruct (candidate_prefix (New_spec cfg) c d Hlstat Hex) as (rest & Hk & Hrest).
  assert (rest = []) as ->.
  { apply Hrest. destruct (out_err (candidate_spec (New_spec cfg) c)) as [e|] eqn:He;
      [|reflexivity].
    exfalso. apply (Hquiet c). apply In_observable. rewrite Ht.
    apply in_app_iff. right. eapply WarnWalk_in_run; eassumption. }
  rewrite app_nil_r in Hk. rewrite <- Hk.
  apply (kept_stricter _ _ c d Hst c). rewrite Hk'. apply in_app_iff. auto.
Qed.

End Stricter.

Section BinaryFilter.
Context `{Env}.
Variable p' : FileProcessor.
Variable p : FileProcessor.
Hypothesis same_skip : forall path, skip_spec p' path = skip_spec p path.
Hypothesis no_check : NoBinaryCheck (config p) = true.







End BinaryFilter.

Section BinaryCheck.
Context `{Env}.


End BinaryCheck.

(** *** Strings and paths *)

Section StringFacts.

Lemma append_cons c (a b : string) : String c a +:+ b = String c (a +:+ b).
Proof. reflexivity. Qed.

Lemma append_nil_l (b : string) : "" +:+ b = b.
Proof. reflexivity. Qed.

Lemma append_nil_r s : s +:+ "" = s.
Proof. induction s as [|c s IH]; [reflexivity | rewrite append_cons, IH; reflexivity]. Qed.

Lemma append_assoc (a b c : string) : (a +:+ b) +:+ c = a +:+ (b +:+ c).
Proof. induction a as [|x a IH]; [reflexivity | rewrite !append_cons, IH; reflexivity]. Qed.

Lemma list_ascii_app a b :
  list_ascii_of_string (a +:+ b) = list_ascii_of_string a ++ list_ascii_of_string b.
Proof.
  induction a as [|x a IH]; [reflexivity |].
  rewrite append_cons. simpl. rewrite IH. reflexivity.
Qed.

Lemma has_byte_app c a b : has_byte c (a +:+ b) = has_byte c a || has_byte c b.
Proof.
  induction a as [|x a IH]; [reflexivity |].
  rewrite append_cons. simpl. rewrite IH, orb_assoc. reflexivity.
Qed.

Lemma substring_all s : String.substring 0 (String.length s) s = s.
Proof. induction s as [|c s IH]; simpl; [reflexivity | rewrite IH; reflexivity]. Qed.

Lemma substring_front a b : String.substring 0 (String.length a) (a +:+ b) = a.
Proof.
  induction a as [|c a IH]; [destruct b; reflexivity |].
  rewrite append_cons. simpl. rewrite IH. reflexivity.
Qed.

Lemma substring_back a b :
  String.substring (String.length a) (String.length b) (a +:+ b) = b.
Proof.
  induction a as [|c a IH]; [apply substring_all |].
  rewrite append_cons. simpl. exact IH.
Qed.

(** Trimming a suffix that is there leaves what is before it. *)
Lemma TrimSuffix_app a b : TrimSuffix (a +:+ b) b = a.
Proof.
  unfold TrimSuffix, HasSuffix. rewrite string_length_app.
  replace (String.length a + String.length b - String.length b) with (String.length a) by lia.
  rewrite substring_back, String.eqb_refl, substring_front.
  destruct (Nat.leb_spec (String.length b) (String.length a + String.length b));
    [reflexivity | lia].
Qed.

End StringFacts.

Section ExtFacts.
Import filepath.

Lemma Ext_loop_plain ly : forall rest acc,
  List.Forall plain ly ->
  filepath.Ext_loop (rev ly ++ rest) acc = filepath.Ext_loop rest (string_of_list_ascii ly +:+ acc).
Proof.
  induction ly as [|c ly IH]; intros rest acc Hall; [reflexivity |].
  apply List.Forall_cons_iff in Hall as [[Hdot Hsep] Hall].
  cbn [rev]. rewrite <- app_assoc. cbn [app]. rewrite (IH _ _ Hall). cbn [filepath.Ext_loop].
  destruct (Ascii.eqb_spec c Separator) as [|_]; [contradiction |].
  destruct (Ascii.eqb_spec c ".") as [|_]; [contradiction |].
  reflexivity.
Qed.

Lemma plain_bytes s :
  has_byte "." s = false -> has_byte Separator s = false ->
  List.Forall plain (list_ascii_of_string s).
Proof.
  induction s as [|c s IH]; simpl; [constructor |].
  intros Hdot Hsep. apply orb_false_iff in Hdot as [Hc1 Hdot], Hsep as [Hc2 Hsep].
  constructor; [|auto].
  split; intros ->; [rewrite Ascii.eqb_refl in Hc1 | rewrite Ascii.eqb_refl in Hc2];
    discriminate.
Qed.

(** A name without a dot has no extension. *)
Lemma Ext_no_dot s :
  has_byte "." s = false -> filepath.Ext s = "".
Proof.
  unfold filepath.Ext. intros Hdot.
  assert (forall l acc, List.Forall (fun c => c <> "."%char) l -> filepath.Ext_loop l acc = "")
    as Hloop.
  { induction l as [|c l IH]; intros acc Hall; [reflexivity |].
    apply List.Forall_cons_iff in Hall as [Hc Hall]. cbn [filepath.Ext_loop].
    destruct (Ascii.eqb c Separator); [reflexivity |].
    destruct (Ascii.eqb_spec c ".") as [|_]; [contradiction | auto]. }
  apply Hloop. apply List.Forall_rev.
  induction s as [|c s IH]; simpl in *; [constructor |].
  apply orb_false_iff in Hdot as [Hc Hdot]. constructor; [|auto].
  intros ->. rewrite Ascii.eqb_refl in Hc. discriminate.
Qed.

(** The extension of a name starts at its last dot. *)
Lemma Ext_last_dot x y :
  has_byte "." y = false -> has_byte Separator y = false ->
  filepath.Ext (x +:+ String "." y) = String "." y.
Proof.
  intros Hdot Hsep. unfold filepath.Ext.
  rewrite list_ascii_app. cbn [list_ascii_of_string]. rewrite rev_app_distr.
  cbn [rev]. rewrite <- app_assoc. cbn [app].
  rewrite Ext_loop_plain by (apply plain_bytes; assumption).
  cbn [filepath.Ext_loop]. cbn. rewrite string_of_list_ascii_of_string, append_nil_r.
  reflexivity.
Qed.

(** A string with a dot, cut at the last one. *)
Lemma last_dot_split s :
  has_byte "." s = true ->
  exists x y, s = x +:+ String "." y /\ has_byte "." y = false.
Proof.
  induction s as [|c s IH]; simpl; [discriminate |].
  destruct (has_byte "." s) eqn:Hs.
  - intros _. destruct (IH eq_refl) as (x & y & -> & Hy).
    exists (String c x), y. auto.
  - rewrite orb_false_r. intros Hc. apply Ascii.eqb_eq in Hc as ->.
    exists "", s. auto.
Qed.

Lemma last_element_no_sep l : forall acc,
  has_byte Separator acc = false ->
  has_byte Separator (filepath.last_element l acc) = false.
Proof.
  induction l as [|c l IH]; intros acc Hacc; cbn [filepath.last_element]; [exact Hacc |].
  destruct (Ascii.eqb c Separator) eqn:Hc; [exact Hacc |].
  apply IH. simpl. rewrite Hc, Hacc. reflexivity.
Qed.

(** [Base] gives one element: a name without a separator, or the root. *)
Lemma Base_element path :
  filepath.Base path <> "" /\
  (filepath.Base path = "/" \/ has_byte Separator (filepath.Base path) = false).
Proof.
  unfold filepath.Base. destruct (String.eqb path ""); [split; [discriminate | right; reflexivity] |].
  destruct (String.eqb_spec
              (filepath.last_element (filepath.strip_seps (rev (list_ascii_of_string path))) "") "")
    as [_|Hne]; [split; [discriminate | left; reflexivity] |].
  split; [exact Hne | right]. apply last_element_no_sep. reflexivity.
Qed.

End ExtFacts.

Section CleanFacts.
Import filepath.

Lemma split_on_no_sep sep s :
  List.Forall (fun c => has_byte sep c = false) (split_on sep s).
Proof.
  induction s as [|a s IH]; cbn [split_on]; [repeat constructor |].
  destruct (Ascii.eqb a sep) eqn:Ha; [constructor; [reflexivity | exact IH] |].
  destruct (split_on sep s) as [|x xs]; [repeat constructor; simpl; rewrite Ha; reflexivity |].
  apply List.Forall_cons_iff in IH as [Hx Hxs].
  constructor; [simpl; rewrite Ha, Hx; reflexivity | exact Hxs].
Qed.

(** What [clean_comps] returns is cleaned. *)
Lemma clean_comps_cleaned rooted cs : forall stack,
  List.Forall (fun c => has_byte Separator c = false) cs ->
  stack_ok rooted stack ->
  cleaned rooted (clean_comps rooted stack cs).
Proof.
  induction cs as [|c cs IH]; intros stack Hcs Hst; cbn [clean_comps].
  - unfold cleaned. rewrite rev_involutive. exact Hst.
  - apply List.Forall_cons_iff in Hcs as [Hc Hcs].
    destruct (String.eqb_spec c "") as [->|Hne]; [apply IH; assumption |].
    destruct (String.eqb_spec c ".") as [->|Hdot]; [apply IH; assumption |].
    cbn [orb].
    destruct (String.eqb_spec c "..") as [->|Hdd].
    + destruct stack as [|top stack'].
      * destruct rooted eqn:Hr; apply IH; auto using stack_nil.
        apply stack_dotdot; [reflexivity | constructor].
      * destruct (String.eqb_spec top "..") as [->|Htop].
        -- apply IH; [exact Hcs |].
           inversion Hst as [| st Hr Hall | c' st [_ [_ [Hc' _]]] _]; subst;
             [|congruence].
           apply stack_dotdot; [reflexivity | constructor; [reflexivity | exact Hall]].
        -- apply IH; [exact Hcs |].
           inversion Hst as [| st Hr Hall | c' st _ Hst']; subst;
             [congruence | exact Hst'].
    + apply IH; [exact Hcs |]. apply stack_name; [|exact Hst].
      repeat split; assumption.
Qed.

Lemma stack_ok_suffix rooted a b : stack_ok rooted (a ++ b) -> stack_ok rooted b.
Proof.
  induction a as [|x a IH]; [auto |]. cbn [app].
  intros Hst. inversion Hst as [| st Hr Hall | c' st _ Hst']; subst; [|auto].
  apply List.Forall_app in Hall as [_ Hb].
  destruct b as [|y b]; [constructor |].
  apply List.Forall_cons_iff in Hb as [<- Hb]. apply stack_dotdot; auto.
Qed.

(** On cleaned elements [clean_comps] has nothing to do. *)
Lemma clean_comps_id rooted cs : forall stack,
  stack_ok rooted (rev cs ++ stack) ->
  clean_comps rooted stack cs = rev stack ++ cs.
Proof.
  induction cs as [|c cs IH]; intros stack Hst; cbn [clean_comps].
  - rewrite app_nil_r. reflexivity.
  - cbn [rev] in Hst. rewrite <- app_assoc in Hst. cbn [app] in Hst.
    pose proof (stack_ok_suffix _ _ _ Hst) as Hc.
    inversion Hc as [| st Hr Hall | c' st [Hne [Hdot [Hdd _]]] _]; subst.
    + change (String.eqb ".." "" || String.eqb ".." ".") with false.
      change (String.eqb ".." "..") with true. cbv iota.
      destruct stack as [|top stack'].
      * rewrite (IH [".."] Hst). reflexivity.
      * apply List.Forall_cons_iff in Hall as [<- _].
        change (String.eqb ".." "..") with true. cbv iota.
        rewrite (IH (".." :: ".." :: stack') Hst). cbn [rev].
        rewrite <- !app_assoc. reflexivity.
    + apply String.eqb_neq in Hne, Hdot, Hdd. rewrite Hne, Hdot, Hdd. cbn [orb].
      rewrite (IH (c :: stack) Hst). cbn [rev]. rewrite <- app_assoc. reflexivity.
Qed.

Lemma split_on_plain x :
  has_byte Separator x = false -> split_on Separator x = [x].
Proof.
  induction x as [|a x IH]; [reflexivity |]. simpl.
  intros Hx. apply orb_false_iff in Hx as [Ha Hx].
  rewrite Ha, (IH Hx). reflexivity.
Qed.

Lemma split_on_app x rest :
  has_byte Separator x = false ->
  split_on Separator (x +:+ String Separator rest) = x :: split_on Separator rest.
Proof.
  induction x as [|a x IH]; [intros _; rewrite append_nil_l; reflexivity |].
  intros Hx. simpl in Hx. apply orb_false_iff in Hx as [Ha Hx].
  rewrite append_cons. cbn [split_on]. rewrite Ha, (IH Hx). reflexivity.
Qed.

Lemma split_on_concat cs :
  cs <> [] ->
  List.Forall (fun c => has_byte Separator c = false) cs ->
  split_on Separator (String.concat "/" cs) = cs.
Proof.
  induction cs as [|c cs IH]; intros Hne Hall; [congruence |].
  apply List.Forall_cons_iff in Hall as [Hc Hall].
  destruct cs as [|c' cs']; [apply split_on_plain; exact Hc |].
  change (String.concat "/" (c :: c' :: cs'))
    with (c +:+ String Separator (String.concat "/" (c' :: cs'))).
  rewrite (split_on_app _ _ Hc), IH by (discriminate || exact Hall). reflexivity.
Qed.

Lemma stack_ok_elements rooted stack :
  stack_ok rooted stack ->
  List.Forall (fun c => c <> "" /\ c <> "." /\ has_byte Separator c = false) stack.
Proof.
  induction 1 as [| st Hr Hall | c st (Hne & Hdot & _ & Hsep) _ IH].
  - constructor.
  - constructor; [repeat split; discriminate || reflexivity |].
    induction Hall as [|x st <- _ IHall]; constructor;
      [repeat split; discriminate || reflexivity | exact IHall].
  - constructor; [auto | exact IH].
Qed.

Lemma cleaned_elements rooted cs :
  cleaned rooted cs ->
  List.Forall (fun c => c <> "" /\ c <> "." /\ has_byte Separator c = false) cs.
Proof.
  intros Hc. apply stack_ok_elements in Hc.
  rewrite <- (rev_involutive cs). apply List.Forall_rev. exact Hc.
Qed.

(** A cleaned path is rooted as its elements say, and has them as its
    elements. *)
Lemma render_cleaned rooted cs :
  cleaned rooted cs ->
  IsAbs (render rooted cs) = rooted /\ comps (render rooted cs) = cs.
Proof.
  intros Hc. pose proof (cleaned_elements _ _ Hc) as Hel.
  assert (List.Forall (fun c => has_byte Separator c = false) cs) as Hsep
    by (eapply List.Forall_impl; [|exact Hel]; cbn; tauto).
  assert (clean_comps rooted [] cs = cs) as Hid
    by (apply (clean_comps_id rooted cs []); rewrite app_nil_r; exact Hc).
  unfold comps. destruct rooted.
  - cbn [render IsAbs]. rewrite Ascii.eqb_refl. split; [reflexivity |].
    cbn [split_on]. rewrite Ascii.eqb_refl.
    destruct cs as [|c cs']; [reflexivity |].
    rewrite split_on_concat by (discriminate || exact Hsep).
    cbn [clean_comps String.eqb orb]. exact Hid.
  - destruct cs as [|c cs']; [split; reflexivity |]. cbn [render].
    assert (IsAbs (String.concat "/" (c :: cs')) = false) as Habs.
    { apply List.Forall_cons_iff in Hel as [(Hne & _ & Hc1) _].
      destruct c as [|a c]; [contradiction |].
      simpl in Hc1. apply orb_false_iff in Hc1 as [Ha _].
      destruct cs'; cbn; exact Ha. }
    rewrite Habs. split; [reflexivity |].
    rewrite split_on_concat by (discriminate || exact Hsep). exact Hid.
Qed.

(** [Clean] is idempotent. *)
Lemma Clean_Clean p : Clean (Clean p) = Clean p.
Proof.
  assert (cleaned (IsAbs p) (comps p)) as Hc.
  { unfold comps. apply clean_comps_cleaned; [apply split_on_no_sep | constructor]. }
  destruct (render_cleaned _ _ Hc) as [Habs Hcomps].
  unfold Clean at 1. fold (Clean p) in Habs, Hcomps.
  change (render (IsAbs p) (comps p)) with (Clean p) in *.
  rewrite Habs, Hcomps. reflexivity.
Qed.

(** What [Join] returns is clean, or empty when both its arguments
    are. *)
Lemma Join_clean a b : Join a b = "" \/ Clean (Join a b) = Join a b.
Proof.
  unfold Join. destruct (String.eqb a ""), (String.eqb b "");
    auto using Clean_Clean.
Qed.

End CleanFacts.

(** *** The formatter *)

Section FormatterFacts.
Context `{Env}.
Import filepath.

(** The pairs of [Format], with the two paths written out. *)
Lemma placeholders_shape content path :
  let rel := if IsAbs path then path else Clean path in
  placeholders content path =
    [ ("{content}", content);
      ("{path}", rel);
      ("{abspath}", if IsAbs path then Clean path
                    else match Getwd with
                         | Some wd => Join wd path
                         | None => path
                         end);
      ("{basename}", filepath.Base rel);
      ("{filename}", TrimSuffix (filepath.Base rel) (filepath.Ext (filepath.Base rel)));
      ("{extension}", match filepath.Ext (filepath.Base rel) with
                      | String _ ext' => ext'
                      | EmptyString => EmptyString
                      end) ].
Proof.
  unfold placeholders. cbv zeta.
  assert (match Rel "." path with Some r => r | None => path end =
          if IsAbs path then path else Clean path) as ->.
  { destruct (IsAbs path) eqn:Hp;
      [rewrite Rel_dot_rooted | rewrite Rel_dot_relative]; auto. }
  assert (match Abs Getwd path with Some a => a | None => path end =
          if IsAbs path then Clean path
          else match Getwd with Some wd => Join wd path | None => path end) as ->.
  { unfold Abs. destruct (IsAbs path); [reflexivity |]. destruct Getwd; reflexivity. }
  unfold ToSlash. destruct (filepath.Ext _); reflexivity.
Qed.

(** X10. The values [Format] gives to the placeholders.  [{path}] is the
    cleaned path for a relative path and the path as given for a rooted
    one; [{abspath}] is the cleaned path for a rooted path, the working
    directory joined with it otherwise (the path as given when there is
    no working directory).  [{basename}] is the last element of
    [{path}], never empty and without a separator unless it is the
    root.  When it has a dot, it is [{filename}], a dot and
    [{extension}], cut at its last dot, so that the extension has no dot
    and no separator; when it has none, [{filename}] is all of it and
    [{extension}] is empty. *)
Theorem X10_Format_name_fields content path :
  exists base filename ext,
    placeholders content path =
      [ ("{content}", content);
        ("{path}", if IsAbs path then path else Clean path);
        ("{abspath}", if IsAbs path then Clean path
                      else match Getwd with
                           | Some wd => Join wd path
                           | None => path
                           end);
        ("{basename}", base);
        ("{filename}", filename);
        ("{extension}", ext) ] /\
    base = filepath.Base (if IsAbs path then path else Clean path) /\
    base <> "" /\
    (base = "/" \/ has_byte "/" base = false) /\
    (has_byte "." base = true -> base = filename +:+ "." +:+ ext) /\
    (has_byte "." base = false -> filename = base /\ ext = "") /\
    has_byte "." ext = false /\
    has_byte "/" ext = false.
Proof.
  pose proof (placeholders_shape content path) as Hshape. cbv zeta in Hshape.
  rewrite Hshape. clear Hshape.
  set (base := filepath.Base (if IsAbs path then path else Clean path)).
  destruct (Base_element (if IsAbs path then path else Clean path)) as [Hne Hsep].
  fold base in Hne, Hsep.
  destruct (has_byte "." base) eqn:Hdot.
  - assert (has_byte "/" base = false) as Hsep'
      by (destruct Hsep as [Heq | ?]; [rewrite Heq in Hdot; discriminate | assumption]).
    destruct (last_dot_split base Hdot) as (x & y & Hbase & Hy).
    assert (has_byte "/" y = false) as Hysep.
    { rewrite Hbase, has_byte_app in Hsep'. apply orb_false_iff in Hsep' as [_ Hs].
      simpl in Hs. exact Hs. }
    rewrite Hbase, (Ext_last_dot x y Hy Hysep), TrimSuffix_app.
    exists (x +:+ String "." y), x, y. split_and!; auto; try discriminate.
    + destruct x; discriminate.
    + rewrite <- Hbase. exact Hsep.
    + rewrite <- Hbase, Hdot. discriminate.
  - rewrite (Ext_no_dot base Hdot).
    assert (TrimSuffix base "" = base) as ->.
    { rewrite <- (append_nil_r base) at 1. apply TrimSuffix_app. }
    exists base, base, "". split_and!; auto; congruence.
Qed.

End FormatterFacts.

Section ReplacerFacts.

Lemma prefix_cons a s1 b s2 :
  String.prefix (String a s1) (String b s2) = Ascii.eqb a b && String.prefix s1 s2.
Proof.
  simpl. destruct (ascii_dec a b) as [->|Hne].
  - rewrite Ascii.eqb_refl. reflexivity.
  - apply Ascii.eqb_neq in Hne. rewrite Hne. reflexivity.
Qed.

Lemma lookup_old_literal oldnew c s :
  braced oldnew -> c <> "{"%char -> lookup_old oldnew (String c s) = None.
Proof.
  intros Hb Hc. induction Hb as [|[old new] oldnew (k & Hk) _ IH]; [reflexivity |].
  cbn [lookup_old]. cbn [fst] in Hk. subst old. rewrite prefix_cons.
  destruct (Ascii.eqb_spec "{" c) as [<-|_]; [contradiction | exact IH].
Qed.

(** Text without a brace is copied. *)
Lemma Replace_from_literal oldnew text s :
  braced oldnew -> has_byte "{" text = false ->
  Replace_from oldnew 0 (text +:+ s) = text +:+ Replace_from oldnew 0 s.
Proof.
  intros Hb. induction text as [|c text IH]; [reflexivity |].
  simpl. intros Hc. apply orb_false_iff in Hc as [Hc Htext].
  rewrite !append_cons. cbn [Replace_from].
  rewrite lookup_old_literal by (auto; intros ->; discriminate).
  rewrite IH by exact Htext. reflexivity.
Qed.

Lemma prefix_nil s : String.prefix "" s = true.
Proof. destruct s; reflexivity. Qed.

Lemma Replace_from_skip oldnew a s :
  Replace_from oldnew (String.length a) (a +:+ s) = Replace_from oldnew 0 s.
Proof. induction a as [|c a IH]; [reflexivity | exact IH]. Qed.

(** A match writes the new string, and the scan goes on after the old
    one. *)
Lemma Replace_from_match oldnew c a new s :
  lookup_old oldnew (String c a +:+ s) = Some (String c a, new) ->
  Replace_from oldnew 0 (String c a +:+ s) = new +:+ Replace_from oldnew 0 s.
Proof.
  intros Hl. rewrite append_cons in *. cbn [Replace_from]. rewrite Hl.
  cbn [String.length]. rewrite Nat.sub_succ, Nat.sub_0_r, Replace_from_skip.
  reflexivity.
Qed.

(** At a placeholder, the pair found is its own. *)
Lemma lookup_old_hole v1 v2 v3 v4 v5 v6 ph s :
  let oldnew := [ ("{content}", v1); ("{path}", v2); ("{abspath}", v3);
                  ("{basename}", v4); ("{filename}", v5); ("{extension}", v6) ] in
  lookup_old oldnew (key ph +:+ s) = Some (key ph, value_of oldnew (key ph)).
Proof.
  destruct ph; cbn [key]; rewrite !append_cons, append_nil_l; cbn;
    rewrite prefix_nil; reflexivity.
Qed.

Lemma Replace_from_hole v1 v2 v3 v4 v5 v6 ph s :
  let oldnew := [ ("{content}", v1); ("{path}", v2); ("{abspath}", v3);
                  ("{basename}", v4); ("{filename}", v5); ("{extension}", v6) ] in
  Replace_from oldnew 0 (key ph +:+ s) =
  value_of oldnew (key ph) +:+ Replace_from oldnew 0 s.
Proof.
  cbv zeta. pose proof (lookup_old_hole v1 v2 v3 v4 v5 v6 ph s) as Hl. cbv zeta in Hl.
  destruct ph; cbn [key] in *; apply Replace_from_match; exact Hl.
Qed.

Lemma placeholders_braced `{Env} content path : braced (placeholders content path).
Proof. unfold placeholders. cbv zeta. repeat constructor; cbn [fst]; eauto. Qed.

Lemma placeholders_without `{Env} content path : without LF (placeholders content path).
Proof.
  unfold placeholders. cbv zeta.
  repeat constructor; cbn [fst]; try discriminate; reflexivity.
Qed.

Lemma Replace_segments `{Env} content path segs :
  (forall text, In (Lit text) segs -> has_byte "{" text = false) ->
  Replace (placeholders content path) (template_text segs) =
  concat_all (map (fill (placeholders content path)) segs).
Proof.
  unfold Replace, template_text.
  induction segs as [|sg segs IH]; intros Hlit; [reflexivity |].
  cbn [map concat_all fold_right]. fold (concat_all (map segment_text segs)).
  fold (concat_all (map (fill (placeholders content path)) segs)).
  rewrite <- IH by (intros text Hin; apply Hlit; right; exact Hin).
  destruct sg as [text | ph]; cbn [segment_text fill].
  - apply Replace_from_literal; [apply placeholders_braced |].
    apply Hlit. left. reflexivity.
  - unfold placeholders. cbv zeta. apply Replace_from_hole.
Qed.

Lemma prefix_length old s :
  String.prefix old s = true -> String.length old <= String.length s.
Proof.
  revert s. induction old as [|a old IH]; intros s; [simpl; lia |].
  destruct s as [|b s]; [discriminate |]. rewrite prefix_cons.
  intros Hp. apply andb_true_iff in Hp as [_ Hp]. specialize (IH _ Hp). simpl. lia.
Qed.

Lemma prefix_append_byte c old s :
  has_byte c old = false ->
  String.prefix old (s +:+ String c "") = String.prefix old s.
Proof.
  revert s. induction old as [|a old IH]; intros s Hc; [rewrite !prefix_nil; reflexivity |].
  simpl in Hc. apply orb_false_iff in Hc as [Ha Hc].
  destruct s as [|b s].
  - rewrite append_nil_l, prefix_cons, Ha. reflexivity.
  - rewrite append_cons, !prefix_cons, IH by exact Hc. reflexivity.
Qed.

Lemma lookup_old_append_byte c oldnew s :
  without c oldnew ->
  lookup_old oldnew (s +:+ String c "") = lookup_old oldnew s.
Proof.
  induction 1 as [|[old new] oldnew [_ Hc] _ IH]; [reflexivity |].
  cbn [lookup_old]. cbn [fst] in Hc. rewrite (prefix_append_byte c old s Hc), IH.
  reflexivity.
Qed.

Lemma lookup_old_prefix oldnew s old new :
  lookup_old oldnew s = Some (old, new) -> String.prefix old s = true.
Proof.
  induction oldnew as [|[old' new'] oldnew IH]; [discriminate |].
  cbn [lookup_old]. destruct (String.prefix old' s) eqn:Hp; [|exact IH].
  intros [= <- _]. exact Hp.
Qed.

(** A byte that no old string has, at the end, is copied. *)
Lemma Replace_from_append_byte c oldnew : forall s skip,
  without c oldnew -> skip <= String.length s ->
  Replace_from oldnew skip (s +:+ String c "") =
  Replace_from oldnew skip s +:+ String c "".
Proof.
  induction s as [|b s IH]; intros skip Hw Hskip.
  - simpl in Hskip. assert (skip = 0) as -> by lia.
    rewrite append_nil_l. cbn [Replace_from].
    assert (lookup_old oldnew (String c "") = None) as ->; [|reflexivity].
    induction Hw as [|[old new] oldnew [Hne Hc] _ IHw]; [reflexivity |].
    cbn [lookup_old]. cbn [fst] in Hne, Hc.
    destruct old as [|a old]; [contradiction |].
    simpl in Hc. apply orb_false_iff in Hc as [Ha _].
    rewrite prefix_cons, Ha. exact IHw.
  - rewrite append_cons. cbn [Replace_from]. destruct skip as [|skip].
    + rewrite <- append_cons, (lookup_old_append_byte c oldnew (String b s) Hw).
      destruct (lookup_old oldnew (String b s)) as [[old new]|] eqn:Hl.
      * apply lookup_old_prefix, prefix_length in Hl. simpl in Hl.
        rewrite IH by (auto; lia). rewrite append_assoc. reflexivity.
      * rewrite IH by (auto; lia). reflexivity.
    + apply IH; [exact Hw | simpl in Hskip; lia].
Qed.

Lemma last_byte_append s c : last_byte (s +:+ String c "") = Some c.
Proof.
  induction s as [|b s IH]; [reflexivity |].
  rewrite append_cons. cbn [last_byte].
  destruct (s +:+ String c "") eqn:Hs; [destruct s; discriminate | exact IH].
Qed.

End ReplacerFacts.

Section FormatFacts.
Context `{Env}.
Import filepath.

(** X11. For a file that can be read and a template made of
    placeholders and of text without an opening brace, [Format] returns
    the text as it is with each placeholder replaced by its value, from
    left to right.  A value is written as it is: placeholders in the
    content or in the path of the file are not replaced. *)
Theorem X11_Format_fills_the_holes f path bytes segs :
  os_ReadFile path = Some bytes ->
  template f = template_text segs ->
  (forall text, In (Lit text) segs -> has_byte "{" text = false) ->
  Format f path =
    Some (concat_all
            (map (fill (placeholders (string_of_list_byte bytes) path)) segs)).
Proof.
  intros Hread Htpl Hlit. unfold Format. rewrite Hread, Htpl.
  rewrite Replace_segments by exact Hlit. reflexivity.
Qed.

(** The default template, cut into its segments. *)
Lemma DefaultTemplate_segments :
  DefaultTemplate =
  template_text
    [ Lit "=== File Start: "; Hole PhPath; Lit (" ===" +:+ nl +:+ "```");
      Hole PhExtension; Lit nl; Hole PhContent;
      Lit (nl +:+ "```" +:+ nl +:+ "=== File End: "); Hole PhPath;
      Lit (" ===" +:+ nl +:+ nl) ].
Proof. reflexivity. Qed.

Variable UserHomeDir : option string.

(** X12. Without a template flag and without a template file in the
    working directory or the home directory, a file that can be read is
    written as the block of [DefaultTemplate]: the line with its path,
    the fence with its extension, its content as it is, the closing
    fence, the end line with its path, and an empty line. *)
Theorem X12_Format_default_block path bytes :
  (forall wd, Getwd = Some wd -> os_ReadFile (Join wd templateFileName) = None) ->
  (forall homeDir, UserHomeDir = Some homeDir ->
     os_ReadFile (Join homeDir templateFileName) = None /\
     os_ReadFile (filepath.JoinElems [homeDir; ".config"; "contextgrep"; "template.txt"]) = None) ->
  os_ReadFile path = Some bytes ->
  exists ext,
    In ("{extension}", ext) (placeholders (string_of_list_byte bytes) path) /\
    Format (NewFormatter (LoadTemplate UserHomeDir "")) path =
      Some ("=== File Start: " +:+ (if IsAbs path then path else Clean path) +:+
            " ===" +:+ nl +:+
            "```" +:+ ext +:+ nl +:+
            string_of_list_byte bytes +:+ nl +:+
            "```" +:+ nl +:+
            "=== File End: " +:+ (if IsAbs path then path else Clean path) +:+
            " ===" +:+ nl +:+ nl).
Proof.
  intros Hlocal Hhome Hread.
  assert (LoadTemplate UserHomeDir "" = DefaultTemplate) as ->.
  { unfold LoadTemplate. cbn [String.eqb negb].
    destruct Getwd as [wd|]; [rewrite (Hlocal wd eq_refl) |];
      (destruct UserHomeDir as [homeDir|]; [|reflexivity]);
      destruct (Hhome homeDir eq_refl) as [-> ->]; reflexivity. }
  pose proof (placeholders_shape (string_of_list_byte bytes) path) as Hfields.
  cbv zeta in Hfields. eexists.
  split; [rewrite Hfields; do 5 right; left; reflexivity |].
  unfold Format. rewrite Hread. cbn [NewFormatter template].
  rewrite DefaultTemplate_segments, Replace_segments.
  - rewrite Hfields. cbn [map fill key value_of String.eqb Ascii.eqb Bool.eqb].
    cbn [concat_all fold_right]. rewrite !append_assoc, append_nil_r. reflexivity.
  - intros text [[= <-] | [[=] | [[= <-] | [[=] | [[= <-] | [[=] | [[= <-] | [[=] | [[= <-] | []]]]]]]]]];
      reflexivity.
Qed.

End FormatFacts.

Section WalkedPaths.
Context `{Env}.

Lemma entries_paths_In (paths_of : string -> node -> list string) path dirs f :
  In f (entries_paths paths_of path dirs) ->
  exists name d1, In (name, d1) dirs /\ In f (paths_of (filepath.Join path name) d1).
Proof.
  induction dirs as [|[name d1] dirs IH]; cbn [entries_paths]; [intros [] |].
  rewrite in_app_iff. intros [Hin | Hin].
  - exists name, d1. split; [left; reflexivity | exact Hin].
  - destruct (IH Hin) as (name' & d1' & Hd & Hf). exists name', d1'.
    split; [right; exact Hd | exact Hf].
Qed.

(** The path of a file or a link in a tree is the path of the root, or
    comes from a [Join]: it is clean, or empty. *)
Lemma file_paths_clean d : forall path f,
  In f (file_paths path d) -> f = path \/ f = "" \/ filepath.Clean f = f.
Proof.
  induction d as [perm content | perm entries IH | target _] using node_induction;
    intros path f; cbn [file_paths].
  - intros [<- | []]. left. reflexivity.
  - intros Hin. right.
    apply entries_paths_In in Hin as (name & d1 & Hd & Hf).
    rewrite List.Forall_forall in IH. specialize (IH _ Hd (filepath.Join path name) f Hf).
    cbn [snd] in IH. destruct IH as [-> | IH]; [apply Join_clean | exact IH].
  - intros [<- | []]. left. reflexivity.
Qed.

(** X13. The files that the walk of an input directory adds have clean
    paths, since [WalkDir] makes them with [Join], and [Format] shows
    such a file under the path the resolver returned: the value of
    [{path}] is the path itself.  The one exception is an input that is
    a symbolic link to a directory: [os.Stat] takes it for a directory,
    [WalkDir] does not follow it, and the one path added is the input
    as it was given.  (A file given as an input is shown under its
    cleaned path, which can differ from the input.) *)
Theorem X13_walked_files_keep_their_path p c perm entries s :
  cache_ok s ->
  os_Stat c = Some (Dir perm entries) ->
  exists s' added,
    processCandidate p c s = Some (tt, s') /\
    finalFiles s' = list_to_set added ∪ finalFiles s /\
    forall f, In f added -> f <> "" ->
      (exists target, os_Lstat c = Some (Link target) /\ f = c) \/
      (os_Lstat c = Some (Dir perm entries) /\
       filepath.Clean f = f /\
       forall content, In ("{path}", f) (placeholders content f)).
Proof.
  intros Hok Hstat.
  destruct (refines_processCandidate p c s Hok) as (s' & evs & Hrun & _ & Hf & _).
  destruct (os_Stat_Lstat c _ Hstat) as (d & Hlstat & Hfollow).
  assert (os_Stat c <> None) as Hex by congruence.
  destruct (candidate_prefix p c d Hlstat Hex) as (rest & Hk & _).
  exists s', (out_files (candidate_spec p c)). split; [exact Hrun |]. split; [exact Hf |].
  intros f Hin Hne.
  destruct (kept_sound p c d c f) as [_ Hfile].
  { rewrite Hk. apply in_app_iff. auto. }
  destruct d as [perm' content | perm' entries' | target].
  - discriminate Hfollow.
  - injection Hfollow as -> ->. right. split; [exact Hlstat |].
    assert (filepath.Clean f = f) as Hclean.
    { cbn [file_paths] in Hfile.
      apply entries_paths_In in Hfile as (name & d1 & _ & Hfile).
      destruct (file_paths_clean d1 _ _ Hfile) as [-> | [-> | Hc]];
        [|contradiction | exact Hc].
      destruct (Join_clean c name) as [Hj | Hj]; [contradiction | exact Hj]. }
    split; [exact Hclean |]. intros content.
    pose proof (placeholders_shape content f) as Hshape. cbv zeta in Hshape.
    rewrite Hshape. right. left. f_equal.
    destruct (filepath.IsAbs f); [reflexivity | exact Hclean].
  - left. exists target. split; [exact Hlstat |].
    destruct Hfile as [<- | []]. reflexivity.
Qed.

End WalkedPaths.

(** *** The template and the output loop *)

Section OutputFacts.
Context `{Env}.
Import filepath.
Variable accepts : string -> string -> bool.
Hypothesis accepts_all : forall taken chunk, accepts taken chunk = true.

Lemma WriteString_accepted w s :
  stuck w = false ->
  WriteString accepts w s = ({| taken := taken w +:+ s; stuck := false |}, true).
Proof. intros Hw. unfold WriteString. rewrite Hw, accepts_all. reflexivity. Qed.

Lemma Format_None f file : Format f file = None <-> os_ReadFile file = None.
Proof. unfold Format. destruct (os_ReadFile file); split; congruence. Qed.

Lemma Format_ends_with_newline f t file out :
  template f = t +:+ nl -> Format f file = Some out -> last_byte out = Some LF.
Proof.
  unfold Format. intros Ht. destruct (os_ReadFile file) as [bytes|]; [|discriminate].
  intros [= <-]. rewrite Ht. unfold Replace, nl.
  rewrite Replace_from_append_byte by (auto using placeholders_without; lia).
  apply last_byte_append.
Qed.

Lemma writeFiles_empty_template files :
  forall w, stuck w = false ->
  writeFiles accepts (NewFormatter "") files w = (w, unreadable files, false).
Proof.
  unfold unreadable.
  induction files as [|file files IH]; intros w Hw; cbn [writeFiles flat_map];
    [reflexivity |].
  unfold Format at 1. cbn [NewFormatter template].
  destruct (os_ReadFile file) as [bytes|].
  - cbn [Replace Replace_from]. rewrite (WriteString_accepted w "" Hw). cbn.
    rewrite append_nil_r.
    replace {| taken := taken w; stuck := false |} with w
      by (destruct w; simpl in *; subst; reflexivity).
    apply IH. exact Hw.
  - rewrite IH by exact Hw. reflexivity.
Qed.

End OutputFacts.

Section OutputTheorems.
Context `{Env}.
Import filepath.

(** X14. With a template that ends with a newline and a writer that
    takes everything, the loop of [RunE] writes the outputs of the files
    that can be read one after the other, in the order of the list and
    with nothing in between, reports exactly the files that cannot be
    read, and returns no error. *)
Theorem X14_newline_template_concatenates accepts formatter t files w :
  (forall taken chunk, accepts taken chunk = true) ->
  stuck w = false ->
  template formatter = t +:+ nl ->
  writeFiles accepts formatter files w =
    ({| taken := taken w +:+ concat_all (formatted formatter files); stuck := false |},
     unreadable files, false).
Proof.
  intros Hacc Hw Ht. unfold formatted, unreadable. revert w Hw.
  induction files as [|file files IH]; intros w Hw; cbn [writeFiles flat_map].
  - cbn [concat_all fold_right]. rewrite append_nil_r. destruct w; simpl in *; subst.
    reflexivity.
  - destruct (Format formatter file) as [out|] eqn:Hf.
    + assert (os_ReadFile file <> None) as Hr by (rewrite <- Format_None, Hf; discriminate).
      destruct (os_ReadFile file); [|contradiction].
      rewrite (WriteString_accepted accepts Hacc w out Hw). cbn [negb].
      rewrite (Format_ends_with_newline _ _ _ _ Ht Hf), Ascii.eqb_refl.
      cbn [negb]. rewrite andb_false_r. cbn [andb]. rewrite IH by reflexivity.
      cbn [taken app concat_all fold_right].
      rewrite append_assoc. reflexivity.
    + apply Format_None in Hf. rewrite Hf, IH by exact Hw. reflexivity.
Qed.

(** X15. When every file can be read and no output is empty or ends
    with a newline, the loop of [RunE] writes the outputs joined by one
    newline: a newline between two files, none after the last. *)
Theorem X15_plain_template_joins accepts formatter files outs w :
  (forall taken chunk, accepts taken chunk = true) ->
  stuck w = false ->
  List.Forall2 (fun file out => Format formatter file = Some out /\
                                out <> "" /\ last_byte out <> Some LF) files outs ->
  writeFiles accepts formatter files w =
    ({| taken := taken w +:+ String.concat nl outs; stuck := false |}, [], false).
Proof.
  intros Hacc Hw Hall. revert w Hw.
  induction Hall as [|file out files outs (Hf & Hne & Hlast) Hall IH]; intros w Hw.
  - cbn. rewrite append_nil_r. destruct w; simpl in *; subst. reflexivity.
  - cbn [writeFiles]. rewrite Hf, (WriteString_accepted accepts Hacc w out Hw).
    cbn [negb].
    assert (Nat.ltb 0 (String.length out) = true) as ->
      by (destruct out; [contradiction | reflexivity]).
    assert (negb match last_byte out with
                 | Some c => Ascii.eqb c LF
                 | None => false
                 end = true) as ->.
    { destruct (last_byte out) as [c|]; [|reflexivity].
      destruct (Ascii.eqb_spec c LF) as [->|_]; [contradiction | reflexivity]. }
    cbn [andb]. destruct Hall as [|file' out' files' outs' Hf' Hall'].
    + reflexivity.
    + assert (Nat.ltb 0 (length (file' :: files')) = true) as -> by reflexivity.
      rewrite WriteString_accepted by (exact Hacc || reflexivity). cbn [fst].
      rewrite IH by reflexivity. cbn [taken].
      change (String.concat nl (out :: out' :: outs'))
        with (out +:+ nl +:+ String.concat nl (out' :: outs')).
      rewrite !append_assoc. reflexivity.
Qed.

(** X16. An empty template file in the working directory is loaded as
    the empty template, not passed over for the default: without a
    template flag [LoadTemplate] returns the empty string, and the loop
    of [RunE] then writes nothing at all, whatever the files are. *)
Theorem X16_empty_local_template_silences accepts home wd files w :
  (forall taken chunk, accepts taken chunk = true) ->
  stuck w = false ->
  Getwd = Some wd ->
  os_ReadFile (Join wd templateFileName) = Some [] ->
  LoadTemplate home "" = "" /\
  writeFiles accepts (NewFormatter (LoadTemplate home "")) files w =
    (w, unreadable files, false).
Proof.
  intros Hacc Hw Hwd Hlocal.
  assert (LoadTemplate home "" = "") as ->.
  { unfold LoadTemplate. cbn [String.eqb negb]. rewrite Hwd, Hlocal. reflexivity. }
  split; [reflexivity |]. apply writeFiles_empty_template; assumption.
Qed.

End OutputTheorems.

(** *** The input paths *)

Section TrimFacts.

Lemma space_first_le l : space_first l <= length l.
Proof.
  destruct l as [|b1 [|b2 [|b3 l]]]; simpl; try lia.
  - destruct (asciiSpace b1); lia.
  - destruct (asciiSpace b1); [lia |]. destruct (space2 b1 b2); lia.
  - destruct (asciiSpace b1); [lia |]. destruct (space2 b1 b2); [lia |].
    destruct (space3 b1 b2 b3); lia.
Qed.

Lemma space_last_le l : space_last l <= length l.
Proof.
  destruct l as [|b1 [|b2 [|b3 l]]]; simpl; try lia.
  - destruct (asciiSpace b1); lia.
  - destruct (asciiSpace b1); [lia |]. destruct (space2 b2 b1); lia.
  - destruct (asciiSpace b1); [lia |]. destruct (space2 b2 b1); [lia |].
    destruct (space3 b3 b2 b1); lia.
Qed.

(** When the loop has fuel for every byte, it ends at something that
    is not white space. *)
Lemma trim_loop_done width :
  (forall l, width l <= length l) ->
  forall fuel l, length l <= fuel -> width (trim_loop width fuel l) = 0.
Proof.
  intros Hle. induction fuel as [|fuel IH]; intros l Hl; cbn [trim_loop].
  - specialize (Hle l). lia.
  - destruct (width l) as [|w] eqn:Hw; [exact Hw |].
    apply IH. rewrite length_skipn. specialize (Hle l). lia.
Qed.

Lemma trim_loop_id width fuel l : width l = 0 -> trim_loop width fuel l = l.
Proof. intros Hw. destruct fuel; cbn [trim_loop]; [|rewrite Hw]; reflexivity. Qed.

Lemma trim_loop_suffix width : forall fuel l,
  exists pre, l = pre ++ trim_loop width fuel l.
Proof.
  induction fuel as [|fuel IH]; intros l; cbn [trim_loop]; [exists []; reflexivity |].
  destruct (width l) as [|w]; [exists []; reflexivity |].
  destruct (IH (skipn (S w) l)) as (pre & Hpre).
  exists (firstn (S w) l ++ pre). rewrite <- app_assoc, <- Hpre.
  symmetry. apply firstn_skipn.
Qed.

(** What starts without white space still does when its end is cut. *)
Lemma space_first_prefix l1 l2 : space_first (l1 ++ l2) = 0 -> space_first l1 = 0.
Proof.
  destruct l1 as [|b1 [|b2 [|b3 l1]]]; [reflexivity | | |]; simpl.
  - destruct (asciiSpace b1); [discriminate | reflexivity].
  - destruct (asciiSpace b1); [discriminate |].
    destruct (space2 b1 b2); [discriminate | reflexivity].
  - auto.
Qed.

(** [TrimSpace] leaves nothing to trim. *)
Lemma TrimSpace_idempotent s : TrimSpace (TrimSpace s) = TrimSpace s.
Proof.
  unfold TrimSpace. rewrite list_ascii_of_string_of_list_ascii.
  set (t := TrimLeft (list_ascii_of_string s)).
  assert (space_first t = 0) as Ht
    by (apply trim_loop_done; [apply space_first_le | reflexivity]).
  set (u := TrimRight t).
  assert (space_last (rev u) = 0) as Hlast.
  { unfold u, TrimRight. rewrite rev_involutive.
    apply trim_loop_done; [apply space_last_le | rewrite length_rev; reflexivity]. }
  assert (space_first u = 0) as Hfirst.
  { unfold u, TrimRight.
    destruct (trim_loop_suffix space_last (length t) (rev t)) as (pre & Hpre).
    apply (space_first_prefix _ (rev pre)).
    rewrite <- rev_app_distr, <- Hpre, rev_involutive. exact Ht. }
  f_equal. unfold TrimLeft at 1. rewrite (trim_loop_id _ _ _ Hfirst).
  unfold TrimRight at 1. rewrite (trim_loop_id _ _ _ Hlast). apply rev_involutive.
Qed.

Lemma scan_paths_filter lines : forall paths,
  scan_paths lines paths =
  paths ++ List.filter (fun line => negb (String.eqb line "")) (map TrimSpace lines).
Proof.
  induction lines as [|text lines IH]; intros paths; cbn [scan_paths map List.filter].
  - rewrite app_nil_r. reflexivity.
  - destruct (negb (String.eqb (TrimSpace text) "")); rewrite IH; [|reflexivity].
    rewrite <- app_assoc. reflexivity.
Qed.

(** X18. Without arguments and with a standard input that is not a
    character device, [GetInputPaths] returns the lines of the input
    with their white space trimmed, in order and without the blank ones:
    no path it returns is empty, and none has white space left to trim.
    When the scanner ends with an error, it returns the error and no
    path. *)
Theorem X18_stdin_paths_are_trimmed lines :
  exists paths,
    GetInputPaths (StdinPiped lines false) [] = Returns paths /\
    GetInputPaths (StdinPiped lines true) [] = Fails /\
    paths = List.filter (fun line => negb (String.eqb line "")) (map TrimSpace lines) /\
    List.Forall (fun path => path <> "" /\ TrimSpace path = path) paths.
Proof.
  eexists. split; [reflexivity |]. split; [reflexivity |].
  rewrite scan_paths_filter. split; [reflexivity |]. cbn [app].
  apply List.Forall_forall. intros path Hin.
  apply List.filter_In in Hin as [Hin Hne]. apply List.in_map_iff in Hin as (text & <- & _).
  split; [|apply TrimSpace_idempotent].
  intros Heq. rewrite Heq in Hne. discriminate.
Qed.

End TrimFacts.

Section EmptyInput.
Context `{Env}.

(** X20. A piped standard input with blank lines only gives no path
    at all, not the current directory that a terminal gives: the
    resolver then returns no file and logs nothing but what [New] logs,
    and the output loop writes nothing. *)
Theorem X20_blank_pipe_gives_no_output cfg lines accepts formatter w s :
  (forall line, In line lines -> TrimSpace line = "") ->
  GetInputPaths (StdinPiped lines false) [] = Returns [] /\
  GetInputPaths StdinTerminal [] = Returns ["."] /\
  exists s' evs,
    resolvePaths cfg [] s = Some ([], s') /\
    log s' = log s ++ evs /\
    filter (fun e => observable e = true) evs = New_trace cfg /\
    writeFiles accepts formatter [] w = (w, [], false).
Proof.
  intros Hblank. split; [|split; [reflexivity |]].
  - cbn. rewrite scan_paths_filter. cbn [app]. f_equal.
    induction lines as [|line lines IH]; [reflexivity |].
    cbn [map List.filter]. rewrite (Hblank line) by (left; reflexivity).
    cbn. apply IH. intros l Hl. apply Hblank. right. exact Hl.
  - destruct (resolvePaths_run cfg [] s)
      as (order & s' & evs & Horder & Hrun & _ & _ & Hl & Ht).
    assert (order = []) as ->.
    { apply Permutation_nil_r. rewrite Horder. reflexivity. }
    exists s', evs. split_and!; auto.
    rewrite Ht. unfold run_trace, expand_trace. cbn [flat_map].
    rewrite !app_nil_r. reflexivity.
Qed.

End EmptyInput.

(** *** The release archive *)

Section Install.

Lemma platformMap_cases platform :
  platformMap !! platform =
  if String.eqb platform "darwin" then Some "Darwin"
  else if String.eqb platform "linux" then Some "Linux"
  else if String.eqb platform "win32" then Some "Windows"
  else None.
Proof.
  unfold platformMap.
  destruct (String.eqb_spec platform "darwin") as [->|H1]; [apply lookup_insert_eq |].
  rewrite lookup_insert_ne by congruence.
  destruct (String.eqb_spec platform "linux") as [->|H2]; [apply lookup_insert_eq |].
  rewrite lookup_insert_ne by congruence.
  destruct (String.eqb_spec platform "win32") as [->|H3]; [apply lookup_insert_eq |].
  rewrite lookup_insert_ne by congruence. apply lookup_empty.
Qed.

Lemma archMap_cases arch :
  archMap !! arch =
  if String.eqb arch "x64" then Some "x86_64"
  else if String.eqb arch "arm64" then Some "arm64"
  else if String.eqb arch "ia32" then Some "i386"
  else None.
Proof.
  unfold archMap.
  destruct (String.eqb_spec arch "x64") as [->|H1]; [apply lookup_insert_eq |].
  rewrite lookup_insert_ne by congruence.
  destruct (String.eqb_spec arch "arm64") as [->|H2]; [apply lookup_insert_eq |].
  rewrite lookup_insert_ne by congruence.
  destruct (String.eqb_spec arch "ia32") as [->|H3]; [apply lookup_insert_eq |].
  rewrite lookup_insert_ne by congruence. apply lookup_empty.
Qed.

Lemma inherited_In key : inherited key = true <-> In key Object_prototype.
Proof.
  unfold inherited. rewrite existsb_exists. split.
  - intros (name & Hin & Heq). apply String.eqb_eq in Heq as <-. exact Hin.
  - intros Hin. exists key. split; [exact Hin | apply String.eqb_refl].
Qed.

(** A lookup that gives a string found it in the literal. *)
Lemma js_get_platform_string platform os :
  js_get platformMap platform = JsString os ->
  platform = "darwin" /\ os = "Darwin" \/ platform = "linux" /\ os = "Linux" \/
  platform = "win32" /\ os = "Windows".
Proof.
  unfold js_get. rewrite platformMap_cases.
  destruct (String.eqb_spec platform "darwin"); [intros [= <-]; tauto |].
  destruct (String.eqb_spec platform "linux"); [intros [= <-]; tauto |].
  destruct (String.eqb_spec platform "win32"); [intros [= <-]; tauto |].
  destruct (inherited platform); discriminate.
Qed.

Lemma js_get_arch_string arch arch' :
  js_get archMap arch = JsString arch' ->
  arch = "x64" /\ arch' = "x86_64" \/ arch = "arm64" /\ arch' = "arm64" \/
  arch = "ia32" /\ arch' = "i386".
Proof.
  unfold js_get. rewrite archMap_cases.
  destruct (String.eqb_spec arch "x64"); [intros [= <-]; tauto |].
  destruct (String.eqb_spec arch "arm64"); [intros [= <-]; tauto |].
  destruct (String.eqb_spec arch "ia32"); [intros [= <-]; tauto |].
  destruct (inherited arch); discriminate.
Qed.

(** A lookup is truthy for the keys of the literal and for the names of
    [Object.prototype]. *)
Lemma platform_truthy platform :
  truthy (js_get platformMap platform) = true <->
  In platform (["darwin"; "linux"; "win32"] ++ Object_prototype).
Proof.
  rewrite in_app_iff, <- inherited_In. unfold js_get. rewrite platformMap_cases.
  destruct (String.eqb_spec platform "darwin") as [->|H1]; [cbn; tauto |].
  destruct (String.eqb_spec platform "linux") as [->|H2]; [cbn; tauto |].
  destruct (String.eqb_spec platform "win32") as [->|H3]; [cbn; tauto |].
  destruct (inherited platform); cbn [truthy In]; [tauto |].
  split; [discriminate |]. intros [[? | [? | [? | []]]] | ?]; congruence.
Qed.

Lemma arch_truthy arch :
  truthy (js_get archMap arch) = true <->
  In arch (["x64"; "arm64"; "ia32"] ++ Object_prototype).
Proof.
  rewrite in_app_iff, <- inherited_In. unfold js_get. rewrite archMap_cases.
  destruct (String.eqb_spec arch "x64") as [->|H1]; [cbn; tauto |].
  destruct (String.eqb_spec arch "arm64") as [->|H2]; [cbn; tauto |].
  destruct (String.eqb_spec arch "ia32") as [->|H3]; [cbn; tauto |].
  destruct (inherited arch); cbn [truthy In]; [tauto |].
  split; [discriminate |]. intros [[? | [? | [? | []]]] | ?]; congruence.
Qed.

(** A lookup gives what the object inherits for the names of
    [Object.prototype], none of which is a key of a literal. *)
Lemma js_get_inherited own key :
  (forall name, In name Object_prototype -> own !! name = None) ->
  (js_get own key = JsInherited key <-> In key Object_prototype).
Proof.
  intros Hown. rewrite <- inherited_In. unfold js_get.
  destruct (own !! key) as [v|] eqn:Hget.
  - split; [discriminate |]. intros Hin. apply inherited_In, Hown in Hin. congruence.
  - destruct (inherited key); split; congruence.
Qed.

Lemma platformMap_own name : In name Object_prototype -> platformMap !! name = None.
Proof.
  intros Hin. rewrite platformMap_cases.
  repeat (destruct Hin as [<- | Hin]; [reflexivity |]). destruct Hin.
Qed.

Lemma archMap_own name : In name Object_prototype -> archMap !! name = None.
Proof.
  intros Hin. rewrite archMap_cases.
  repeat (destruct Hin as [<- | Hin]; [reflexivity |]). destruct Hin.
Qed.

(** The nine mappings of two strings. *)
Lemma getPlatformMapping_Some platform arch os arch' :
  getPlatformMapping platform arch = Some (JsString os, JsString arch') ->
  (platform = "darwin" /\ os = "Darwin" \/ platform = "linux" /\ os = "Linux" \/
   platform = "win32" /\ os = "Windows") /\
  (arch = "x64" /\ arch' = "x86_64" \/ arch = "arm64" /\ arch' = "arm64" \/
   arch = "ia32" /\ arch' = "i386").
Proof.
  unfold getPlatformMapping.
  destruct (negb (truthy (js_get platformMap platform)) ||
            negb (truthy (js_get archMap arch))); [discriminate |].
  intros [= Hos Harch]. split.
  - apply js_get_platform_string. exact Hos.
  - apply js_get_arch_string. exact Harch.
Qed.

(** X21. [getPlatformMapping] reads the platform and the architecture
    as properties of two object literals, which also have the names of
    [Object.prototype].  It throws exactly when the platform is neither
    darwin, linux or win32 nor such a name, or the architecture neither
    x64, arm64 or ia32 nor such a name; for a name of the prototype it
    returns the inherited value, not a string.  When it returns two
    strings, the platform and the architecture are among the three
    each, the archive that [downloadAndExtract] asks for is a zip
    exactly on win32 and a gzipped tar elsewhere, and two different
    such pairs never ask for the same file. *)
Theorem X21_release_archive_per_platform platform arch :
  (getPlatformMapping platform arch = None <->
     ~ In platform (["darwin"; "linux"; "win32"] ++ Object_prototype) \/
     ~ In arch (["x64"; "arm64"; "ia32"] ++ Object_prototype)) /\
  (forall os arch', getPlatformMapping platform arch = Some (os, arch') ->
     (os = JsInherited platform <-> In platform Object_prototype) /\
     (arch' = JsInherited arch <-> In arch Object_prototype)) /\
  (forall os arch',
     getPlatformMapping platform arch = Some (JsString os, JsString arch') ->
     In platform ["darwin"; "linux"; "win32"] /\
     In arch ["x64"; "arm64"; "ia32"] /\
     (HasSuffix (fileName os arch') ".zip" = true <-> platform = "win32") /\
     (HasSuffix (fileName os arch') ".tar.gz" = true <-> platform <> "win32") /\
     forall platform2 arch2 os2 arch2',
       getPlatformMapping platform2 arch2 = Some (JsString os2, JsString arch2') ->
       fileName os arch' = fileName os2 arch2' ->
       platform = platform2 /\ arch = arch2).
Proof.
  split_and!.
  - unfold getPlatformMapping. rewrite <- platform_truthy, <- arch_truthy.
    destruct (truthy (js_get platformMap platform)),
      (truthy (js_get archMap arch)); cbn [negb orb];
      split; intros Hx; try discriminate Hx; try reflexivity;
      try (left; discriminate); try (right; discriminate);
      destruct Hx as [Hx | Hx]; exfalso; apply Hx; reflexivity.
  - intros os arch'. unfold getPlatformMapping.
    destruct (negb (truthy (js_get platformMap platform)) ||
              negb (truthy (js_get archMap arch))); [discriminate |].
    intros [= <- <-]. split.
    + apply js_get_inherited, platformMap_own.
    + apply js_get_inherited, archMap_own.
  - intros os arch' Hm. destruct (getPlatformMapping_Some _ _ _ _ Hm) as [Hp Ha].
    split_and!.
    + cbn [In]. destruct Hp as [[-> _] | [[-> _] | [-> _]]]; tauto.
    + cbn [In]. destruct Ha as [[-> _] | [[-> _] | [-> _]]]; tauto.
    + destruct Hp as [[-> ->] | [[-> ->] | [-> ->]]],
        Ha as [[-> ->] | [[-> ->] | [-> ->]]];
        vm_compute; split; intros Hx; try discriminate Hx; reflexivity.
    + destruct Hp as [[-> ->] | [[-> ->] | [-> ->]]],
        Ha as [[-> ->] | [[-> ->] | [-> ->]]];
        vm_compute; split; intros Hx; try discriminate Hx; try reflexivity;
        try (intros Hy; discriminate Hy); exfalso; apply Hx; reflexivity.
    + intros platform2 arch2 os2 arch2' Hm2.
      destruct (getPlatformMapping_Some _ _ _ _ Hm2) as [Hp2 Ha2].
      destruct Hp as [[-> ->] | [[-> ->] | [-> ->]]],
        Ha as [[-> ->] | [[-> ->] | [-> ->]]],
        Hp2 as [[-> ->] | [[-> ->] | [-> ->]]],
        Ha2 as [[-> ->] | [[-> ->] | [-> ->]]];
        intros Heq; try discriminate Heq; split; reflexivity.
Qed.

End Install.

(** *** Errors of the output *)

Section OutputErrors.
Context `{Env}.


End OutputErrors.

(* ------------------------------------------------------------------ *)
(** ** The claims on the concrete environment *)
(* ------------------------------------------------------------------ *)

#[local] Existing Instance Demo.demo_env.

Example Clean_examples :
  filepath.Clean "/a/./b/../c/" = "/a/c" /\
  filepath.Clean "../a//b" = "../a/b" /\
  filepath.Clean "" = "." /\
  filepath.Join "." "main.go" = "main.go" /\
  filepath.Join "proj" "locked" = "proj/locked" /\
  filepath.Dir "/a/b" = "/a" /\
  filepath.Dir "/a" = "/" /\
  filepath.Dir "/" = "/".
Proof. repeat split. Qed.

Example Rel_examples :
  filepath.Rel "/a" "/a/b/c" = Some "b/c" /\
  filepath.Rel "/a/b" "/a/b" = Some "." /\
  filepath.Rel "/a/b" "/a/c" = Some "../c" /\
  filepath.Rel "." "./x/../y" = Some "y" /\
  filepath.Rel "." "/a/b" = None.
Proof. repeat split. Qed.

Example ancestors_example :
  ancestors 16 "/work/proj/dist" = ["/work/proj/dist"; "/work/proj"; "/work"; "/"].
Proof. reflexivity. Qed.

(** The e2e tests sort as bytes do: the slash comes after the hyphen. *)
Example sort_Strings_example :
  sort_Strings ["src/main.go"; "a/b"; "a-b"; "README.md"; ".gitignore"] =
  [".gitignore"; "README.md"; "a-b"; "a/b"; "src/main.go"].
Proof. vm_compute. reflexivity. Qed.

(** C1 with a configuration under which each stage excludes one path
    of [proj]: [proj/z.txt] is excluded at stage 1 and nothing else is
    evaluated; [proj/a.txt] at stage 2; the directory [proj/dist] at
    stage 3, after the calls of stage 3; [proj/bin.dat] at stage 4,
    after the open.  With gitignore support disabled,
    [proj/dist/bundle.js], which only the .gitignore of [proj]
    excludes, is included. *)
Lemma C1_witness :
  cache_ok initial /\
  (stage_excludes Demo.proc_all_stages "proj/z.txt" StageExclude /\
   exists s',
     shouldInclude Demo.proc_all_stages "proj/z.txt" initial = Some (false, s') /\
     log s' = [EvCheck StageExclude "proj/z.txt"]) /\
  (~ stage_excludes Demo.proc_all_stages "proj/a.txt" StageExclude /\
   stage_excludes Demo.proc_all_stages "proj/a.txt" StageCustomIgnore /\
   exists s',
     shouldInclude Demo.proc_all_stages "proj/a.txt" initial = Some (false, s') /\
     log s' = [EvCheck StageExclude "proj/a.txt";
               EvCheck StageCustomIgnore "proj/a.txt"]) /\
  (~ stage_excludes Demo.proc_all_stages "proj/dist" StageExclude /\
   ~ stage_excludes Demo.proc_all_stages "proj/dist" StageCustomIgnore /\
   stage_excludes Demo.proc_all_stages "proj/dist" StageGitignore /\
   exists s' git,
     shouldSkipDir Demo.proc_all_stages "proj/dist" initial = Some (true, s') /\
     log s' = [EvCheck StageExclude "proj/dist";
               EvCheck StageCustomIgnore "proj/dist";
               EvCheck StageGitignore "proj/dist"] ++ git /\
     Forall (git_call "proj/dist") git) /\
  (~ stage_excludes Demo.proc_all_stages "proj/bin.dat" StageExclude /\
   ~ stage_excludes Demo.proc_all_stages "proj/bin.dat" StageCustomIgnore /\
   ~ stage_excludes Demo.proc_all_stages "proj/bin.dat" StageGitignore /\
   stage_excludes Demo.proc_all_stages "proj/bin.dat" StageBinary /\
   exists s' git,
     shouldInclude Demo.proc_all_stages "proj/bin.dat" initial = Some (false, s') /\
     log s' = [EvCheck StageExclude "proj/bin.dat";
               EvCheck StageCustomIgnore "proj/bin.dat";
               EvCheck StageGitignore "proj/bin.dat"] ++ git ++
              [EvCheck StageBinary "proj/bin.dat"; EvOpen "proj/bin.dat"] /\
     Forall (git_call "proj/bin.dat") git) /\
  (NoGitignore (config Demo.proc_no_gitignore) = true /\
   rules_match "/work/proj/dist/bundle.js" "/work/proj" = true /\
   exists s',
     shouldInclude Demo.proc_no_gitignore "proj/dist/bundle.js" initial = Some (true, s') /\
     log s' = [EvCheck StageExclude "proj/dist/bundle.js";
               EvCheck StageGitignore "proj/dist/bundle.js";
               EvCheck StageBinary "proj/dist/bundle.js";
               EvOpen "proj/dist/bundle.js"]).
Proof.
  split; [apply cache_ok_initial |].
  assert (forall path st,
            stage_matches Demo.proc_all_stages path st = false ->
            ~ stage_excludes Demo.proc_all_stages path st) as Hnot.
  { intros path st Hm Hex.
    destruct (C1_precedence_chain Demo.proc_all_stages path initial cache_ok_initial)
      as (Hiff & _).
    apply Hiff in Hex. congruence. }
  assert (forall path st,
            stage_matches Demo.proc_all_stages path st = true ->
            stage_excludes Demo.proc_all_stages path st) as Hyes.
  { intros path st Hm.
    destruct (C1_precedence_chain Demo.proc_all_stages path initial cache_ok_initial)
      as (Hiff & _).
    apply Hiff. exact Hm. }
  split_and!.
  - apply Hyes. reflexivity.
  - destruct (C1_precedence_chain Demo.proc_all_stages "proj/z.txt" initial
                cache_ok_initial)
      as (_ & _ & (s' & evs & git & Hrun & Hl & _ & Hevs & _ & Hcut & _) & _).
    rewrite (Hcut (or_introl eq_refl)) in Hevs. subst evs.
    exists s'. split; [exact Hrun | exact Hl].
  - apply Hnot. reflexivity.
  - apply Hyes. reflexivity.
  - destruct (C1_precedence_chain Demo.proc_all_stages "proj/a.txt" initial
                cache_ok_initial)
      as (_ & _ & (s' & evs & git & Hrun & Hl & _ & Hevs & _ & Hcut & _) & _).
    rewrite (Hcut (or_intror eq_refl)) in Hevs. subst evs.
    exists s'. split; [exact Hrun | exact Hl].
  - apply Hnot. reflexivity.
  - apply Hnot. reflexivity.
  - apply Hyes. reflexivity.
  - destruct (C1_precedence_chain Demo.proc_all_stages "proj/dist" initial
                cache_ok_initial)
      as (_ & (s' & evs & git & Hrun & Hl & _ & Hevs & Hgit & _) & _).
    subst evs. exists s', git. split; [exact Hrun |]. split; [exact Hl | exact Hgit].
  - apply Hnot. reflexivity.
  - apply Hnot. reflexivity.
  - apply Hnot. reflexivity.
  - apply Hyes. reflexivity.
  - destruct (C1_precedence_chain Demo.proc_all_stages "proj/bin.dat" initial
                cache_ok_initial)
      as (_ & _ & (s' & evs & git & Hrun & Hl & _ & Hevs & Hgit & _) & _).
    subst evs. exists s', git. split; [exact Hrun |]. split; [exact Hl | exact Hgit].
  - reflexivity.
  - reflexivity.
  - destruct (C1_precedence_chain Demo.proc_no_gitignore "proj/dist/bundle.js" initial
                cache_ok_initial)
      as (_ & _ & (s' & evs & git & Hrun & Hl & _ & Hevs & _ & _ & Hoff) & _).
    rewrite (Hoff eq_refl) in Hevs. subst evs.
    exists s'. split; [exact Hrun | exact Hl].
Defined.

(** C4 on [proj/dist/bundle.js]: the ruleset of [/work/proj] matches
    [dist/bundle.js]. *)
Lemma C4_witness :
  cache_ok initial /\
  NoGitignore (config Demo.proc_default) = false /\
  exists s', isGitignored Demo.proc_default "proj/dist/bundle.js" initial = Some (true, s').
Proof.
  split; [apply cache_ok_initial |]. split; [reflexivity |].
  destruct (C4_gitignore_resolver Demo.proc_default "proj/dist/bundle.js" initial
              cache_ok_initial) as [Hen _].
  destruct (Hen eq_refl) as (b & s' & Hrun & Hiff & _).
  exists s'. rewrite Hrun. f_equal. f_equal. apply Hiff.
  exists "/work/proj/dist/bundle.js", "/work/proj", ["dist"], "dist/bundle.js".
  split; [reflexivity |]. split; [|repeat split].
  change (on_chain "/work/proj/dist" (filepath.Dir "/work/proj/dist")).
  apply chain_parent; [apply chain_start | discriminate].
Defined.

(** C2 at the failing input: with [NoRecursive] set and the plain input
    [nr], the files two and three levels down are in the result. *)
Lemma C2_non_recursive_mode_descends :
  NoRecursive Demo.cfg_no_recursive = true /\
  Contains "nr" "**" = false /\
  option_map fst (Demo.run Demo.cfg_no_recursive ["nr"]) =
    Some ["nr/sub/deep/low.txt"; "nr/sub/mid.txt"; "nr/top.txt"].
Proof. repeat split. Qed.

(** C3 on the inputs [nr] and [nr/sub/mid.txt] with the exclude glob
    [nr/sub]: the walk of [nr] leaves the directory alone, and the
    result holds a path under it exactly when the other input adds
    it. *)
Lemma C3_witness :
  cache_ok initial /\
  "nr" ∈ expand_spec ["nr"; "nr/sub/mid.txt"] /\
  os_Lstat "nr" = Some Demo.demo_nr /\
  List.NoDup (tree_paths "nr" Demo.demo_nr) /\
  descends "nr" Demo.demo_nr "nr/sub" (Dir true Demo.demo_sub) /\
  skip_spec (New_spec cfg_exclude_sub) "nr/sub" = true /\
  (forall s1, cache_ok s1 ->
     exists s2 evs,
       processCandidate (New_spec cfg_exclude_sub) "nr" s1 = Some (tt, s2) /\
       log s2 = log s1 ++ evs /\
       (forall f, In f (tree_paths "nr/sub" (Dir true Demo.demo_sub)) ->
          (f ∈ finalFiles s2 -> f ∈ finalFiles s1) /\
          (forall ok, ~ In (EvReadDir f ok) evs) /\
          ~ In (EvOpen f) evs /\
          (forall st, In (EvCheck st f) evs -> f = "nr/sub")) /\
       (forall g, In (EvLoadIgnore g) evs ->
          exists t a dir,
            In t (tree_paths "nr" Demo.demo_nr) /\
            (In t (tree_paths "nr/sub" (Dir true Demo.demo_sub)) -> t = "nr/sub") /\
            filepath.Abs Getwd t = Some a /\
            on_chain (start_dir a) dir /\
            g = filepath.Join dir ".gitignore") /\
       (forall w, In (EvWarn w) evs ->
          exists dir, In (EvReadDir dir false) evs /\
                      ~ In dir (tree_paths "nr/sub" (Dir true Demo.demo_sub)))) /\
  (exists files s',
     ProcessPaths (New_spec cfg_exclude_sub) ["nr"; "nr/sub/mid.txt"] initial =
       Some (files, s') /\
     forall f, In f (tree_paths "nr/sub" (Dir true Demo.demo_sub)) ->
       (In f files <->
        exists c', c' ∈ expand_spec ["nr"; "nr/sub/mid.txt"] /\ c' <> "nr" /\
                   In f (out_files (candidate_spec (New_spec cfg_exclude_sub) c')))).
Proof.
  assert ("nr" ∈ expand_spec ["nr"; "nr/sub/mid.txt"]) as Hc.
  { apply (bool_decide_unpack _). vm_compute. reflexivity. }
  assert (List.NoDup (tree_paths "nr" Demo.demo_nr)) as Hnd.
  { apply NoDup_ListNoDup. apply (bool_decide_unpack _). vm_compute. reflexivity. }
  assert (descends "nr" Demo.demo_nr "nr/sub" (Dir true Demo.demo_sub)) as Hdesc.
  { vm_compute. apply (descends_entry "nr" true _ "sub"). cbn. tauto. }
  split; [apply cache_ok_initial |]. split; [exact Hc |]. split; [reflexivity |].
  split; [exact Hnd |]. split; [exact Hdesc |]. split; [reflexivity |].
  exact (C3_pruned_directory (New_spec cfg_exclude_sub) ["nr"; "nr/sub/mid.txt"]
           "nr" Demo.demo_nr "nr/sub" true Demo.demo_sub initial
           cache_ok_initial Hc eq_refl Hnd Hdesc eq_refl).
Defined.

(** C3 fails as stated, in two ways.  With the exclude glob [nr/sub]
    the directory [nr/sub], met below the input [nr], is excluded at
    stage 1, and the file [nr/sub/mid.txt] inside it is in the result
    of the run on [nr] and [nr/sub/mid.txt]: as an input of its own it
    is filtered on its own path, which the glob does not match.  And
    the directory [proj/dist], met below the input [proj], is excluded
    at stage 3 by the .gitignore of [proj]; testing it, the resolver
    loads the file [proj/dist/.gitignore] inside it, which is there
    and can be read. *)
Lemma C3_counterexample :
  (skip_spec (New_spec cfg_exclude_sub) "nr/sub" = true /\
   descends "nr" Demo.demo_nr "nr/sub" (Dir true Demo.demo_sub) /\
   In "nr/sub/mid.txt" (file_paths "nr/sub" (Dir true Demo.demo_sub)) /\
   exists files evs,
     Demo.run cfg_exclude_sub ["nr"; "nr/sub/mid.txt"] = Some (files, evs) /\
     In "nr/sub/mid.txt" files) /\
  (skip_spec Demo.proc_exclude_locked "proj/dist" = true /\
   (exists entries, In ("dist", Dir true entries) 
                       (match Demo.demo_proj with Dir _ es => es | _ => [] end) /\
                    In (".gitignore", File true (Demo.text "*.map")) entries) /\
   os_ReadFile "/work/proj/dist/.gitignore" = Some (Demo.text "*.map") /\
   exists files evs,
     Demo.run Demo.cfg_exclude_locked ["proj"] = Some (files, evs) /\
     In (EvLoadIgnore "/work/proj/dist/.gitignore") evs /\
     warnings_of evs = []).
Proof.
  split.
  - split; [reflexivity |]. split.
    { vm_compute. apply (descends_entry "nr" true _ "sub"). cbn. tauto. }
    split; [vm_compute; tauto |].
    eexists _, _. split; [vm_compute; reflexivity |]. cbn. tauto.
  - split; [reflexivity |]. split.
    { eexists. split; [vm_compute; do 3 right; left; reflexivity |].
      left. reflexivity. }
    split; [reflexivity |].
    eexists _, _. split; [vm_compute; reflexivity |].
    split; [cbn; tauto | reflexivity].
Qed.

(** With the exclude glob the run on [proj] is silent and reaches
    [proj/z.txt], the entry after the excluded directory. *)
Example C3_excluded_locked_directory :
  exists files evs,
    Demo.run Demo.cfg_exclude_locked ["proj"] = Some (files, evs) /\
    files = ["proj/.gitignore"; "proj/a.txt"; "proj/z.txt"] /\
    warnings_of evs = [] /\
    failed_reads evs = [].
Proof. eexists _, _. split; [vm_compute; reflexivity |]. repeat split. Qed.

(** C5 on the inputs [proj] and [rd]: the walk of [proj] ends at the
    directory that cannot be listed, [rd] is processed all the same. *)
Lemma C5_witness :
  cache_ok initial /\
  (exists files s' evs,
      ProcessPaths Demo.proc_default ["proj"; "rd"] initial = Some (files, s') /\
      log s' = log initial ++ evs /\
      sort_Strings files =
        ["proj/.gitignore"; "proj/a.txt"; "rd/ok.txt"; "rd/sealed.txt"; "rd/z.txt"]) /\
  (exists s2 evs pre,
      processCandidate Demo.proc_default "proj" initial = Some (tt, s2) /\
      log s2 = log initial ++ evs /\
      filter (fun e => observable e = true) evs =
        pre ++ [EvReadDir "proj/locked" false; EvWarn (WarnWalk "proj")] /\
      clean_trace pre).
Proof.
  split; [apply cache_ok_initial |].
  destruct (C5_unreadable_directory_abandons_walk Demo.proc_default ["proj"; "rd"]
              initial cache_ok_initial)
    as [(order & files & s' & evs & _ & Hrun & Hl & _ & _) Hcand].
  split.
  - exists files, s', evs. split; [exact Hrun |]. split; [exact Hl |].
    assert (option_map fst (ProcessPaths Demo.proc_default ["proj"; "rd"] initial)
            = Some files) as Hfst by (rewrite Hrun; reflexivity).
    vm_compute in Hfst. injection Hfst as <-. vm_compute. reflexivity.
  - destruct (Hcand "proj" initial cache_ok_initial)
      as (s2 & evs2 & Hrun2 & _ & _ & Hl2 & Ht2 & Hshape).
    destruct Hshape as [[[Hfailed _] _] | (pre & dir & Htr & Hpre & _)];
      [vm_compute in Hfailed; discriminate |].
    exists s2, evs2, pre. split; [exact Hrun2 |]. split; [exact Hl2 |].
    split; [|exact Hpre].
    rewrite Ht2, Htr. f_equal.
    assert (dir = "proj/locked") as ->; [|reflexivity].
    assert (failed_reads (out_trace (candidate_spec Demo.proc_default "proj")) = [dir])
      as Hdir.
    { rewrite Htr, failed_reads_app. destruct Hpre as [-> _]. reflexivity. }
    vm_compute in Hdir. injection Hdir as <-. reflexivity.
Defined.

(** C5 fails as stated: [proj/z.txt] is a file of the tree of [proj]
    that the filter includes and that is not inside the unreadable
    directory, and the run on [proj] does not return it. *)
Lemma C5_counterexample :
  exists files evs,
    Demo.run Demo.cfg_default ["proj"] = Some (files, evs) /\
    In (EvReadDir "proj/locked" false) evs /\
    In (EvWarn (WarnWalk "proj")) evs /\
    In "proj/z.txt" (tree_paths "proj" Demo.demo_proj) /\
    include_spec Demo.proc_default "proj/z.txt" = true /\
    ~ In "proj/z.txt" files.
Proof.
  eexists _, _. split; [vm_compute; reflexivity |].
  split; [cbn; tauto |]. split; [cbn; tauto |].
  split; [vm_compute; tauto |]. split; [reflexivity |].
  intros [Hin | [Hin | []]]; discriminate.
Qed.

(** The matches of a glob are inputs of their own: for [proj/*] the
    directory that cannot be listed is walked by itself, the warning
    names it, and [proj/z.txt], another match, is returned. *)
Example C5_glob_matches_are_walked_one_by_one :
  exists files evs,
    Demo.run Demo.cfg_default ["proj/*"] = Some (files, evs) /\
    elements (expand_spec ["proj/*"]) ≡ₚ
      ["proj/.gitignore"; "proj/a.txt"; "proj/bin.dat"; "proj/dist";
       "proj/locked"; "proj/z.txt"] /\
    files = ["proj/.gitignore"; "proj/a.txt"; "proj/z.txt"] /\
    warnings_of evs = [WarnWalk "proj/locked"] /\
    failed_reads evs = ["proj/locked"].
Proof.
  eexists _, _. split; [vm_compute; reflexivity |].
  split; [|repeat split].
  apply NoDup_Permutation.
  - apply NoDup_elements.
  - apply (bool_decide_unpack _). vm_compute. reflexivity.
  - intros x. rewrite elem_of_elements.
    assert (expand_spec ["proj/*"] =
            list_to_set ["proj/.gitignore"; "proj/a.txt"; "proj/bin.dat"; "proj/dist";
                         "proj/locked"; "proj/z.txt"]) as ->.
    { apply (bool_decide_unpack _). vm_compute. reflexivity. }
    rewrite elem_of_list_to_set. reflexivity.
Qed.

(** C7 on [proj/bin.dat]: readable, with a zero byte. *)
Lemma C7_witness :
  cache_ok initial /\
  resolve "proj/bin.dat" = Some (File true [x62; x00; x63]) /\
  skip_spec Demo.proc_default "proj/bin.dat" = false /\
  exists s', shouldInclude Demo.proc_default "proj/bin.dat" initial = Some (false, s').
Proof.
  split; [apply cache_ok_initial |]. split; [reflexivity |]. split; [reflexivity |].
  destruct (C7_binary_check Demo.proc_default "proj/bin.dat" initial true [x62; x00; x63]
              cache_ok_initial eq_refl eq_refl) as (b & s' & Hrun & Hen & _).
  exists s'. rewrite Hrun. f_equal. f_equal. apply (Hen eq_refl).
  split; [reflexivity | right; left; reflexivity].
Defined.

(** C7 fails as stated: [rd/sealed.txt] is a regular file that survives
    stages 1 to 3, its first min(size, 1024) bytes contain a zero byte,
    the binary check is enabled, and the filter includes it. *)
Lemma C7_counterexample :
  resolve "rd/sealed.txt" = Some (File false [x73; x00; x74]) /\
  In nul (firstn (Nat.min (length [x73; x00; x74]) 1024) [x73; x00; x74]) /\
  NoBinaryCheck (config Demo.proc_default) = false /\
  skip_spec Demo.proc_default "rd/sealed.txt" = false /\
  exists s', shouldInclude Demo.proc_default "rd/sealed.txt" initial = Some (true, s').
Proof.
  split; [reflexivity |]. split; [right; left; reflexivity |].
  split; [reflexivity |]. split; [reflexivity |].
  eexists. vm_compute. reflexivity.
Qed.

(** C8 on [rd/sealed.txt], met in the walk of [rd]. *)
Lemma C8_witness :
  cache_ok initial /\
  resolve "rd/sealed.txt" = Some (File false [x73; x00; x74]) /\
  exists s' evs,
    walkFn Demo.proc_default "rd" "rd/sealed.txt" false None initial = Some (None, s') /\
    log s' = log initial ++ evs /\
    (forall w, ~ In (EvWarn w) evs) /\
    finalFiles s' = {[ "rd/sealed.txt" ]} ∪ finalFiles initial.
Proof.
  split; [apply cache_ok_initial |]. split; [reflexivity |].
  exact (C8_unreadable_file_is_kept Demo.proc_default "rd" "rd/sealed.txt" initial
           [x73; x00; x74] cache_ok_initial eq_refl).
Defined.

(** C8 fails as stated: [rd/sealed.txt] cannot be opened, the run on
    [rd] logs no diagnostic, and the file is in the result. *)
Lemma C8_counterexample :
  exists files evs,
    Demo.run Demo.cfg_default ["rd"] = Some (files, evs) /\
    os_Open "rd/sealed.txt" = None /\
    os_ReadFile "rd/sealed.txt" = None /\
    In (EvOpen "rd/sealed.txt") evs /\
    warnings_of evs = [] /\
    In "rd/sealed.txt" files.
Proof.
  eexists _, _. split; [vm_compute; reflexivity |].
  split; [reflexivity |]. split; [reflexivity |].
  split; [cbn; tauto |]. split; [reflexivity |]. cbn. tauto.
Qed.

(** C6 on overlapping inputs: [rd/ok.txt] is matched three times and
    listed once. *)
Example C6_overlapping_inputs :
  option_map fst (Demo.run Demo.cfg_default ["rd"; "rd/ok.txt"; "rd"]) =
  Some ["rd/ok.txt"; "rd/sealed.txt"; "rd/z.txt"].
Proof. vm_compute. reflexivity. Qed.

(** C9 on two inputs. *)
Example C9_two_inputs :
  option_map fst (Demo.run Demo.cfg_default ["nr"]) =
    Some ["nr/sub/deep/low.txt"; "nr/sub/mid.txt"; "nr/top.txt"] /\
  option_map fst (Demo.run Demo.cfg_default ["rd"]) =
    Some ["rd/ok.txt"; "rd/sealed.txt"; "rd/z.txt"] /\
  option_map fst (Demo.run Demo.cfg_default ["nr"; "rd"]) =
    Some ["nr/sub/deep/low.txt"; "nr/sub/mid.txt"; "nr/top.txt";
          "rd/ok.txt"; "rd/sealed.txt"; "rd/z.txt"].
Proof. repeat split. Qed.

(** C10 on the ignore file [/work/patterns.ignore] with the line
    [a.txt]: [proj/a.txt] is asked about as it is, relative to the
    working directory, and excluded at stage 2. *)
Lemma C10_witness :
  cache_ok initial /\
  customIgnoreMatcher Demo.proc_custom_ignore = Some ["a.txt"] /\
  isExcluded Demo.proc_custom_ignore "proj/a.txt" = false /\
  filepath.IsAbs "proj/a.txt" = false /\
  filepath.Rel "." "proj/a.txt" = Some "proj/a.txt" /\
  MatchesPath (["a.txt"] : Matcher) (filepath.ToSlash "proj/a.txt") = true /\
  exists s' evs,
    shouldSkipDir Demo.proc_custom_ignore "proj/a.txt" initial = Some (true, s') /\
    log s' = log initial ++ evs /\
    checks_of evs = [StageExclude; StageCustomIgnore].
Proof.
  split; [apply cache_ok_initial |]. do 5 (split; [reflexivity |]).
  destruct (C10_custom_ignore_is_cwd_relative Demo.cfg_custom_ignore "proj/a.txt" initial)
    as (proc & s1 & Hnew & Hm & _ & _ & _ & Hstage).
  assert (proc = Demo.proc_custom_ignore) as ->.
  { assert (option_map fst (New Demo.cfg_custom_ignore initial) = Some proc) as Hfst
      by (rewrite Hnew; reflexivity).
    vm_compute in Hfst. injection Hfst as <-. reflexivity. }
  destruct (Hstage ["a.txt"] initial cache_ok_initial eq_refl eq_refl)
    as (b & s' & evs & Hrun & Hl & Hyes & _).
  destruct (Hyes eq_refl) as [-> Hc].
  exists s', evs. split; [exact Hrun |]. split; [exact Hl | exact Hc].
Defined.

Example C10_custom_ignore_file :
  custom_rel "/work/proj/a.txt" = "/work/proj/a.txt" /\
  custom_rel "./proj/../proj/a.txt" = "proj/a.txt" /\
  option_map fst (Demo.run Demo.cfg_custom_ignore ["rd"; "proj/a.txt"]) =
    Some ["rd/ok.txt"; "rd/sealed.txt"; "rd/z.txt"].
Proof. repeat split. Qed.

(* ------------------------------------------------------------------ *)
(** ** The further properties on the concrete environment *)
(* ------------------------------------------------------------------ *)

(** The .gitignore files that processing [proj] loads, in order: one
    for each directory on the way up from the files and directories it
    tests. *)
Example loads_of_proj :
  option_map (fun r => loads (log (snd r)))
    (ProcessPaths Demo.proc_default ["proj"] initial) =
  Some [ "/work/proj/.gitignore"; "/work/.gitignore"; "/.gitignore";
         "/work/proj/dist/.gitignore"; "/work/proj/locked/.gitignore" ].
Proof. vm_compute. reflexivity. Qed.

(** X2 on [proj], from the empty cache. *)
Lemma X2_witness :
  cache_ok initial /\
  exists files s',
    ProcessPaths Demo.proc_default ["proj"] initial = Some (files, s') /\
    loaded_once initial s'.
Proof.
  split; [apply cache_ok_initial |].
  apply (X2_gitignore_loaded_once_per_directory Demo.proc_default ["proj"] initial).
  apply cache_ok_initial.
Defined.

(** X3 on [proj], with gitignore support disabled. *)
Lemma X3_witness :
  cache_ok initial /\
  NoGitignore (config Demo.proc_no_gitignore) = true /\
  exists files s',
    ProcessPaths Demo.proc_no_gitignore ["proj"] initial = Some (files, s') /\
    nothing_loaded initial s'.
Proof.
  split; [apply cache_ok_initial |]. split; [reflexivity |].
  apply (X3_no_gitignore_nothing_loaded Demo.proc_no_gitignore ["proj"] initial).
  - apply cache_ok_initial.
  - reflexivity.
Defined.

(** The files to keep under [proj] when [proj/locked] is excluded: the
    binary file and the ignored directory are left out. *)
Example kept_of_proj :
  kept Demo.proc_exclude_locked "proj" "proj" Demo.demo_proj =
  ["proj/.gitignore"; "proj/a.txt"; "proj/z.txt"].
Proof. vm_compute. reflexivity. Qed.

(** X5 on [proj] with the exclude glob [proj/locked]. *)
Lemma X5_witness :
  cache_ok initial /\
  os_Lstat "proj" = Some Demo.demo_proj /\
  os_Stat "proj" <> None /\
  exists s' evs added rest,
    processCandidate Demo.proc_exclude_locked "proj" initial = Some (tt, s') /\
    finalFiles s' = list_to_set added ∪ finalFiles initial /\
    log s' = log initial ++ evs /\
    kept Demo.proc_exclude_locked "proj" "proj" Demo.demo_proj = added ++ rest /\
    listing_ok Demo.demo_proj = true /\
    (~ In (EvWarn (WarnWalk "proj")) evs -> rest = []).
Proof.
  split; [apply cache_ok_initial |]. split; [reflexivity |]. split; [discriminate |].
  apply (X5_walk_keeps_what_passes Demo.proc_exclude_locked "proj" Demo.demo_proj initial).
  - apply cache_ok_initial.
  - reflexivity.
  - discriminate.
Defined.

(** The links under [lk]: the walk returns the link to a directory and
    the link that leads nowhere as it returns a file, and does not
    enter the directory behind the link.  Given as an input, the link
    to a directory is taken for a directory by [os.Stat] and returned
    as it is by the walk; the link that leads nowhere does not exist
    for [os.Stat] and is passed over. *)
Example links_are_returned_as_files :
  option_map fst (Demo.run Demo.cfg_default ["lk"]) =
    Some ["lk/broken"; "lk/linkdir"; "lk/real.txt"] /\
  option_map fst (Demo.run Demo.cfg_default ["./lk/linkdir"]) = Some ["./lk/linkdir"] /\
  option_map fst (Demo.run Demo.cfg_default ["lk/broken"]) = Some [] /\
  option_map fst (Demo.run Demo.cfg_default ["lk/linkdir/in.txt"]) =
    Some ["lk/linkdir/in.txt"].
Proof. vm_compute. repeat split. Qed.

(** X7 on [rd] after [nr]. *)
Lemma X7_witness :
  cache_ok initial /\
  exists filesA s1 filesB s2 filesB' s2',
    ProcessPaths Demo.proc_default ["nr"] initial = Some (filesA, s1) /\
    ProcessPaths Demo.proc_default ["rd"] s1 = Some (filesB, s2) /\
    ProcessPaths Demo.proc_default ["rd"] initial = Some (filesB', s2') /\
    filesB ≡ₚ filesB' /\
    NoDup filesB /\
    finalFiles s2 = finalFiles s2'.
Proof.
  split; [apply cache_ok_initial |].
  apply (X7_ProcessPaths_can_be_called_again Demo.proc_default ["nr"] ["rd"] initial).
  apply cache_ok_initial.
Defined.

(** X8 on [nr], without and with the exclude glob [nr/sub]. *)
Lemma X8_witness :
  option_map fst (Demo.run Demo.cfg_default ["nr"]) =
    Some ["nr/sub/deep/low.txt"; "nr/sub/mid.txt"; "nr/top.txt"] /\
  option_map fst (Demo.run cfg_exclude_sub ["nr"]) = Some ["nr/top.txt"] /\
  exists files s1 evs files' s1',
    resolvePaths Demo.cfg_default ["nr"] initial = Some (files, s1) /\
    log s1 = log initial ++ evs /\
    resolvePaths cfg_exclude_sub ["nr"] initial = Some (files', s1') /\
    ((forall c, ~ In (EvWarn (WarnWalk c)) evs) ->
     forall f, In f files' -> In f files).
Proof.
  split; [reflexivity |]. split; [reflexivity |].
  apply (X8_stricter_configuration_keeps_less Demo.cfg_default cfg_exclude_sub
           ["nr"] initial).
  - reflexivity.
  - intros g [].
  - discriminate.
  - discriminate.
Defined.


(** The fields of [proj/a.txt], and of names with no dot, with two, and
    with a leading one. *)
Example placeholders_examples :
  placeholders "hello" "./proj//a.txt" =
    [ ("{content}", "hello"); ("{path}", "proj/a.txt");
      ("{abspath}", "/work/proj/a.txt"); ("{basename}", "a.txt");
      ("{filename}", "a"); ("{extension}", "txt") ] /\
  map (fun name => (TrimSuffix name (filepath.Ext name), filepath.Ext name))
    ["Makefile"; "c.tar.gz"; ".gitignore"; "notes."] =
    [ ("Makefile", ""); ("c.tar", ".gz"); ("", ".gitignore"); ("notes", ".") ] /\
  map filepath.Base [""; "/"; "a/b/"; "/a/b.txt"] = ["."; "/"; "b"; "b.txt"].
Proof. repeat split. Qed.

(** X11 on [rd/ok.txt] and a template of three placeholders. *)
Lemma X11_witness :
  os_ReadFile "rd/ok.txt" = Some (Demo.text "ok") /\
  Format (NewFormatter "{basename}: {content} {path}") "rd/ok.txt" =
    Some "ok.txt: ok rd/ok.txt".
Proof.
  split; [reflexivity |].
  apply (X11_Format_fills_the_holes (NewFormatter "{basename}: {content} {path}")
           "rd/ok.txt" (Demo.text "ok")
           [Hole PhBasename; Lit ": "; Hole PhContent; Lit " "; Hole PhPath]).
  - reflexivity.
  - reflexivity.
  - intros text [[=] | [[= <-] | [[=] | [[= <-] | [[=] | []]]]]]; reflexivity.
Defined.

(** A value is not scanned again, and a brace that starts no
    placeholder is copied. *)
Example Replace_examples :
  Replace [("{a}", "1{b}"); ("{b}", "2")] "x{a}{b}{c}{a{a}}" = "x1{b}2{c}{a1{b}}".
Proof. reflexivity. Qed.

(** X12 on [proj/a.txt], with a home directory that has no template. *)
Lemma X12_witness :
  (forall wd, Getwd = Some wd ->
     os_ReadFile (filepath.Join wd templateFileName) = None) /\
  (forall homeDir, Some "/home/u" = Some homeDir ->
     os_ReadFile (filepath.Join homeDir templateFileName) = None /\
     os_ReadFile
       (filepath.JoinElems [homeDir; ".config"; "contextgrep"; "template.txt"]) = None) /\
  os_ReadFile "proj/a.txt" = Some (Demo.text "hello") /\
  exists ext,
    In ("{extension}", ext) (placeholders "hello" "proj/a.txt") /\
    Format (NewFormatter (LoadTemplate (Some "/home/u") "")) "proj/a.txt" =
      Some ("=== File Start: proj/a.txt ===" +:+ nl +:+
            "```" +:+ ext +:+ nl +:+
            "hello" +:+ nl +:+
            "```" +:+ nl +:+
            "=== File End: proj/a.txt ===" +:+ nl +:+ nl).
Proof.
  assert (forall wd, Getwd = Some wd ->
            os_ReadFile (filepath.Join wd templateFileName) = None) as Hlocal
    by (intros wd [= <-]; reflexivity).
  assert (forall homeDir, Some "/home/u" = Some homeDir ->
            os_ReadFile (filepath.Join homeDir templateFileName) = None /\
            os_ReadFile
              (filepath.JoinElems [homeDir; ".config"; "contextgrep"; "template.txt"]) =
              None) as Hhome
    by (intros homeDir [= <-]; split; reflexivity).
  split; [exact Hlocal |]. split; [exact Hhome |]. split; [reflexivity |].
  exact (X12_Format_default_block (Some "/home/u") "proj/a.txt" (Demo.text "hello")
           Hlocal Hhome eq_refl).
Defined.

(** X13 on [nr]; the input [./rd/ok.txt], a file, is shown as
    [rd/ok.txt]. *)
Lemma X13_witness :
  cache_ok initial /\
  os_Stat "nr" = Some (Dir true
                         [ ("sub", Dir true
                             [ ("deep", Dir true [ ("low.txt", File true (Demo.text "low")) ]);
                               ("mid.txt", File true (Demo.text "mid")) ]);
                           ("top.txt", File true (Demo.text "top")) ]) /\
  exists s' added,
    processCandidate Demo.proc_default "nr" initial = Some (tt, s') /\
    finalFiles s' = list_to_set added ∪ finalFiles initial /\
    forall f, In f added -> f <> "" ->
      (exists target, os_Lstat "nr" = Some (Link target) /\ f = "nr") \/
      (os_Lstat "nr" = Some (Dir true
                         [ ("sub", Dir true
                             [ ("deep", Dir true [ ("low.txt", File true (Demo.text "low")) ]);
                               ("mid.txt", File true (Demo.text "mid")) ]);
                           ("top.txt", File true (Demo.text "top")) ]) /\
       filepath.Clean f = f /\
       forall content, In ("{path}", f) (placeholders content f)).
Proof.
  split; [apply cache_ok_initial |]. split; [reflexivity |].
  eapply (X13_walked_files_keep_their_path Demo.proc_default "nr").
  - apply cache_ok_initial.
  - reflexivity.
Defined.

Example path_of_an_input_file :
  Format (NewFormatter "{path}") "./rd/ok.txt" = Some "rd/ok.txt".
Proof. reflexivity. Qed.

(** X14 on three files, the second of which does not exist. *)
Lemma X14_witness :
  (forall taken chunk, takes_all taken chunk = true) /\
  stuck fresh_writer = false /\
  writeFiles takes_all (NewFormatter ("{path}" +:+ nl))
    ["proj/a.txt"; "proj/nope"; "proj/z.txt"] fresh_writer =
    ({| taken := "proj/a.txt" +:+ nl +:+ "proj/z.txt" +:+ nl; stuck := false |},
     ["proj/nope"], false).
Proof.
  split; [reflexivity |]. split; [reflexivity |].
  exact (X14_newline_template_concatenates takes_all (NewFormatter ("{path}" +:+ nl))
           "{path}" ["proj/a.txt"; "proj/nope"; "proj/z.txt"] fresh_writer
           (fun _ _ => eq_refl) eq_refl eq_refl).
Defined.

(** X15 on two files and a template without a newline.  When the last
    file cannot be read, the newline after the one before it stays. *)
Lemma X15_witness :
  (forall taken chunk, takes_all taken chunk = true) /\
  stuck fresh_writer = false /\
  writeFiles takes_all (NewFormatter "{path}") ["proj/a.txt"; "proj/z.txt"] fresh_writer =
    ({| taken := "proj/a.txt" +:+ nl +:+ "proj/z.txt"; stuck := false |}, [], false).
Proof.
  split; [reflexivity |]. split; [reflexivity |].
  apply (X15_plain_template_joins takes_all (NewFormatter "{path}")
           ["proj/a.txt"; "proj/z.txt"] ["proj/a.txt"; "proj/z.txt"] fresh_writer).
  - reflexivity.
  - reflexivity.
  - repeat constructor; discriminate.
Defined.

Example newline_before_unreadable_last_file :
  writeFiles takes_all (NewFormatter "{path}") ["proj/a.txt"; "rd/sealed.txt"] fresh_writer =
    ({| taken := "proj/a.txt" +:+ nl; stuck := false |}, ["rd/sealed.txt"], false).
Proof. reflexivity. Qed.

(** X16 in the working directory with the empty template file. *)
Lemma X16_witness :
  (forall taken chunk, takes_all taken chunk = true) /\
  stuck fresh_writer = false /\
  @Getwd Quiet.quiet_env = Some "/work" /\
  @os_ReadFile Quiet.quiet_env (filepath.Join "/work" templateFileName) = Some [] /\
  @LoadTemplate Quiet.quiet_env None "" = "" /\
  @writeFiles Quiet.quiet_env takes_all
    (NewFormatter (@LoadTemplate Quiet.quiet_env None ""))
    ["a.txt"; "b.txt"] fresh_writer =
    (fresh_writer, ["b.txt"], false).
Proof.
  split; [reflexivity |]. split; [reflexivity |]. split; [reflexivity |].
  split; [reflexivity |].
  exact (@X16_empty_local_template_silences Quiet.quiet_env takes_all None "/work"
           ["a.txt"; "b.txt"] fresh_writer (fun _ _ => eq_refl) eq_refl eq_refl eq_refl).
Defined.

(** White space is trimmed at both ends, the no-break space too; the
    zero-width space is none. *)
Example TrimSpace_examples :
  TrimSpace ("  a b " +:+ String (ascii_of_nat 9)
                        (String (ascii_of_nat 194) (String (ascii_of_nat 160) ""))) = "a b" /\
  TrimSpace (String (ascii_of_nat 226) (String (ascii_of_nat 128)
               (String (ascii_of_nat 131) " x "))) = "x" /\
  TrimSpace "   " = "" /\
  GetInputPaths (StdinPiped [" a "; ""; "  "; "b"] false) [] = Returns ["a"; "b"] /\
  GetInputPaths (StdinPiped [" a "] false) [" a "] = Returns [" a "].
Proof. repeat split. Qed.

(** X20 on an empty line, a line of blanks and a line with a tab. *)
Lemma X20_witness :
  (forall line, In line [""; "   "; String (ascii_of_nat 9) ""] -> TrimSpace line = "") /\
  GetInputPaths (StdinPiped [""; "   "; String (ascii_of_nat 9) ""] false) [] = Returns [] /\
  GetInputPaths StdinTerminal [] = Returns ["."] /\
  exists s' evs,
    resolvePaths Demo.cfg_default [] initial = Some ([], s') /\
    log s' = log initial ++ evs /\
    filter (fun e => observable e = true) evs = New_trace Demo.cfg_default /\
    writeFiles takes_all (NewFormatter DefaultTemplate) [] fresh_writer =
      (fresh_writer, [], false).
Proof.
  assert (forall line, In line [""; "   "; String (ascii_of_nat 9) ""] ->
                       TrimSpace line = "") as Hblank
    by (intros line [<- | [<- | [<- | []]]]; reflexivity).
  split; [exact Hblank |].
  exact (X20_blank_pipe_gives_no_output Demo.cfg_default
           [""; "   "; String (ascii_of_nat 9) ""] takes_all
           (NewFormatter DefaultTemplate) fresh_writer initial Hblank).
Defined.

(** The archive of each supported platform; a platform that is not
    supported; and a name of [Object.prototype], for which nothing is
    thrown. *)
Example fileName_examples :
  getPlatformMapping "linux" "x64" = Some (JsString "Linux", JsString "x86_64") /\
  fileName "Linux" "x86_64" = "ctxcat_Linux_x86_64.tar.gz" /\
  getPlatformMapping "win32" "ia32" = Some (JsString "Windows", JsString "i386") /\
  fileName "Windows" "i386" = "ctxcat_Windows_i386.zip" /\
  url "1.0.0" (fileName "Darwin" "arm64") =
    "https://github.com/Jawkx/ctxcat/releases/download/v1.0.0/ctxcat_Darwin_arm64.tar.gz" /\
  getPlatformMapping "freebsd" "x64" = None /\
  getPlatformMapping "constructor" "x64" =
    Some (JsInherited "constructor", JsString "x86_64").
Proof. vm_compute. repeat split. Qed.

